(** * Dragonfly2: the CDN seed node and the manager's database layer

    A shallow embedding of
    - [cdn/cdn.go]: the composition root [New], [Server.Serve], [Server.Stop];
    - the manager's database bootstrap ([newMyqsl], [formatDSN], [seed]);
    - [manager/service/scheduler.go]: [CreateScheduler], [DestroyScheduler],
      [UpdateScheduler], [GetScheduler];
    - the manager's application handlers;
    together with a model of the seed cache core (piece store, task registry,
    progress notifier, eviction controller, source fetcher, orchestrator) as
    the design document describes it. *)

From Stdlib Require Import ZArith Lia.
From stdpp Require Import base tactics option list sorting gmap strings pretty fin_maps.

Local Open Scope string_scope.
Local Open Scope nat_scope.
Local Open Scope list_scope.

(** Go's [error]: a message.  [nil] is [None] wherever an [error] is returned
    alone. *)
Definition error : Type := string.

(** Go's [int32(x)]: keep the low 32 bits, read as a signed number. *)
Definition int32 (x : Z) : Z := ((x + 2 ^ 31) mod 2 ^ 32 - 2 ^ 31)%Z.

(* ====================================================================== *)
(** * cdn/cdn.go *)
(* ====================================================================== *)

Module Cdn.

(** ** Configuration: the fields of [config.Config] that [cdn.go] reads. *)

Record RPCServerConfig := {
  AdvertiseIP : string;
  ListenPort : Z;
  DownloadPort : Z
}.

Record HostConfig := {
  IDC : string;
  NetTopology : string;
  Location : string
}.

Record ManagerConfig := {
  Manager_Addr : string;
  SeedPeerClusterID : N;
  KeepAlive_Interval : N
}.

Record Config := {
  RPCServer_ : RPCServerConfig;
  Host : HostConfig;
  Manager : ManagerConfig;
  Metrics_Addr : string;
  Telemetry_Jaeger : string
}.

(** ** The components [New] builds, named after the variables of [New]. *)

Inductive Component :=
  | taskManager | progressManager | storageManager | cdnManager | service
  | grpcServer_ | fileServer_ | gcServer_ | metricsServer_ | configServer_.

#[global] Instance Component_eq_dec : EqDecision Component.
Proof. solve_decision. Defined.

(** One entry of the construction log: which component a constructor
    returned, which earlier components it was handed, and the options
    passed along. *)
Record Built := { what : Component; args : list Component; options : list string }.

(** Which constructors fail is decided by the environment.  [fileserver.New]
    returns no error. *)
Definition Failing := Component → bool.

(** A constructor call threads the construction log and may stop [New]
    with the wrapped error. *)
Definition Ctor (A : Type) : Type := list Built → list Built * (error + A).

#[global] Instance Ctor_ret : MRet Ctor := fun A a log => (log, inr a).

#[global] Instance Ctor_bind : MBind Ctor := fun A B k m log =>
  match m log with
  | (log', inl e) => (log', inl e)
  | (log', inr a) => k a log'
  end.

(** [c, err := pkg.New(args...); if err != nil { return nil, Wrap(err, msg) }]:
    the error [New] returns is named by the message it wraps the cause in. *)
Definition construct_with (fails : Failing) (c : Component) (deps : list Component)
    (opts : list string) (msg : string) : Ctor Component :=
  fun log =>
    if fails c then (log, inl msg)
    else (log ++ [{| what := c; args := deps; options := opts |}], inr c).

Definition construct (fails : Failing) (c : Component) (deps : list Component)
    (msg : string) : Ctor Component :=
  construct_with fails c deps [] msg.

(** A constructor without an error result. *)
Definition construct_total (c : Component) (deps : list Component) : Ctor Component :=
  fun log => (log ++ [{| what := c; args := deps; options := [] |}], inr c).

(** [Server]: pointer and interface fields are [option]s, [None] being [nil]. *)
Record Server := {
  config : Config;
  grpcServer : option Component;
  metricsServer : option Component;
  configServer : option Component;
  gcServer : option Component;
  fileServer : option Component
}.

Definition nonempty (s : string) : bool := negb (String.eqb s "").

(** [New] *)
Definition New (fails : Failing) (cfg : Config) : Ctor Server :=
  tm ← construct fails taskManager [] "create task manager" ;
  pm ← construct fails progressManager [tm] "create progress manager" ;
  sm ← construct fails storageManager [tm] "create storage manager" ;
  cm ← construct fails cdnManager [sm; pm; tm] "create cdn manager" ;
  sv ← construct fails service [tm; cm; pm] "create cdn service" ;
  let opts := if nonempty (Telemetry_Jaeger cfg)
              then ["ChainUnaryInterceptor"; "ChainStreamInterceptor"] else [] in
  gs ← construct_with fails grpcServer_ [sv] opts "create rpcServer" ;
  fs ← construct_total fileServer_ [sm] ;
  gc ← construct fails gcServer_ [] "create gcServer" ;
  ms ← (if nonempty (Metrics_Addr cfg)
        then m ← construct fails metricsServer_ [gs] "create metricsServer" ; mret (Some m)
        else mret None) ;
  cs ← (if nonempty (Manager_Addr (Manager cfg))
        then c ← construct fails configServer_ [] "create configServer" ; mret (Some c)
        else mret None) ;
  mret {| config := cfg;
         grpcServer := Some gs;
         metricsServer := ms;
         configServer := cs;
         gcServer := Some gc;
         fileServer := Some fs |}.

(** Running [New] from an empty log. *)
Definition run_New (fails : Failing) (cfg : Config) : list Built * (error + Server) :=
  New fails cfg [].

(** The order in which a successful [New] builds, by the two addresses. *)
Definition build_order (cfg : Config) : list Component :=
  [taskManager; progressManager; storageManager; cdnManager; service;
   grpcServer_; fileServer_; gcServer_]
  ++ (if nonempty (Metrics_Addr cfg) then [metricsServer_] else [])
  ++ (if nonempty (Manager_Addr (Manager cfg)) then [configServer_] else []).

(** Every argument of every entry was built by a strictly earlier entry. *)
Definition deps_before (log : list Built) : Prop :=
  ∀ i b a, log !! i = Some b → a ∈ args b →
    ∃ j b', (j < i)%nat ∧ log !! j = Some b' ∧ what b' = a.

(** The design document's six core components and the objects of [New]
    that play them: the storage manager is the piece store (it also carries
    [TryFreeSpace] and [DeleteTask]), the GC server drives the periodic
    reclamation. *)
Inductive CoreComponent :=
  | PieceStore | TaskRegistry | ProgressNotifier | EvictionController
  | SourceFetcher | CacheOrchestrator.

Definition plays (c : Component) : option CoreComponent :=
  match c with
  | storageManager => Some PieceStore
  | taskManager => Some TaskRegistry
  | progressManager => Some ProgressNotifier
  | gcServer_ => Some EvictionController
  | cdnManager => Some SourceFetcher
  | service => Some CacheOrchestrator
  | _ => None
  end.

(** The document's dependency order, as a rank. *)
Definition rank (c : CoreComponent) : nat :=
  match c with
  | PieceStore => 0 | TaskRegistry => 1 | ProgressNotifier => 2
  | EvictionController => 3 | SourceFetcher => 4 | CacheOrchestrator => 5
  end.

(** The core components of a log, in construction order. *)
Definition core_sequence (log : list Built) : list CoreComponent :=
  omap (fun b => plays (what b)) log.

(** "Constructed in the document's order": ranks strictly increase along
    the log. *)
Definition in_document_order (log : list Built) : Prop :=
  Sorted (fun a b => (rank a < rank b)%nat) (core_sequence log).

(** ** [Server.Serve] *)

(** [manager.UpdateSeedPeerRequest] and [manager.KeepAliveRequest], with the
    fields [Serve] fills in. *)
Inductive SourceType := SEED_PEER_SOURCE.

(** [model.SeedPeerTypeSuperSeed] (manager/model/seed_peer.go). *)
Definition SeedPeerTypeSuperSeed : string := "super".

Record UpdateSeedPeerRequest := {
  req_SourceType : SourceType;
  req_HostName : string;
  req_Type : string;
  req_IsCdn : bool;
  req_Idc : string;
  req_NetTopology : string;
  req_Location : string;
  req_Ip : string;
  req_Port : Z;
  req_DownloadPort : Z;
  req_SeedPeerClusterId : N
}.

Record KeepAliveRequest := {
  ka_HostName : string;
  ka_SourceType : SourceType;
  ka_ClusterId : N
}.

(** What a goroutine does that the outside can see: calls on its
    collaborators, log entries, and a nil dereference. *)
Inductive Effect :=
  | gc_Serve
  | metrics_ListenAndServe
  | UpdateSeedPeer (req : UpdateSeedPeerRequest)
  | KeepAlive (interval : N) (req : KeepAliveRequest)
  | file_ListenAndServe
  | grpc_ListenAndServe
  | Infof (msg : string)
  | Fatalf (msg : string)
  | NilDereference.

(** [logger.Fatalf] (internal/dflog, a wrapper of zap's sugared logger)
    writes the entry and then ends the process with [os.Exit(1)]; an
    unrecovered panic ends it too.  Every other effect lets it run on. *)
Definition ends_process (e : Effect) : bool :=
  match e with
  | Fatalf _ | NilDereference => true
  | _ => false
  end.

(** [http.ErrServerClosed] *)
Definition ErrServerClosed : error := "http: Server closed".

(** The environment of [Serve]: the host name and what each collaborator
    answers.  For a serving call [None] is "returned nil, or still serving". *)
Record ServeEnv := {
  FQDNHostname : string;
  gc_result : option error;
  metrics_result : option error;
  manager_result : UpdateSeedPeerRequest → error + string;
  file_result : option error;
  grpc_result : option error
}.

(** A method call through a pointer that may be nil. *)
Definition through {A} (recv : option Component) (k : list A) (nil : A) : list A :=
  match recv with
  | Some _ => k
  | None => [nil]
  end.

(** The four goroutines of [Serve], each as the effects it performs. *)
Definition gc_routine (s : Server) (env : ServeEnv) : list Effect :=
  through (gcServer s)
    (gc_Serve ::
     match gc_result env with
     | Some err => [Fatalf ("start gc task failed: " +:+ err)]
     | None => []
     end) NilDereference.

Definition metrics_routine (s : Server) (env : ServeEnv) : list Effect :=
  match metricsServer s with
  | Some _ =>
      metrics_ListenAndServe ::
      match metrics_result env with
      | Some err => [Fatalf ("start metrics server failed: " +:+ err)]
      | None => []
      end
  | None => []
  end.

Definition seed_peer_request (s : Server) (env : ServeEnv) : UpdateSeedPeerRequest :=
  let rpcServerConfig := RPCServer_ (config s) in
  {| req_SourceType := SEED_PEER_SOURCE;
     req_HostName := FQDNHostname env;
     req_Type := SeedPeerTypeSuperSeed;
     req_IsCdn := true;
     req_Idc := IDC (Host (config s));
     req_NetTopology := NetTopology (Host (config s));
     req_Location := Location (Host (config s));
     req_Ip := AdvertiseIP rpcServerConfig;
     req_Port := int32 (ListenPort rpcServerConfig);
     req_DownloadPort := int32 (DownloadPort rpcServerConfig);
     req_SeedPeerClusterId := SeedPeerClusterID (Manager (config s)) |}.

Definition manager_routine (s : Server) (env : ServeEnv) : list Effect :=
  match configServer s with
  | Some _ =>
      through (grpcServer s)
        (let req := seed_peer_request s env in
         UpdateSeedPeer req ::
         match manager_result env req with
         | inl err => [Fatalf ("update cdn instance failed: " +:+ err)]
         | inr CDNInstance =>
             [Infof ("====starting keepalive cdn instance " +:+ CDNInstance
                     +:+ " to manager " +:+ Manager_Addr (Manager (config s)) +:+ "====");
              KeepAlive (KeepAlive_Interval (Manager (config s)))
                {| ka_HostName := FQDNHostname env;
                   ka_SourceType := SEED_PEER_SOURCE;
                   ka_ClusterId := SeedPeerClusterID (Manager (config s)) |}]
         end) NilDereference
  | None => []
  end.

Definition file_routine (s : Server) (env : ServeEnv) : list Effect :=
  through (fileServer s)
    (file_ListenAndServe ::
     match file_result env with
     | Some err =>
         if String.eqb err ErrServerClosed then []
         else [Fatalf ("start cdn file server failed: " +:+ err)]
     | None => []
     end) NilDereference.

(** How [Serve] ends: the process is ended from one of the goroutines (by
    the listed effects), or the gRPC server's [ListenAndServe] hands its
    result back to the caller. *)
Inductive ServeOutcome :=
  | ProcessExit (causes : list Effect)
  | Return (err : option error).

Definition Serve_routines (s : Server) (env : ServeEnv) : list (list Effect) :=
  [gc_routine s env; metrics_routine s env; manager_routine s env;
   file_routine s env; through (grpcServer s) [grpc_ListenAndServe] NilDereference].

Definition Serve (s : Server) (env : ServeEnv) : ServeOutcome :=
  match filter (fun e => ends_process e = true) (concat (Serve_routines s env)) with
  | [] => Return (grpc_result env)
  | causes => ProcessExit causes
  end.

(** The piece-serving, file-serving and GC activities go on exactly as long
    as the process does. *)
Definition still_serving (o : ServeOutcome) : bool :=
  match o with
  | ProcessExit _ => false
  | Return _ => true
  end.

(** The environment [env] with the manager answering [r] to the update. *)
Definition answering (env : ServeEnv) (r : error + string) : ServeEnv :=
  {| FQDNHostname := FQDNHostname env;
     gc_result := gc_result env;
     metrics_result := metrics_result env;
     manager_result := fun _ => r;
     file_result := file_result env;
     grpc_result := grpc_result env |}.

(** "A registration error leaves the serving activities unaffected":
    [Serve] ends the same way whether the manager refuses or accepts. *)
Definition registration_failure_contained (s : Server) (env : ServeEnv) : Prop :=
  ∀ err inst,
    Serve s (answering env (inl err)) = Serve s (answering env (inr inst)).

(** ** [Server.Stop] *)

Inductive StopCall :=
  | gc_Shutdown | config_Close | metrics_Shutdown | grpc_Shutdown | file_Shutdown.

#[global] Instance StopCall_eq_dec : EqDecision StopCall.
Proof. solve_decision. Defined.

(** One function handed to [g.Go]: the method and the receiver it is
    called on. *)
Record Spawned := { call : StopCall; receiver : option Component }.

#[global] Instance Spawned_eq_dec : EqDecision Spawned.
Proof. solve_decision. Defined.

(** The functions [Stop] hands to the error group, in order.  Only the
    manager client is guarded by a nil test. *)
Definition Stop_spawns (s : Server) : list Spawned :=
  [{| call := gc_Shutdown; receiver := gcServer s |}]
  ++ match configServer s with
     | Some c => [{| call := config_Close; receiver := Some c |}]
     | None => []
     end
  ++ [{| call := metrics_Shutdown; receiver := metricsServer s |};
      {| call := grpc_Shutdown; receiver := grpcServer s |};
      {| call := file_Shutdown; receiver := fileServer s |}].

(** What a spawned function does: a method that reaches for its receiver's
    state panics on a nil receiver, and otherwise returns what the
    environment decides. *)
Inductive CallResult := Panics | Returns (err : option error).

#[global] Instance CallResult_eq_dec : EqDecision CallResult.
Proof. solve_decision. Defined.

Definition run_spawned (env : StopCall → option error) (f : Spawned) : CallResult :=
  match receiver f with
  | None => Panics
  | Some _ => Returns (env (call f))
  end.

(** How [Stop] ends: a panic in a goroutine ends the process; otherwise
    [g.Wait()] returns nil when [errs] is empty and else the error among
    [errs] that was recorded first. *)
Inductive StopOutcome := StopPanic (at_ : list StopCall) | StopReturn (errs : list error).

Definition Stop (s : Server) (env : StopCall → option error) : StopOutcome :=
  let spawns := Stop_spawns s in
  match filter (fun f => run_spawned env f = Panics) spawns with
  | [] => StopReturn (omap (fun f => env (call f)) spawns)
  | ps => StopPanic (call <$> ps)
  end.

End Cdn.

(* ====================================================================== *)
(** * The manager's relational store, as gorm presents it *)
(* ====================================================================== *)

(** The calls of gorm that the manager makes, on tables held as finite
    maps.  A statement fails for a reason the data gives (no such row, a
    primary key that exists) or, where it takes a verdict, for a
    constraint of the table; a lost connection or a missing table is
    outside this model. *)

Module Gorm.

(** [gorm.ErrRecordNotFound], and MySQL's answer to a second row with the
    same primary key. *)
Definition ErrRecordNotFound : error := "record not found".
Definition ErrDuplicateEntry : error := "Error 1062: Duplicate entry for key 'PRIMARY'".

(** A stored row: the columns of the embedded [model.Model] that matter
    here (the primary key [ID] is the row's key in the table, [is_del] is
    the soft-delete mark that [Unscoped()] looks past; the two timestamps
    are left out) and the model's own columns. *)
Record Row (A : Type) := { is_del : bool; columns : A }.
Arguments is_del {A} _.
Arguments columns {A} _.

(** A table: rows by primary key.  The key is Go's [uint]. *)
Abbreviation Table A := (gmap N (Row A)).

(** The rows a scoped statement sees. *)
Definition scoped {A} (t : Table A) : Table A :=
  filter (fun kr => is_del kr.2 = false) t.

(** [db.Model(&T{}).Count(&n)] *)
Definition Count {A} (t : Table A) : Z := Z.of_nat (size (scoped t)).

(** [db.Create(&T{Model: Model{ID: id}, ...})]: an INSERT with the primary
    key given. *)
Definition Create {A} (id : N) (a : A) (t : Table A) : Table A * option error :=
  match t !! id with
  | Some _ => (t, Some ErrDuplicateEntry)
  | None => (<[id := {| is_del := false; columns := a |}]> t, None)
  end.

(** The least key of a list of keys. *)
Definition least (ks : list N) : option N :=
  foldr (fun k acc => Some (from_option (N.min k) k acc)) None ks.

(** [db.First(&row)]: the scoped row with the least primary key. *)
Definition First {A} (t : Table A) : error + (N * A) :=
  match least (fst <$> map_to_list (scoped t)) with
  | Some id =>
      match t !! id with
      | Some r => inr (id, columns r)
      | None => inl ErrRecordNotFound
      end
  | None => inl ErrRecordNotFound
  end.

(** [db.First(&row, id)]: the scoped row with this primary key. *)
Definition First_id {A} (t : Table A) (id : N) : error + A :=
  match t !! id with
  | Some r => if is_del r then inl ErrRecordNotFound else inr (columns r)
  | None => inl ErrRecordNotFound
  end.

(** [db.Delete(&T{}, id)]: with a soft-delete column the scoped row is only
    marked. *)
Definition Delete {A} (t : Table A) (id : N) : Table A * option error :=
  (match t !! id with
   | Some r => if is_del r then t else <[id := {| is_del := true; columns := columns r |}]> t
   | None => t
   end, None).

(** [db.Unscoped().Delete(&T{}, id)]: the row leaves the table, marked or
    not; deleting nothing is no error. *)
Definition Unscoped_Delete {A} (t : Table A) (id : N) : Table A * option error :=
  (delete id t, None).

(** [db.Create(&row)] with a zero ID: an INSERT that leaves the primary key
    to the table's AUTO_INCREMENT counter, whose value is [next].  [verdict]
    is what the table's other constraints say of the row (a unique index,
    a NOT NULL column); a refused INSERT writes nothing. *)
Definition Create_auto {A} (next : N) (verdict : A → option error) (a : A)
    (t : Table A) : Table A * (error + N) :=
  match verdict a with
  | Some e => (t, inl e)
  | None =>
      match t !! next with
      | Some _ => (t, inl ErrDuplicateEntry)
      | None => (<[next := {| is_del := false; columns := a |}]> t, inr next)
      end
  end.

(** [db.First(&row, id).Updates(T{...})]: an UPDATE of the scoped row with
    this primary key.  With a struct as argument gorm writes the columns
    whose field is not the zero value, which [assign] does to the stored
    columns; a row that is not there is no error, and a refused UPDATE
    writes nothing. *)
Definition Updates {A} (assign : A → A) (verdict : A → option error)
    (t : Table A) (id : N) : Table A * option error :=
  match t !! id with
  | Some r =>
      if is_del r then (t, None)
      else
        match verdict (assign (columns r)) with
        | Some e => (t, Some e)
        | None => (<[id := {| is_del := false; columns := assign (columns r) |}]> t, None)
        end
  | None => (t, None)
  end.

End Gorm.

(* ====================================================================== *)
(** * manager/model and manager/database *)
(* ====================================================================== *)

Module Database.
Import Gorm.

(** The defaults of [scheduler/config] that [seed] stores, by name. *)
Inductive ConfigValue :=
  | DefaultSchedulerFilterParentLimit
  | DefaultClientLoadLimit
  | DefaultClientParallelCount
  | DefaultSeedPeerLoadLimit.

#[global] Instance ConfigValue_eq_dec : EqDecision ConfigValue.
Proof. solve_decision. Defined.

(** [map[string]interface{}] columns. *)
Abbreviation JSONMap := (gmap string ConfigValue).

(** [model.SchedulerCluster], [model.SeedPeerCluster], [model.Scheduler]:
    the columns the sources set. *)
Record SchedulerCluster := {
  sc_Name : string;
  sc_Config : JSONMap;
  sc_ClientConfig : JSONMap;
  sc_Scopes : JSONMap;
  sc_IsDefault : bool
}.

Record SeedPeerCluster := {
  spc_Name : string;
  spc_Config : JSONMap;
  spc_IsDefault : bool
}.

Record Scheduler := {
  HostName : string;
  IDC : string;
  NetTopology : string;
  Location : string;
  IP : string;
  Port : Z;
  State : string;
  SchedulerClusterID : N
}.

(** The database: the three tables and the join table of the many-to-many
    association [SeedPeerCluster.SchedulerClusters], whose rows are pairs
    (seed peer cluster id, scheduler cluster id). *)
Record DB := {
  scheduler_cluster : Table SchedulerCluster;
  seed_peer_cluster : Table SeedPeerCluster;
  seed_peer_cluster_scheduler_cluster : gset (N * N);
  scheduler : Table Scheduler
}.

Definition empty_DB : DB :=
  {| scheduler_cluster := ∅; seed_peer_cluster := ∅;
     seed_peer_cluster_scheduler_cluster := ∅; scheduler := ∅ |}.

(** A statement run on the connection: it may change the database and
    may fail; the changes made before a failure stay (no transaction). *)
Definition Stmt (A : Type) : Type := DB → DB * (error + A).

#[global] Instance Stmt_ret : MRet Stmt := fun A a db => (db, inr a).

#[global] Instance Stmt_bind : MBind Stmt := fun A B k m db =>
  match m db with
  | (db', inl e) => (db', inl e)
  | (db', inr a) => k a db'
  end.

Definition on_scheduler_cluster {A}
    (f : Table SchedulerCluster → Table SchedulerCluster * option error)
    (a : A) : Stmt A :=
  fun db =>
    let '(t, r) := f (scheduler_cluster db) in
    ({| scheduler_cluster := t;
        seed_peer_cluster := seed_peer_cluster db;
        seed_peer_cluster_scheduler_cluster := seed_peer_cluster_scheduler_cluster db;
        scheduler := scheduler db |},
     match r with Some e => inl e | None => inr a end).

Definition on_seed_peer_cluster {A}
    (f : Table SeedPeerCluster → Table SeedPeerCluster * option error)
    (a : A) : Stmt A :=
  fun db =>
    let '(t, r) := f (seed_peer_cluster db) in
    ({| scheduler_cluster := scheduler_cluster db;
        seed_peer_cluster := t;
        seed_peer_cluster_scheduler_cluster := seed_peer_cluster_scheduler_cluster db;
        scheduler := scheduler db |},
     match r with Some e => inl e | None => inr a end).

Definition on_scheduler {A}
    (f : Table Scheduler → Table Scheduler * option error)
    (a : A) : Stmt A :=
  fun db =>
    let '(t, r) := f (scheduler db) in
    ({| scheduler_cluster := scheduler_cluster db;
        seed_peer_cluster := seed_peer_cluster db;
        seed_peer_cluster_scheduler_cluster := seed_peer_cluster_scheduler_cluster db;
        scheduler := t |},
     match r with Some e => inl e | None => inr a end).

(** A query: reads, changes nothing. *)
Definition query {A} (f : DB → error + A) : Stmt A := fun db => (db, f db).

(** [db.Model(&seedPeerCluster).Association("SchedulerClusters").Append(&schedulerCluster)]:
    the pair enters the join table unless it is there. *)
Definition Association_Append (spc sc : N) : Stmt unit :=
  fun db =>
    ({| scheduler_cluster := scheduler_cluster db;
        seed_peer_cluster := seed_peer_cluster db;
        seed_peer_cluster_scheduler_cluster :=
          {[ (spc, sc) ]} ∪ seed_peer_cluster_scheduler_cluster db;
        scheduler := scheduler db |}, inr ()).

(** The two rows [seed] creates. *)
Definition default_scheduler_cluster : SchedulerCluster :=
  {| sc_Name := "scheduler-cluster-1";
     sc_Config := {[ "filter_parent_limit" := DefaultSchedulerFilterParentLimit ]};
     sc_ClientConfig := <[ "load_limit" := DefaultClientLoadLimit ]>
                          {[ "parallel_count" := DefaultClientParallelCount ]};
     sc_Scopes := ∅;
     sc_IsDefault := true |}.

Definition default_seed_peer_cluster : SeedPeerCluster :=
  {| spc_Name := "seed-peer-cluster-1";
     spc_Config := {[ "load_limit" := DefaultSeedPeerLoadLimit ]};
     spc_IsDefault := true |}.

(** [seed] *)
Definition seed : Stmt unit :=
  schedulerClusterCount ← query (fun db => inr (Count (scheduler_cluster db)));
  _ ← (if (schedulerClusterCount <=? 0)%Z
       then on_scheduler_cluster (Create 1%N default_scheduler_cluster) ()
       else mret ());
  seedPeerClusterCount ← query (fun db => inr (Count (seed_peer_cluster db)));
  if (seedPeerClusterCount <=? 0)%Z
  then
    _ ← on_seed_peer_cluster (Create 1%N default_seed_peer_cluster) ();
    seedPeerCluster ← query (fun db => First (seed_peer_cluster db));
    schedulerCluster ← query (fun db => First (scheduler_cluster db));
    Association_Append seedPeerCluster.1 schedulerCluster.1
  else mret ().

(** [config.MysqlConfig] *)
Record MysqlConfig := {
  cfg_User : string;
  cfg_Password : string;
  cfg_Host : string;
  cfg_Port : N;
  cfg_DBName : string;
  TLS : option string;
  Migrate : bool
}.

(** [mysql.Config], with the fields [formatDSN] sets. *)
Record DriverConfig := {
  dc_User : string;
  dc_Passwd : string;
  dc_Addr : string;
  dc_Net : string;
  dc_DBName : string;
  dc_AllowNativePasswords : bool;
  dc_ParseTime : bool;
  dc_InterpolateParams : bool;
  dc_TLSConfig : string
}.

(** What the surroundings of [newMyqsl] answer: the TLS client
    configuration built from the settings, the driver's registry of TLS
    configurations and its DSN printer, the database [gorm.Open] reaches,
    and how [AutoMigrate] ends (it changes the schema, not the rows). *)
Record Env := {
  TLS_Client : string → error + string;
  RegisterTLSConfig : string → string → option error;
  FormatDSN : DriverConfig → string;
  Open_result : string → error + DB;
  migrate_result : option error
}.

(** [formatDSN] *)
Definition formatDSN (cfg : MysqlConfig) (env : Env) : error + string :=
  let mysqlCfg (tlsName : string) :=
    {| dc_User := cfg_User cfg;
       dc_Passwd := cfg_Password cfg;
       dc_Addr := cfg_Host cfg +:+ ":" +:+ pretty (cfg_Port cfg);
       dc_Net := "tcp";
       dc_DBName := cfg_DBName cfg;
       dc_AllowNativePasswords := true;
       dc_ParseTime := true;
       dc_InterpolateParams := true;
       dc_TLSConfig := tlsName |} in
  match TLS cfg with
  | Some settings =>
      match TLS_Client env settings with
      | inl err => inl err
      | inr tls =>
          match RegisterTLSConfig env "custom" tls with
          | Some err => inl err
          | None => inr (FormatDSN env (mysqlCfg "custom"))
          end
      end
  | None => inr (FormatDSN env (mysqlCfg ""))
  end.

(** [migrate] *)
Definition migrate (env : Env) : Stmt unit :=
  fun db => (db, match migrate_result env with Some e => inl e | None => inr () end).

(** [newMyqsl]: the error or the opened connection, with the database as
    the call leaves it ([None] when no connection was made). *)
Definition newMyqsl (cfg : MysqlConfig) (env : Env) : option DB * (error + unit) :=
  match formatDSN cfg env with
  | inl err => (None, inl err)
  | inr dsn =>
      match Open_result env dsn with
      | inl err => (None, inl err)
      | inr db =>
          let '(db', r) :=
            (_ ← (if Migrate cfg then migrate env else mret ());
             seed) db in
          (Some db', r)
      end
  end.

End Database.

(* ====================================================================== *)
(** * manager/service/scheduler.go *)
(* ====================================================================== *)

Module Service.
Import Gorm Database.

(** [service.DestroyScheduler] *)
Definition DestroyScheduler (id : N) : Stmt unit :=
  scheduler ← query (fun db => First_id (scheduler db) id);
  on_scheduler (fun t => Unscoped_Delete t id) ().

(** [service.GetScheduler] *)
Definition GetScheduler (id : N) : Stmt Scheduler :=
  query (fun db => First_id (Database.scheduler db) id).

(** [types.CreateSchedulerRequest] and [types.UpdateSchedulerRequest], with
    the fields the service reads. *)
Record CreateSchedulerRequest := {
  create_HostName : string;
  create_IDC : string;
  create_NetTopology : string;
  create_Location : string;
  create_IP : string;
  create_Port : Z;
  create_SchedulerClusterID : N
}.

Record UpdateSchedulerRequest := {
  update_IDC : string;
  update_NetTopology : string;
  update_Location : string;
  update_IP : string;
  update_Port : Z;
  update_SchedulerClusterID : N
}.

(** What the scheduler table adds to a statement, all of it fixed by the
    declaration of [model.Scheduler] and by the engine: the AUTO_INCREMENT
    value a row without ID receives, the default of the [state] column (the
    empty string when the column has none), and the verdict of the table's
    constraints on a row that is about to be written. *)
Record Engine := {
  AUTO_INCREMENT : N;
  State_default : string;
  refuses : Scheduler → option error
}.

(** On [Create] a zero-valued field takes its column's default, in the
    table and in the struct handed in. *)
Definition with_defaults (eng : Engine) (s : Scheduler) : Scheduler :=
  {| HostName := HostName s;
     IDC := IDC s;
     NetTopology := NetTopology s;
     Location := Location s;
     IP := IP s;
     Port := Port s;
     State := if String.eqb (State s) "" then State_default eng else State s;
     SchedulerClusterID := SchedulerClusterID s |}.

(** [service.CreateScheduler]: the new row's ID and columns, or the error. *)
Definition CreateScheduler (eng : Engine) (json : CreateSchedulerRequest)
    : Stmt (N * Scheduler) :=
  let scheduler :=
    {| HostName := create_HostName json;
       IDC := create_IDC json;
       NetTopology := create_NetTopology json;
       Location := create_Location json;
       IP := create_IP json;
       Port := create_Port json;
       State := "";
       SchedulerClusterID := create_SchedulerClusterID json |} in
  fun db =>
    let '(t, r) := Create_auto (AUTO_INCREMENT eng) (refuses eng)
                     (with_defaults eng scheduler) (Database.scheduler db) in
    ({| scheduler_cluster := scheduler_cluster db;
        seed_peer_cluster := seed_peer_cluster db;
        seed_peer_cluster_scheduler_cluster := seed_peer_cluster_scheduler_cluster db;
        Database.scheduler := t |},
     match r with
     | inl e => inl e
     | inr id => inr (id, with_defaults eng scheduler)
     end).

(** The fields of [values] that are not the zero value, written over [row]. *)
Definition assign (values row : Scheduler) : Scheduler :=
  {| HostName := if String.eqb (HostName values) "" then HostName row else HostName values;
     IDC := if String.eqb (IDC values) "" then IDC row else IDC values;
     NetTopology :=
       if String.eqb (NetTopology values) "" then NetTopology row else NetTopology values;
     Location := if String.eqb (Location values) "" then Location row else Location values;
     IP := if String.eqb (IP values) "" then IP row else IP values;
     Port := if (Port values =? 0)%Z then Port row else Port values;
     State := if String.eqb (State values) "" then State row else State values;
     SchedulerClusterID :=
       if (SchedulerClusterID values =? 0)%N then SchedulerClusterID row
       else SchedulerClusterID values |}.

(** The struct [UpdateScheduler] hands to [Updates]. *)
Definition update_values (json : UpdateSchedulerRequest) : Scheduler :=
  {| HostName := "";
     IDC := update_IDC json;
     NetTopology := update_NetTopology json;
     Location := update_Location json;
     IP := update_IP json;
     Port := update_Port json;
     State := "";
     SchedulerClusterID := update_SchedulerClusterID json |}.

(** [service.UpdateScheduler]: [First] loads the row into [scheduler] and
    [Updates] writes the non-zero fields to the table and to [scheduler]. *)
Definition UpdateScheduler (eng : Engine) (id : N) (json : UpdateSchedulerRequest)
    : Stmt Scheduler :=
  scheduler ← query (fun db => First_id (Database.scheduler db) id);
  on_scheduler
    (fun t => Updates (assign (update_values json)) (refuses eng) t id)
    (assign (update_values json) scheduler).

End Service.

(* ====================================================================== *)
(** * manager/handlers: the application endpoints *)
(* ====================================================================== *)

Module Handlers.

(** [http.StatusOK] and [http.StatusUnprocessableEntity] *)
Definition StatusOK : Z := 200.
Definition StatusUnprocessableEntity : Z := 422.

(** The parameter structs of [manager/types], with the fields the handlers
    read. *)
Record ApplicationParams := { app_ID : N }.

Record AddSchedulerClusterToApplicationParams :=
  { add_sc_ID : N; add_sc_SchedulerClusterID : N }.

Record DeleteSchedulerClusterToApplicationParams :=
  { del_sc_ID : N; del_sc_SchedulerClusterID : N }.

Record AddSeedPeerClusterToApplicationParams :=
  { add_spc_ID : N; add_spc_SeedPeerClusterID : N }.

Record DeleteSeedPeerClusterToApplicationParams :=
  { del_spc_ID : N; del_spc_SeedPeerClusterID : N }.

(** The request as the three bindings of [gin.Context] would decode it. *)
Record Request (U J Q : Type) := {
  ShouldBindUri : error + U;
  ShouldBindJSON : error + J;
  ShouldBindQuery : error + Q
}.
Arguments ShouldBindUri {U J Q} _.
Arguments ShouldBindJSON {U J Q} _.
Arguments ShouldBindQuery {U J Q} _.

Section Handlers.

(** The request bodies, the other fields of the list query and the
    application model: the handlers pass them on unread. *)
Context {CreateApplicationRequest UpdateApplicationRequest Filter Application : Type}.

(** [types.GetApplicationsQuery] *)
Record GetApplicationsQuery := { Page : Z; PerPage : Z; filter_ : Filter }.

(** The methods of [h.service] the handlers call. *)
Record Service := {
  svc_CreateApplication : CreateApplicationRequest → error + Application;
  svc_DestroyApplication : N → option error;
  svc_UpdateApplication : N → UpdateApplicationRequest → error + Application;
  svc_GetApplication : N → error + Application;
  svc_GetApplications : GetApplicationsQuery → error + (list Application * Z);
  svc_AddSchedulerClusterToApplication : N → N → option error;
  svc_DeleteSchedulerClusterToApplication : N → N → option error;
  svc_AddSeedPeerClusterToApplication : N → N → option error;
  svc_DeleteSeedPeerClusterToApplication : N → N → option error
}.

(** [Handlers]: the service, and [setPaginationDefault], which rewrites
    the page and the page size through the two pointers it is given. *)
Record Handlers := {
  service : Service;
  setPaginationDefault : Z * Z → Z * Z
}.

(** A call on the service, with its arguments. *)
Inductive Call :=
  | CreateApplication_ (json : CreateApplicationRequest)
  | DestroyApplication_ (id : N)
  | UpdateApplication_ (id : N) (json : UpdateApplicationRequest)
  | GetApplication_ (id : N)
  | GetApplications_ (q : GetApplicationsQuery)
  | AddSchedulerClusterToApplication_ (id schedulerClusterID : N)
  | DeleteSchedulerClusterToApplication_ (id schedulerClusterID : N)
  | AddSeedPeerClusterToApplication_ (id seedPeerClusterID : N)
  | DeleteSeedPeerClusterToApplication_ (id seedPeerClusterID : N).

(** What [ctx.JSON] serializes. *)
Inductive Body :=
  | errors_ (msg : string)
  | application_ (a : Application)
  | applications_ (l : list Application).

(** What a handler does, in order: it reads the request through a binding,
    calls the service (the call is listed with the error it came back
    with), writes the response, records an error on the context for the
    error middleware, or has the pagination Link header set. *)
Inductive Action :=
  | BindUri
  | BindJSON
  | BindQuery
  | Invoke (c : Call) (err : option error)
  | JSON (code : Z) (obj : Body)
  | Status (code : Z)
  | Error (err : error)
  | setPaginationLinkHeader (page perPage count : Z).

(** [err != nil] of a service result. *)
Definition failure {A} (r : error + A) : option error :=
  match r with
  | inl e => Some e
  | inr _ => None
  end.

(** [ctx.JSON(http.StatusUnprocessableEntity, gin.H{"errors": err.Error()})] *)
Definition unprocessable (err : error) : Action :=
  JSON StatusUnprocessableEntity (errors_ err).

(** The tail shared by the handlers that answer with a bare status. *)
Definition status_only (c : Call) (r : option error) : list Action :=
  Invoke c r ::
  match r with
  | Some err => [Error err]
  | None => [Status StatusOK]
  end.

(** The tail shared by the handlers that answer with an application. *)
Definition with_application (c : Call) (r : error + Application) : list Action :=
  Invoke c (failure r) ::
  match r with
  | inl err => [Error err]
  | inr application => [JSON StatusOK (application_ application)]
  end.

Definition CreateApplication {U Q} (h : Handlers)
    (ctx : Request U CreateApplicationRequest Q) : list Action :=
  BindJSON ::
  match ShouldBindJSON ctx with
  | inl err => [unprocessable err]
  | inr json =>
      with_application (CreateApplication_ json) (svc_CreateApplication (service h) json)
  end.

Definition DestroyApplication {J Q} (h : Handlers)
    (ctx : Request ApplicationParams J Q) : list Action :=
  BindUri ::
  match ShouldBindUri ctx with
  | inl err => [unprocessable err]
  | inr params =>
      status_only (DestroyApplication_ (app_ID params))
        (svc_DestroyApplication (service h) (app_ID params))
  end.

Definition UpdateApplication {Q} (h : Handlers)
    (ctx : Request ApplicationParams UpdateApplicationRequest Q) : list Action :=
  BindUri ::
  match ShouldBindUri ctx with
  | inl err => [unprocessable err]
  | inr params =>
      BindJSON ::
      match ShouldBindJSON ctx with
      | inl err => [unprocessable err]
      | inr json =>
          with_application (UpdateApplication_ (app_ID params) json)
            (svc_UpdateApplication (service h) (app_ID params) json)
      end
  end.

Definition GetApplication {J Q} (h : Handlers)
    (ctx : Request ApplicationParams J Q) : list Action :=
  BindUri ::
  match ShouldBindUri ctx with
  | inl err => [unprocessable err]
  | inr params =>
      with_application (GetApplication_ (app_ID params))
        (svc_GetApplication (service h) (app_ID params))
  end.

(** [count] is an [int64] that the handler converts with [int(count)], the
    same number where [int] has 64 bits. *)
Definition GetApplications {U J} (h : Handlers)
    (ctx : Request U J GetApplicationsQuery) : list Action :=
  BindQuery ::
  match ShouldBindQuery ctx with
  | inl err => [unprocessable err]
  | inr query =>
      let '(page, perPage) := setPaginationDefault h (Page query, PerPage query) in
      let query := {| Page := page; PerPage := perPage; filter_ := filter_ query |} in
      let r := svc_GetApplications (service h) query in
      Invoke (GetApplications_ query) (failure r) ::
      match r with
      | inl err => [Error err]
      | inr (applications, count) =>
          [setPaginationLinkHeader (Page query) (PerPage query) count;
           JSON StatusOK (applications_ applications)]
      end
  end.

Definition AddSchedulerClusterToApplication {J Q} (h : Handlers)
    (ctx : Request AddSchedulerClusterToApplicationParams J Q) : list Action :=
  BindUri ::
  match ShouldBindUri ctx with
  | inl err => [unprocessable err]
  | inr params =>
      status_only
        (AddSchedulerClusterToApplication_ (add_sc_ID params) (add_sc_SchedulerClusterID params))
        (svc_AddSchedulerClusterToApplication (service h)
           (add_sc_ID params) (add_sc_SchedulerClusterID params))
  end.

Definition DeleteSchedulerClusterToApplication {J Q} (h : Handlers)
    (ctx : Request DeleteSchedulerClusterToApplicationParams J Q) : list Action :=
  BindUri ::
  match ShouldBindUri ctx with
  | inl err => [unprocessable err]
  | inr params =>
      status_only
        (DeleteSchedulerClusterToApplication_ (del_sc_ID params)
           (del_sc_SchedulerClusterID params))
        (svc_DeleteSchedulerClusterToApplication (service h)
           (del_sc_ID params) (del_sc_SchedulerClusterID params))
  end.

Definition AddSeedPeerClusterToApplication {J Q} (h : Handlers)
    (ctx : Request AddSeedPeerClusterToApplicationParams J Q) : list Action :=
  BindUri ::
  match ShouldBindUri ctx with
  | inl err => [unprocessable err]
  | inr params =>
      status_only
        (AddSeedPeerClusterToApplication_ (add_spc_ID params)
           (add_spc_SeedPeerClusterID params))
        (svc_AddSeedPeerClusterToApplication (service h)
           (add_spc_ID params) (add_spc_SeedPeerClusterID params))
  end.

Definition DeleteSeedPeerClusterToApplication {J Q} (h : Handlers)
    (ctx : Request DeleteSeedPeerClusterToApplicationParams J Q) : list Action :=
  BindUri ::
  match ShouldBindUri ctx with
  | inl err => [unprocessable err]
  | inr params =>
      status_only
        (DeleteSeedPeerClusterToApplication_ (del_spc_ID params)
           (del_spc_SeedPeerClusterID params))
        (svc_DeleteSeedPeerClusterToApplication (service h)
           (del_spc_ID params) (del_spc_SeedPeerClusterID params))
  end.

End Handlers.

End Handlers.

(* ====================================================================== *)
(** * The seed cache core, after the design document *)
(* ====================================================================== *)

(** The packages [New] wires together ([supervisor/task],
    [supervisor/progress], [supervisor/cdn/storage], [supervisor/cdn],
    [supervisor]) are not among the sources; what follows renders the
    design document's contracts (sections 3 to 5) as functions. *)

Module Core.

(** Modelled from the spec: the error taxonomy of section 7. *)
Inductive Error :=
  | NotFound | UnknownTask | DuplicateWrite | InvalidTransition | Timeout
  | TaskClosed | InsufficientSpace | ChecksumMismatch | FetchFailed.

#[global] Instance Error_eq_dec : EqDecision Error.
Proof. solve_decision. Defined.

(** Modelled from the spec: the checksum of a piece and the digest of the
    content, which the document leaves open: any one function of the
    bytes. *)
Class Hasher := {
  Digest : Type;
  Digest_eq_dec :: EqDecision Digest;
  digest : list Byte.byte → Digest
}.

Section Core.
Context `{Hasher}.

(** ** Data model (section 3) *)

(** Modelled from the spec: task states, source descriptor, task, piece
    record ([supervisor/task] and [supervisor/cdn/storage] are not among
    the sources). *)

Inductive State := Fetching | Success | Fail.

#[global] Instance State_eq_dec : EqDecision State.
Proof. solve_decision. Defined.

Record SourceDescriptor := { url : string; expectedDigest : option Digest }.

Record Task := {
  key : string;
  state : State;
  totalLength : option nat;
  pieceLength : nat;
  finalDigest : option Digest;
  created : nat;
  lastAccessed : nat;
  source : SourceDescriptor
}.

Record PieceRecord := {
  taskKey : string;
  seq : nat;
  offset : nat;
  len : nat;
  checksum : Digest
}.

(** One addressable unit of the store: the metadata record and the bytes. *)
Record Piece := { meta : PieceRecord; data : list Byte.byte }.

(** ** Piece Store (section 4.1) *)

(** Modelled from the spec: the piece store ([supervisor/cdn/storage]; only
    its generated mock is among the sources).  Pieces by task key and
    sequence number, and the free-capacity counter next to the configured
    total. *)
Record PieceStore := {
  pieces : gmap string (gmap nat Piece);
  free : Z;
  total : Z
}.

Definition task_bytes (pm : gmap nat Piece) : Z :=
  map_fold (fun _ p acc => (Z.of_nat (length (data p)) + acc)%Z) 0%Z pm.

(** Modelled from the spec: [Put] (section 4.1); it refuses a pair
    (task key, sequence number) that exists, and a successful write takes
    the bytes off the free-capacity counter. *)
Definition Put (r : PieceRecord) (bs : list Byte.byte) (s : PieceStore)
    : PieceStore * option Error :=
  let pm := default ∅ (pieces s !! taskKey r) in
  match pm !! seq r with
  | Some _ => (s, Some DuplicateWrite)
  | None =>
      ({| pieces := <[taskKey r := <[seq r := {| meta := r; data := bs |}]> pm]> (pieces s);
          free := (free s - Z.of_nat (length bs))%Z;
          total := total s |}, None)
  end.

(** Modelled from the spec: [Get] (section 4.1). *)
Definition Get (k : string) (n : nat) (s : PieceStore) : Error + Piece :=
  match pieces s !! k with
  | None => inl UnknownTask
  | Some pm =>
      match pm !! n with
      | None => inl NotFound
      | Some p => inr p
      end
  end.

(** Modelled from the spec: [Stat] (section 4.1). *)
Definition Stat (k : string) (s : PieceStore) : Z * nat :=
  match pieces s !! k with
  | None => (0%Z, 0)
  | Some pm => (task_bytes pm, size pm)
  end.

(** Modelled from the spec: [DeleteTask] (section 4.1); all piece records
    of the task go and their bytes return to the free-capacity counter. *)
Definition DeleteTask (k : string) (s : PieceStore) : PieceStore * option Error :=
  match pieces s !! k with
  | None => (s, Some UnknownTask)
  | Some pm =>
      ({| pieces := delete k (pieces s);
          free := (free s + task_bytes pm)%Z;
          total := total s |}, None)
  end.

Definition FreeCapacity (s : PieceStore) : Z := free s.

(** The bytes of pieces [0 .. n-1] of a task, in order. *)
Fixpoint read_back (pm : gmap nat Piece) (n : nat) : list Byte.byte :=
  match n with
  | 0 => []
  | S m => read_back pm m ++ from_option data [] (pm !! m)
  end.

(** ** Task Registry (section 4.2) *)

Definition new_task (k : string) (src : SourceDescriptor) (pieceLen now : nat) : Task :=
  {| key := k; state := Fetching; totalLength := None; pieceLength := pieceLen;
     finalDigest := None; created := now; lastAccessed := now; source := src |}.

(** Modelled from the spec: [CreateOrGet] (sections 4.2 and 4.6), the
    insert-if-absent of the registry: an entry in [Fetching] or [Success]
    is returned with [created = false]; an unseen key gets a fresh entry,
    and a failed entry is replaced by a fresh one, both with
    [created = true]. *)
Definition CreateOrGet (k : string) (src : SourceDescriptor) (pieceLen now : nat)
    (reg : gmap string Task) : gmap string Task * (Task * bool) :=
  match reg !! k with
  | Some t =>
      match state t with
      | Fail => let t' := new_task k src pieceLen now in (<[k := t']> reg, (t', true))
      | _ => (reg, (t, false))
      end
  | None => let t' := new_task k src pieceLen now in (<[k := t']> reg, (t', true))
  end.

Definition with_state (st : State) (t : Task) : Task :=
  {| key := key t; state := st; totalLength := totalLength t;
     pieceLength := pieceLength t; finalDigest := finalDigest t;
     created := created t; lastAccessed := lastAccessed t; source := source t |}.

(** The state machine of section 4.6. *)
Definition valid_transition (from to : State) : bool :=
  match from, to with
  | Fetching, Success | Fetching, Fail => true
  | _, _ => false
  end.

(** Modelled from the spec: [Transition] (section 4.2), check the expected
    current state, then set. *)
Definition Transition (k : string) (from to : State) (reg : gmap string Task)
    : gmap string Task * option Error :=
  match reg !! k with
  | None => (reg, Some UnknownTask)
  | Some t =>
      if decide (state t = from) then
        if valid_transition from to then (<[k := with_state to t]> reg, None)
        else (reg, Some InvalidTransition)
      else (reg, Some InvalidTransition)
  end.

(** Modelled from the spec: [Touch] (section 4.2). *)
Definition Touch (k : string) (now : nat) (reg : gmap string Task) : gmap string Task :=
  alter (fun t =>
    {| key := key t; state := state t; totalLength := totalLength t;
       pieceLength := pieceLength t; finalDigest := finalDigest t;
       created := created t; lastAccessed := now; source := source t |}) k reg.

(** Modelled from the spec: [List] (section 4.2). *)
Definition List (p : string * Task → bool) (reg : gmap string Task) : list (string * Task) :=
  filter (fun kt => p kt = true) (map_to_list reg).

(** ** Progress Notifier (section 4.3): pure coordination *)

(** Modelled from the spec: a progress channel ([supervisor/progress] is
    not among the sources) keeps the watermark (how
    many pieces, from 0 on, are known published), the number of attached
    readers, and whether it was closed. *)
Record Channel := { watermark : nat; subscribers : nat; closed : bool }.

(** Modelled from the spec: [Publish], [Subscribe] and [Close]
    (section 4.3), on the channel of the task, made on first use. *)
Definition Publish (k : string) (n : nat) (nt : gmap string Channel) : gmap string Channel :=
  let c := default {| watermark := 0; subscribers := 0; closed := false |} (nt !! k) in
  <[k := {| watermark := watermark c `max` S n; subscribers := subscribers c;
            closed := closed c |}]> nt.

Definition Subscribe (k : string) (nt : gmap string Channel) : gmap string Channel :=
  let c := default {| watermark := 0; subscribers := 0; closed := false |} (nt !! k) in
  <[k := {| watermark := watermark c; subscribers := S (subscribers c);
            closed := closed c |}]> nt.

Definition Close (k : string) (nt : gmap string Channel) : gmap string Channel :=
  let c := default {| watermark := 0; subscribers := 0; closed := false |} (nt !! k) in
  <[k := {| watermark := watermark c; subscribers := subscribers c; closed := true |}]> nt.

(** ** The components together *)

Record System := {
  store : PieceStore;
  registry : gmap string Task;
  notifier : gmap string Channel
}.

Definition initial (capacity : Z) : System :=
  {| store := {| pieces := ∅; free := capacity; total := capacity |};
     registry := ∅; notifier := ∅ |}.

(** ** Eviction Controller (section 4.4) *)

Definition has_subscribers (nt : gmap string Channel) (k : string) : bool :=
  match nt !! k with
  | Some c => negb (Nat.eqb (subscribers c) 0)
  | None => false
  end.

(** Modelled from the spec: an eviction candidate is a task in terminal
    [Success] with no attached reader. *)
Definition candidate (sys : System) (kt : string * Task) : bool :=
  bool_decide (state kt.2 = Success) && negb (has_subscribers (notifier sys) kt.1).

(** Modelled from the spec: least recently accessed first, ties by
    creation time. *)
Definition lru_le (a b : string * Task) : Prop :=
  lastAccessed a.2 < lastAccessed b.2
  ∨ (lastAccessed a.2 = lastAccessed b.2 ∧ created a.2 ≤ created b.2).

#[global] Instance lru_le_dec : RelDecision lru_le.
Proof. intros a b. unfold lru_le. apply _. Defined.

Definition candidates (sys : System) : list (string * Task) :=
  merge_sort lru_le (List (candidate sys) (registry sys)).

(** Modelled from the spec: deleting one victim "via the Piece Store + Task
    Registry" (section 4.4); its progress channel is discarded with it. *)
Definition delete_victim (k : string) (sys : System) : System :=
  {| store := (DeleteTask k (store sys)).1;
     registry := delete k (registry sys);
     notifier := delete k (notifier sys) |}.

(** Modelled from the spec: the eviction loop (section 4.4), one victim at
    a time, free capacity looked at again before each; the keys deleted
    are returned in the order of deletion. *)
Fixpoint evict (required : Z) (victims : list string) (sys : System)
    : System * list string :=
  if (required <=? FreeCapacity (store sys))%Z then (sys, [])
  else
    match victims with
    | [] => (sys, [])
    | v :: vs =>
        let '(sys', gone) := evict required vs (delete_victim v sys) in
        (sys', v :: gone)
    end.

(** The victims of a call, in the order of deletion. *)
Definition victims_of (required : Z) (sys : System) : list string :=
  (evict required (fst <$> candidates sys) sys).2.

(** Modelled from the spec: [EnsureCapacity] (section 4.4), returning the
    bytes freed and the error. *)
Definition EnsureCapacity (required : Z) (sys : System) : System * (Z * option Error) :=
  let sys' := (evict required (fst <$> candidates sys) sys).1 in
  let freed := (FreeCapacity (store sys') - FreeCapacity (store sys))%Z in
  (sys', (freed,
          if (required <=? FreeCapacity (store sys'))%Z then None
          else Some InsufficientSpace)).

(** ** Source Fetcher (section 4.5) *)

(** Modelled from the spec: the split of the stream (section 4.5) into
    pieces of the configured length, the last possibly shorter. *)
Fixpoint split_fuel (fuel pieceLen : nat) (bs : list Byte.byte) : list (list Byte.byte) :=
  match fuel, bs with
  | S fuel', _ :: _ => take pieceLen bs :: split_fuel fuel' pieceLen (drop pieceLen bs)
  | _, _ => []
  end.

Definition split_pieces (pieceLen : nat) (bs : list Byte.byte) : list (list Byte.byte) :=
  split_fuel (length bs) pieceLen bs.

(** Modelled from the spec: the source as the fetcher meets it through
    [OpenRange] (section 6): the content, whether ranges are
    supported, and, for the successive attempts, after how many delivered
    bytes the stream breaks (an attempt without an entry, or whose entry is
    not below what is left to deliver, runs to the end). *)
Record Upstream := {
  content : list Byte.byte;
  supportsRange : bool;
  faults : list nat
}.

(** Modelled from the spec: one piece, "compute checksum, call
    EnsureCapacity, call Piece Store Put, call Progress Notifier Publish,
    in that order". *)
Definition write_piece (k : string) (pieceLen n : nat) (bs : list Byte.byte)
    (sys : System) : System * option Error :=
  let sum := digest bs in
  let '(sys1, (_, e1)) := EnsureCapacity (Z.of_nat (length bs)) sys in
  match e1 with
  | Some err => (sys1, Some err)
  | None =>
      let '(st, e2) :=
        Put {| taskKey := k; seq := n; offset := n * pieceLen;
               len := length bs; checksum := sum |} bs (store sys1) in
      match e2 with
      | Some err => (sys1, Some err)
      | None =>
          ({| store := st; registry := registry sys1;
              notifier := Publish k n (notifier sys1) |}, None)
      end
  end.

(** Modelled from the spec: the pieces of one attempt in order, from
    sequence number [n] on, stopping at the first error; the sequence
    number after the last piece written comes back. *)
Fixpoint write_pieces (k : string) (pieceLen n : nat) (chunks : list (list Byte.byte))
    (sys : System) : System * (nat * option Error) :=
  match chunks with
  | [] => (sys, (n, None))
  | c :: cs =>
      match write_piece k pieceLen n c sys with
      | (sys', Some err) => (sys', (n, Some err))
      | (sys', None) => write_pieces k pieceLen (S n) cs sys'
      end
  end.

(** Modelled from the spec: on a fatal error the task goes Fetching ->
    Fail and the notifier is closed (section 4.5). *)
Definition fail_task (k : string) (sys : System) : System :=
  {| store := store sys;
     registry := (Transition k Fetching Fail (registry sys)).1;
     notifier := Close k (notifier sys) |}.

Definition record_result (d : Digest) (l : nat) (t : Task) : Task :=
  {| key := key t; state := state t; totalLength := Some l;
     pieceLength := pieceLength t; finalDigest := Some d;
     created := created t; lastAccessed := lastAccessed t; source := source t |}.

(** Modelled from the spec: the full source was consumed, in [n] pieces:
    compute and validate the final digest, record the total length,
    Fetching -> Success; a digest mismatch fails the task (section 4.5). *)
Definition finish (k : string) (n : nat) (sys : System) : System * option Error :=
  let consumed := read_back (default ∅ (pieces (store sys) !! k)) n in
  let d := digest consumed in
  match registry sys !! k with
  | None => (sys, Some UnknownTask)
  | Some t =>
      match expectedDigest (source t) with
      | Some want =>
          if decide (want = d) then
            match Transition k Fetching Success (registry sys) with
            | (reg, None) =>
                ({| store := store sys;
                    registry := alter (record_result d (length consumed)) k reg;
                    notifier := notifier sys |}, None)
            | (_, Some err) => (sys, Some err)
            end
          else (fail_task k sys, Some ChecksumMismatch)
      | None =>
          match Transition k Fetching Success (registry sys) with
          | (reg, None) =>
              ({| store := store sys;
                  registry := alter (record_result d (length consumed)) k reg;
                  notifier := notifier sys |}, None)
          | (_, Some err) => (sys, Some err)
          end
      end
  end.

(** What one attempt delivers of what is left, and whether it ran to the
    end of the source. *)
Definition deliver (fs : list nat) (rest : list Byte.byte) : list Byte.byte * bool :=
  match fs with
  | f :: _ => if (f <? length rest)%nat then (take f rest, false) else (rest, true)
  | [] => (rest, true)
  end.

(** The pieces an attempt writes: on a broken stream only the full ones. *)
Definition attempt_pieces (pieceLen : nat) (delivered : list Byte.byte) (clean : bool)
    : list (list Byte.byte) :=
  let chunks := split_pieces pieceLen delivered in
  if clean then chunks else filter (fun c => length c = pieceLen) chunks.

(** Modelled from the spec: the bounded attempt loop (sections 4.5 and 9):
    each attempt resumes at the boundary of the last persisted piece,
    [n * pieceLen]; a broken stream is retried while attempts are left and
    the source supports ranges; persisted pieces are not written again. *)
Fixpoint attempts (retries : nat) (fs : list nat) (up : Upstream) (k : string)
    (pieceLen n : nat) (sys : System) : System * option Error :=
  let '(delivered, clean) := deliver fs (drop (n * pieceLen) (content up)) in
  match write_pieces k pieceLen n (attempt_pieces pieceLen delivered clean) sys with
  | (sys', (_, Some err)) => (fail_task k sys', Some err)
  | (sys', (n', None)) =>
      if clean then finish k n' sys'
      else
        match retries with
        | S r =>
            if supportsRange up then attempts r (tail fs) up k pieceLen n' sys'
            else (fail_task k sys', Some FetchFailed)
        | 0 => (fail_task k sys', Some FetchFailed)
        end
  end.

(** Modelled from the spec: [Fetch] (section 4.5), for a task in
    [Fetching]; it starts at the boundary the store has persisted. *)
Definition Fetch (up : Upstream) (maxRetries : nat) (k : string) (sys : System)
    : System * option Error :=
  match registry sys !! k with
  | None => (sys, Some UnknownTask)
  | Some t =>
      if decide (state t = Fetching) then
        attempts maxRetries (faults up) up k (pieceLength t) (Stat k (store sys)).2 sys
      else (sys, Some InvalidTransition)
  end.

(** ** The operations of the system *)

(** Modelled from the spec: the steps by which the components change the
    shared state (sections 4 and 5): a request reaching the registry, a
    running fetch writing its next piece (at the boundary the store has
    persisted) or a whole fetch run at once, a fetch coming to its terminal
    transition, the eviction controller called for [required] bytes (on
    demand or as the background sweep), an explicit invalidation, a reader
    attaching, an access being recorded.  Each step is atomic. *)
Inductive Op :=
  | OpRequest (k : string) (src : SourceDescriptor) (pieceLen now : nat)
  | OpWritePiece (k : string) (bs : list Byte.byte)
  | OpFetch (up : Upstream) (maxRetries : nat) (k : string)
  | OpFetchEnds (k : string) (ok : bool)
  | OpEnsureCapacity (required : Z)
  | OpInvalidate (k : string)
  | OpSubscribe (k : string)
  | OpTouch (k : string) (now : nat).

Definition fetching (k : string) (sys : System) : option Task :=
  match registry sys !! k with
  | Some t => if decide (state t = Fetching) then Some t else None
  | None => None
  end.

Definition exec (o : Op) (sys : System) : System :=
  match o with
  | OpRequest k src pieceLen now =>
      {| store := store sys;
         registry := (CreateOrGet k src pieceLen now (registry sys)).1;
         notifier := notifier sys |}
  | OpWritePiece k bs =>
      match fetching k sys with
      | Some t => (write_piece k (pieceLength t) (Stat k (store sys)).2 bs sys).1
      | None => sys
      end
  | OpFetch up maxRetries k => (Fetch up maxRetries k sys).1
  | OpFetchEnds k ok =>
      if ok then
        {| store := store sys;
           registry := (Transition k Fetching Success (registry sys)).1;
           notifier := notifier sys |}
      else fail_task k sys
  | OpEnsureCapacity required => (EnsureCapacity required sys).1
  | OpInvalidate k => delete_victim k sys
  | OpSubscribe k =>
      {| store := store sys; registry := registry sys;
         notifier := Subscribe k (notifier sys) |}
  | OpTouch k now =>
      {| store := store sys; registry := Touch k now (registry sys);
         notifier := notifier sys |}
  end.

Definition run (ops : list Op) (sys : System) : System := foldl (fun s o => exec o s) sys ops.

(** ** Cache Orchestrator (section 4.6): the first touch of a task *)

(** Modelled from the spec: the start of [RequestPiece] (section 4.6; the
    orchestrator, [supervisor], is not among the sources).  A caller has
    arrived, has been through [CreateOrGet] and holds its [created] flag,
    or has gone on to wait for its piece (after starting the fetch, if it
    was the creator). *)
Inductive Caller := Arrived | Observed (created_ : bool) | Waiting.

#[global] Instance Caller_eq_dec : EqDecision Caller.
Proof. solve_decision. Defined.

(** The registry, the callers, how many callers saw [created = true] and
    how many fetch activities were started. *)
Record World := {
  tasks : gmap string Task;
  callers : list Caller;
  creations : nat;
  fetches : nat
}.

(** Modelled from the spec: the atomic steps of concurrent first-touch
    callers: caller [i] goes through [CreateOrGet]; caller [i] goes on
    (starting the fetch if it is the creator); the fetch activity comes to
    its terminal transition, [Success] or [Fail]. *)
Inductive Move :=
  | Lookup (i : nat) (now : nat)
  | Proceed (i : nat)
  | FetchEnds (ok : bool).

#[global] Instance Move_eq_dec : EqDecision Move.
Proof. solve_decision. Defined.

Definition move (k : string) (src : SourceDescriptor) (pieceLen : nat)
    (m : Move) (w : World) : option World :=
  match m with
  | Lookup i now =>
      match callers w !! i with
      | Some Arrived =>
          let '(reg, (_, c)) := CreateOrGet k src pieceLen now (tasks w) in
          Some {| tasks := reg;
                  callers := <[i := Observed c]> (callers w);
                  creations := (if c then S (creations w) else creations w);
                  fetches := fetches w |}
      | _ => None
      end
  | Proceed i =>
      match callers w !! i with
      | Some (Observed c) =>
          Some {| tasks := tasks w;
                  callers := <[i := Waiting]> (callers w);
                  creations := creations w;
                  fetches := (if c then S (fetches w) else fetches w) |}
      | _ => None
      end
  | FetchEnds ok =>
      match Transition k Fetching (if ok then Success else Fail) (tasks w) with
      | (reg, None) =>
          Some {| tasks := reg; callers := callers w;
                  creations := creations w; fetches := fetches w |}
      | (_, Some _) => None
      end
  end.

Fixpoint play (k : string) (src : SourceDescriptor) (pieceLen : nat)
    (ms : list Move) (w : World) : option World :=
  match ms with
  | [] => Some w
  | m :: ms' =>
      match move k src pieceLen m w with
      | Some w' => play k src pieceLen ms' w'
      | None => None
      end
  end.

(** [n] callers arrive for a key the registry [reg] has not seen. *)
Definition first_touch (reg : gmap string Task) (n : nat) : World :=
  {| tasks := reg; callers := replicate n Arrived; creations := 0; fetches := 0 |}.

Definition all_waiting (w : World) : Prop := Forall (fun c => c = Waiting) (callers w).

End Core.
End Core.

(* ====================================================================== *)
(** * Properties of [cdn/cdn.go] *)
(* ====================================================================== *)

Module CdnFacts.
Import Cdn.

(** The server a successful [New] returns. *)
Definition built (cfg : Config) : Server :=
  {| config := cfg;
     grpcServer := Some grpcServer_;
     metricsServer := if nonempty (Metrics_Addr cfg) then Some metricsServer_ else None;
     configServer := if nonempty (Manager_Addr (Manager cfg)) then Some configServer_ else None;
     gcServer := Some gcServer_;
     fileServer := Some fileServer_ |}.

(** A checker for [deps_before]: walk the log with the components seen. *)
Fixpoint deps_seen (seen : list Component) (log : list Built) : bool :=
  match log with
  | [] => true
  | b :: l => forallb (fun a => bool_decide (a ∈ seen)) (args b) && deps_seen (what b :: seen) l
  end.

Lemma deps_seen_sound seen log :
  deps_seen seen log = true →
  ∀ i b a, log !! i = Some b → a ∈ args b →
    a ∈ seen ∨ ∃ j b', j < i ∧ log !! j = Some b' ∧ what b' = a.
Proof.
  revert seen. induction log as [|b0 l IH]; intros seen Hc i b a Hi Ha; [done|].
  simpl in Hc. apply andb_true_iff in Hc as [Hargs Hrest].
  destruct i as [|i]; simpl in Hi.
  - injection Hi as ->. left.
    rewrite forallb_forall in Hargs.
    apply list_elem_of_In, Hargs, bool_decide_eq_true in Ha. exact Ha.
  - destruct (IH _ Hrest i b a Hi Ha) as [Hseen | (j & b' & Hj & Hl & Hw)].
    + apply elem_of_cons in Hseen as [-> | Hseen]; [|by left].
      right. exists 0, b0. split; [lia|done].
    + right. exists (S j), b'. split; [lia|done].
Qed.

Lemma deps_seen_deps_before log : deps_seen [] log = true → deps_before log.
Proof.
  intros Hc i b a Hi Ha.
  destruct (deps_seen_sound _ _ Hc i b a Hi Ha) as [Hin | Hex]; [|done].
  by apply elem_of_nil in Hin.
Qed.

(** Unfold [New] down to the constructor calls. *)
Ltac unfold_New :=
  unfold run_New, New, construct, construct_with, construct_total, mbind, mret,
    Ctor_bind, Ctor_ret;
  simpl.

Lemma New_success fails cfg s :
  (run_New fails cfg).2 = inr s → s = built cfg.
Proof.
  unfold built. unfold_New.
  destruct (fails taskManager); simpl; [done|].
  destruct (fails progressManager); simpl; [done|].
  destruct (fails storageManager); simpl; [done|].
  destruct (fails cdnManager); simpl; [done|].
  destruct (fails service); simpl; [done|].
  destruct (fails grpcServer_); simpl; [done|].
  destruct (fails gcServer_); simpl; [done|].
  destruct (nonempty (Metrics_Addr cfg)); simpl;
    [destruct (fails metricsServer_); simpl; [done|] |];
    (destruct (nonempty (Manager_Addr (Manager cfg))); simpl;
      [destruct (fails configServer_); simpl; [done|] |]);
    intros [= <-]; reflexivity.
Qed.

Lemma New_log fails cfg :
  let log := (run_New fails cfg).1 in
  deps_seen [] log = true
  ∧ what <$> log `prefix_of` build_order cfg
  ∧ (∀ s, (run_New fails cfg).2 = inr s → what <$> log = build_order cfg).
Proof.
  unfold build_order. unfold_New.
  destruct (fails taskManager); simpl;
    [split; [done|split; [by eexists|done]]|].
  destruct (fails progressManager); simpl;
    [split; [done|split; [by eexists|done]]|].
  destruct (fails storageManager); simpl;
    [split; [done|split; [by eexists|done]]|].
  destruct (fails cdnManager); simpl;
    [split; [done|split; [by eexists|done]]|].
  destruct (fails service); simpl;
    [split; [done|split; [by eexists|done]]|].
  destruct (fails grpcServer_); simpl;
    [split; [done|split; [by eexists|done]]|].
  destruct (fails gcServer_); simpl;
    [split; [done|split; [by eexists|done]]|].
  destruct (nonempty (Metrics_Addr cfg)); simpl;
    [destruct (fails metricsServer_); simpl;
       [split; [done|split; [by eexists|done]]|] |];
    (destruct (nonempty (Manager_Addr (Manager cfg))); simpl;
       [destruct (fails configServer_); simpl;
          [split; [done|split; [by eexists|done]]|] |]);
    (split; [done|split; [by exists []|done]]).
Qed.

(** A configuration with a manager address and a metrics address, and one
    without a metrics address. *)
Definition example_config : Config :=
  {| RPCServer_ := {| AdvertiseIP := "10.0.0.7"; ListenPort := 8003; DownloadPort := 8001 |};
     Host := {| IDC := "idc-a"; NetTopology := "net-a"; Location := "loc-a" |};
     Manager := {| Manager_Addr := "manager:65003"; SeedPeerClusterID := 1;
                   KeepAlive_Interval := 5 |};
     Metrics_Addr := ":8000";
     Telemetry_Jaeger := "" |}.

Definition example_config_no_metrics : Config :=
  {| RPCServer_ := RPCServer_ example_config;
     Host := Host example_config;
     Manager := Manager example_config;
     Metrics_Addr := "";
     Telemetry_Jaeger := "" |}.

Definition no_failure : Failing := fun _ => false.

(** An environment of [Serve] in which every collaborator does its work. *)
Definition quiet_env : ServeEnv :=
  {| FQDNHostname := "seed-1.example";
     gc_result := None;
     metrics_result := None;
     manager_result := fun _ => inr "seed-1.example-1";
     file_result := None;
     grpc_result := None |}.

(** C7, as the code has it: [New] builds the task manager, the progress
    manager, the storage manager, the CDN manager and the CDN service in
    this order, then the gRPC server, the file server, the GC server and
    (when their addresses are set) the metrics server and the manager
    client; a failing constructor stops it after a prefix of this order;
    and every component is built strictly before any component that takes
    it as an argument. *)
Theorem New_builds_dependencies_first (fails : Failing) (cfg : Config) :
  let log := (run_New fails cfg).1 in
  deps_before log
  ∧ what <$> log `prefix_of` build_order cfg
  ∧ (∀ s, (run_New fails cfg).2 = inr s → what <$> log = build_order cfg).
Proof.
  destruct (New_log fails cfg) as (Hd & Hp & Hs).
  split; [by apply deps_seen_deps_before|]. split; assumption.
Qed.

(** C7 as stated fails: in a successful [New] the task registry and the
    progress notifier are built before the piece store (which takes the
    task manager as an argument), so the sequence of core components is
    not in the document's order. *)
Lemma New_not_in_document_order :
  (run_New no_failure example_config).2 = inr (built example_config)
  ∧ core_sequence (run_New no_failure example_config).1
    = [TaskRegistry; ProgressNotifier; PieceStore; SourceFetcher;
       CacheOrchestrator; EvictionController]
  ∧ ¬ in_document_order (run_New no_failure example_config).1.
Proof.
  split; [reflexivity|]. split; [reflexivity|].
  unfold in_document_order.
  replace (core_sequence (run_New no_failure example_config).1)
    with [TaskRegistry; ProgressNotifier; PieceStore; SourceFetcher;
          CacheOrchestrator; EvictionController] by reflexivity.
  intros Hs.
  apply Sorted_inv in Hs as [Hs _].
  apply Sorted_inv in Hs as [_ Hh].
  apply HdRel_inv in Hh. simpl in Hh. lia.
Qed.

(** *** [Stop] *)

Lemma built_metrics_nil cfg : Metrics_Addr cfg = "" → metricsServer (built cfg) = None.
Proof. intros Heq. unfold built. simpl. by rewrite Heq. Qed.

(** C8: when [config.Metrics.Addr] is empty, the server [New] returns has a
    nil [metricsServer]; [Stop] still hands [metricsServer.Shutdown] on
    that nil receiver to the error group, with no nil test (the manager
    client's [Close] is spawned only for a non-nil client), so [Stop]
    ends in a nil dereference at [metrics_Shutdown]. *)
Theorem Stop_shuts_down_nil_metricsServer
    (fails : Failing) (cfg : Config) (s : Server) (env : StopCall → option error) :
  Metrics_Addr cfg = "" →
  (run_New fails cfg).2 = inr s →
  metricsServer s = None
  ∧ {| call := metrics_Shutdown; receiver := None |} ∈ Stop_spawns s
  ∧ (configServer s = None → ∀ f, f ∈ Stop_spawns s → call f ≠ config_Close)
  ∧ Stop s env = StopPanic [metrics_Shutdown].
Proof.
  intros Hm Hs. apply New_success in Hs as ->.
  pose proof (built_metrics_nil cfg Hm) as Hnil.
  split; [done|].
  unfold Stop, Stop_spawns. rewrite Hnil.
  unfold built in *; simpl in *.
  destruct (nonempty (Manager_Addr (Manager cfg))); simpl.
  - split; [set_solver|]. split; [done|]. reflexivity.
  - split; [set_solver|]. split; [|reflexivity].
    intros _ f Hf Hc.
    repeat (apply elem_of_cons in Hf as [-> | Hf]; [done|]).
    by apply elem_of_nil in Hf.
Qed.

Lemma Stop_shuts_down_nil_metricsServer_witness :
  Stop (built example_config_no_metrics) (fun _ => None) = StopPanic [metrics_Shutdown].
Proof.
  apply (Stop_shuts_down_nil_metricsServer no_failure example_config_no_metrics
           (built example_config_no_metrics) (fun _ => None));
    reflexivity.
Defined.

(** *** [Serve] *)

Lemma Serve_exit_iff s env :
  still_serving (Serve s env) = false ↔
  ∃ e, e ∈ concat (Serve_routines s env) ∧ ends_process e = true.
Proof.
  unfold Serve.
  destruct (filter _ _) as [|e l] eqn:Hf; simpl.
  - split; [done|]. intros (e & He & Hend).
    assert (e ∈ filter (fun e => ends_process e = true) (concat (Serve_routines s env))) as Hin
      by (apply list_elem_of_filter; done).
    rewrite Hf in Hin. by apply elem_of_nil in Hin.
  - split; [|done]. intros _. exists e.
    assert (e ∈ filter (fun e => ends_process e = true) (concat (Serve_routines s env))) as Hin
      by (rewrite Hf; left).
    apply list_elem_of_filter in Hin as [? ?]. done.
Qed.

Lemma Serve_exit_causes s env e :
  e ∈ concat (Serve_routines s env) → ends_process e = true →
  ∃ causes, Serve s env = ProcessExit causes ∧ e ∈ causes.
Proof.
  intros He Hend. unfold Serve.
  assert (e ∈ filter (fun e => ends_process e = true) (concat (Serve_routines s env))) as Hin
    by (apply list_elem_of_filter; done).
  destruct (filter _ _) as [|e0 l]; [by apply elem_of_nil in Hin|].
  by eexists.
Qed.

Lemma manager_routine_in_Serve s env e :
  e ∈ manager_routine s env → e ∈ concat (Serve_routines s env).
Proof.
  intros He. unfold Serve_routines. simpl.
  rewrite !elem_of_app. right. right. by left.
Qed.

(** C2, as the code has it: with a manager client configured, an error of
    [UpdateSeedPeer] is handed to [logger.Fatalf], which ends the process,
    and with it the gRPC, file and GC serving of this server; only when
    the update succeeds does the goroutine log and go on to [KeepAlive],
    whose outcome [Serve] never looks at; and without a manager address no
    registration is attempted. *)
Theorem registration_failure_is_fatal (s : Server) (env : ServeEnv) :
  (∀ c err,
      configServer s = Some c →
      manager_result env (seed_peer_request s env) = inl err →
      still_serving (Serve s env) = false
      ∧ (is_Some (grpcServer s) →
         ∃ causes, Serve s env = ProcessExit causes
                   ∧ Fatalf ("update cdn instance failed: " +:+ err) ∈ causes))
  ∧ (∀ inst,
      manager_result env (seed_peer_request s env) = inr inst →
      is_Some (grpcServer s) →
      Forall (fun e => ends_process e = false) (manager_routine s env))
  ∧ (configServer s = None → manager_routine s env = []).
Proof.
  split; [|split].
  - intros c err Hc Herr.
    assert (∃ e, e ∈ manager_routine s env ∧ ends_process e = true
                 ∧ (is_Some (grpcServer s) →
                    e = Fatalf ("update cdn instance failed: " +:+ err)))
      as (e & He & Hend & Hwhich).
    { unfold manager_routine, through. rewrite Hc.
      destruct (grpcServer s) as [g|].
      - rewrite Herr. eexists. split; [right; left|]. split; [done|done].
      - exists NilDereference. split; [left|]. split; [done|].
        intros [? ?]. done. }
    split.
    + apply Serve_exit_iff. exists e. split; [|done].
      by apply manager_routine_in_Serve.
    + intros Hg. rewrite <- (Hwhich Hg).
      apply Serve_exit_causes; [|done]. by apply manager_routine_in_Serve.
  - intros inst Hok [g Hg]. unfold manager_routine, through.
    destruct (configServer s); [|constructor].
    rewrite Hg, Hok. repeat constructor.
  - intros Hc. unfold manager_routine. by rewrite Hc.
Qed.

Lemma registration_failure_is_fatal_witness :
  still_serving
    (Serve (built example_config) (answering quiet_env (inl "connection refused")))
  = false.
Proof.
  apply (proj1 (registration_failure_is_fatal (built example_config)
                  (answering quiet_env (inl "connection refused")))
           configServer_ "connection refused"); reflexivity.
Defined.

(** C2 as stated fails: for the server [New] builds with a manager address
    set, and with every other collaborator doing its work, [Serve] goes on
    serving when the update succeeds and ends the process when it fails. *)
Lemma registration_failure_not_contained :
  (run_New no_failure example_config).2 = inr (built example_config)
  ∧ Serve (built example_config) (answering quiet_env (inr "seed-1.example-1"))
    = Return None
  ∧ Serve (built example_config) (answering quiet_env (inl "connection refused"))
    = ProcessExit [Fatalf "update cdn instance failed: connection refused"]
  ∧ ¬ registration_failure_contained (built example_config) quiet_env.
Proof.
  split; [reflexivity|]. split; [reflexivity|]. split; [reflexivity|].
  intros Hc. specialize (Hc "connection refused" "seed-1.example-1").
  discriminate Hc.
Qed.

(** *** More on [New], [Serve] and [Stop] *)

(** The message [New] wraps the error of a constructor in. *)
Definition wrap_message (c : Component) : string :=
  match c with
  | taskManager => "create task manager"
  | progressManager => "create progress manager"
  | storageManager => "create storage manager"
  | cdnManager => "create cdn manager"
  | service => "create cdn service"
  | grpcServer_ => "create rpcServer"
  | fileServer_ => ""
  | gcServer_ => "create gcServer"
  | metricsServer_ => "create metricsServer"
  | configServer_ => "create configServer"
  end.

(** The first component of the build order whose constructor fails
    ([fileserver.New] cannot). *)
Definition first_failure (fails : Failing) (cfg : Config) : option Component :=
  List.find (fun c => fails c && negb (bool_decide (c = fileServer_))) (build_order cfg).

(** X1: [New] returns the wrapped error of the first constructor that
    fails, and the server when none does. *)
Theorem New_fails_at_first_failure (fails : Failing) (cfg : Config) :
  (run_New fails cfg).2
  = match first_failure fails cfg with
    | Some c => inl (wrap_message c)
    | None => inr (built cfg)
    end.
Proof.
  unfold first_failure, build_order, built. unfold_New.
  destruct (nonempty (Metrics_Addr cfg)), (nonempty (Manager_Addr (Manager cfg)));
    simpl;
    repeat match goal with
    | |- context [fails ?c] => destruct (fails c); simpl; try reflexivity
    end.
Qed.

(** X2: the file server goroutine of [Serve] returns quietly when
    [ListenAndServe] answers [http.ErrServerClosed] (or nil), and calls
    [logger.Fatalf] on any other error. *)
Theorem file_server_closed_is_not_fatal (s : Server) (env : ServeEnv) (f : Component) :
  fileServer s = Some f →
  (file_result env = None ∨ file_result env = Some ErrServerClosed →
     file_routine s env = [file_ListenAndServe])
  ∧ (∀ err, file_result env = Some err → err ≠ ErrServerClosed →
       file_routine s env
       = [file_ListenAndServe; Fatalf ("start cdn file server failed: " +:+ err)]).
Proof.
  intros Hf. unfold file_routine, through. rewrite Hf. split.
  - intros [-> | ->]; reflexivity.
  - intros err -> Hne. destruct (String.eqb err ErrServerClosed) eqn:Heq; [|done].
    by apply String.eqb_eq in Heq.
Qed.

Lemma file_server_closed_is_not_fatal_witness :
  file_routine (built example_config)
    {| FQDNHostname := "seed-1.example"; gc_result := None; metrics_result := None;
       manager_result := fun _ => inr "seed-1.example-1";
       file_result := Some ErrServerClosed; grpc_result := None |}
  = [file_ListenAndServe].
Proof.
  apply (proj1 (file_server_closed_is_not_fatal (built example_config) _ fileServer_ eq_refl)).
  by right.
Defined.

(** X3: for a server built with a metrics address and a manager address,
    [Stop] spawns the five shutdown calls in the order GC server, manager
    client, metrics server, gRPC server, file server, none of them on a nil
    receiver, and [g.Wait()] has exactly their errors to return. *)
Theorem Stop_of_full_server (cfg : Config) (env : StopCall → option error) :
  nonempty (Metrics_Addr cfg) = true →
  nonempty (Manager_Addr (Manager cfg)) = true →
  call <$> Stop_spawns (built cfg)
  = [gc_Shutdown; config_Close; metrics_Shutdown; grpc_Shutdown; file_Shutdown]
  ∧ Forall (fun f => is_Some (receiver f)) (Stop_spawns (built cfg))
  ∧ Stop (built cfg) env
    = StopReturn (omap env [gc_Shutdown; config_Close; metrics_Shutdown;
                            grpc_Shutdown; file_Shutdown]).
Proof.
  intros Hm Hc. unfold Stop, Stop_spawns, built. simpl. rewrite Hm, Hc. simpl.
  split; [done|]. split; [|done]. repeat constructor; by eexists.
Qed.

Lemma Stop_of_full_server_witness :
  Stop (built example_config) (fun _ => None) = StopReturn [].
Proof.
  apply (Stop_of_full_server example_config (fun _ => None)); reflexivity.
Defined.

(** *** [Serve] on the server [New] returns *)

(** [Serve] finds every collaborator of the server built for [cfg] in
    working order: the GC server and (when there is one) the metrics
    server serve without error, the manager (when there is a client)
    accepts the registration, and the file server serves or is closed. *)
Definition healthy (cfg : Config) (env : ServeEnv) : Prop :=
  gc_result env = None
  ∧ (nonempty (Metrics_Addr cfg) = true → metrics_result env = None)
  ∧ (nonempty (Manager_Addr (Manager cfg)) = true →
       ∃ inst, manager_result env (seed_peer_request (built cfg) env) = inr inst)
  ∧ (file_result env = None ∨ file_result env = Some ErrServerClosed).

Definition is_Fatalf (e : Effect) : Prop := ∃ msg, e = Fatalf msg.

(** Membership in a list that is written out. *)
Ltac not_listed H :=
  repeat (apply elem_of_cons in H as [H|H]; [discriminate H|]);
  by apply elem_of_nil in H.

(** X5: on a server that [New] returned, no goroutine of [Serve] calls a
    method through a nil pointer; [Serve] hands back the result of the gRPC
    server's [ListenAndServe] when every collaborator is in working order,
    and otherwise the process is ended, by [logger.Fatalf] calls only. *)
Theorem Serve_of_New (fails : Failing) (cfg : Config) (s : Server) (env : ServeEnv) :
  (run_New fails cfg).2 = inr s →
  (NilDereference ∉ concat (Serve_routines s env))
  ∧ (healthy cfg env → Serve s env = Return (grpc_result env))
  ∧ (¬ healthy cfg env →
     ∃ causes, Serve s env = ProcessExit causes ∧ causes ≠ [] ∧ Forall is_Fatalf causes).
Proof.
  intros Hs. apply New_success in Hs as ->.
  unfold healthy, Serve, Serve_routines, gc_routine, metrics_routine, manager_routine,
    file_routine, through, built.
  cbn [config grpcServer metricsServer configServer gcServer fileServer].
  set (req := seed_peer_request _ env).
  destruct (nonempty (Metrics_Addr cfg)), (nonempty (Manager_Addr (Manager cfg))),
    (gc_result env) as [eg|], (metrics_result env) as [em|],
    (manager_result env req) as [ec|inst], (file_result env) as [ef|];
    try destruct (String.eqb ef ErrServerClosed) eqn:Hef;
    try (apply String.eqb_eq in Hef; subst ef);
    try (apply String.eqb_neq in Hef);
    cbn;
    (split; [intros Hin; not_listed Hin|]);
    (split;
      [ first [ reflexivity
              | intros (Hg & Hme & Hma & Hf);
                first [ discriminate Hg
                      | specialize (Hme eq_refl); discriminate Hme
                      | destruct (Hma eq_refl) as [? Hx]; discriminate Hx
                      | destruct Hf as [Hf|Hf]; [discriminate Hf | by injection Hf] ] ]
      | first [ intros _; eexists; split; [reflexivity|]; split; [discriminate|];
                repeat constructor; by eexists
              | intros Hn; exfalso; apply Hn;
                split; [reflexivity|]; split; [done|];
                split; [first [done | intros _; by eexists]|];
                first [by left | by right] ] ]).
Qed.

Lemma Serve_of_New_witness : Serve (built example_config) quiet_env = Return None.
Proof.
  apply (proj1 (proj2 (Serve_of_New no_failure example_config (built example_config)
                         quiet_env eq_refl))).
  split; [reflexivity|]. split; [intros _; reflexivity|].
  split; [intros _; by eexists|]. by left.
Defined.

(** X6: [KeepAlive] is started only after the manager has accepted the
    registration, as the last thing the goroutine does, and it names the
    instance that was registered: the same host name, source type and
    seed peer cluster as the [UpdateSeedPeer] request, at the configured
    interval. *)
Theorem KeepAlive_follows_registration
    (s : Server) (env : ServeEnv) (interval : N) (ka : KeepAliveRequest) :
  KeepAlive interval ka ∈ manager_routine s env →
  let req := seed_peer_request s env in
  ∃ inst msg,
    manager_result env req = inr inst
    ∧ manager_routine s env = [UpdateSeedPeer req; Infof msg; KeepAlive interval ka]
    ∧ ka_HostName ka = req_HostName req
    ∧ ka_SourceType ka = req_SourceType req
    ∧ ka_ClusterId ka = req_SeedPeerClusterId req
    ∧ interval = KeepAlive_Interval (Manager (config s)).
Proof.
  intros Hin req. unfold manager_routine, through in *.
  destruct (configServer s); [|by apply elem_of_nil in Hin].
  destruct (grpcServer s); [|not_listed Hin].
  fold req in Hin |- *.
  destruct (manager_result env req) as [err|inst]; [not_listed Hin|].
  apply elem_of_cons in Hin as [Hin|Hin]; [discriminate Hin|].
  apply elem_of_cons in Hin as [Hin|Hin]; [discriminate Hin|].
  apply elem_of_cons in Hin as [Heq|Hin]; [|by apply elem_of_nil in Hin].
  injection Heq as -> ->. by eexists _, _.
Qed.

Definition example_keepalive : KeepAliveRequest :=
  {| ka_HostName := "seed-1.example"; ka_SourceType := SEED_PEER_SOURCE; ka_ClusterId := 1 |}.

Lemma KeepAlive_follows_registration_witness :
  ∃ inst msg,
    manager_result quiet_env (seed_peer_request (built example_config) quiet_env) = inr inst
    ∧ manager_routine (built example_config) quiet_env
      = [UpdateSeedPeer (seed_peer_request (built example_config) quiet_env);
         Infof msg; KeepAlive 5 example_keepalive].
Proof.
  destruct (KeepAlive_follows_registration (built example_config) quiet_env 5
              example_keepalive) as (inst & msg & Hok & Hroutine & _).
  - apply list_elem_of_further, list_elem_of_further, list_elem_of_here.
  - by exists inst, msg.
Defined.

Lemma int32_range x : (- 2 ^ 31 ≤ int32 x < 2 ^ 31)%Z.
Proof. unfold int32. pose proof (Z.mod_pos_bound (x + 2 ^ 31) (2 ^ 32)). lia. Qed.

Lemma int32_small x : (- 2 ^ 31 ≤ x < 2 ^ 31)%Z → int32 x = x.
Proof. intros Hx. unfold int32. rewrite Z.mod_small; lia. Qed.

Lemma int32_congruent x : (int32 x mod 2 ^ 32 = x mod 2 ^ 32)%Z.
Proof.
  unfold int32.
  rewrite Zminus_mod, Zmod_mod, <- Zminus_mod. f_equal. lia.
Qed.

(** X7: the registration advertises the configured gRPC and download
    ports unchanged whenever they are below 2^31 (every TCP port is); the
    [int32] conversions always give a 32-bit value that agrees with the
    configured one modulo 2^32. *)
Theorem registration_ports (s : Server) (env : ServeEnv) :
  let req := seed_peer_request s env in
  let rpc := RPCServer_ (config s) in
  ((0 ≤ ListenPort rpc < 2 ^ 31)%Z → req_Port req = ListenPort rpc)
  ∧ ((0 ≤ DownloadPort rpc < 2 ^ 31)%Z → req_DownloadPort req = DownloadPort rpc)
  ∧ (- 2 ^ 31 ≤ req_Port req < 2 ^ 31)%Z
  ∧ (- 2 ^ 31 ≤ req_DownloadPort req < 2 ^ 31)%Z
  ∧ (req_Port req mod 2 ^ 32 = ListenPort rpc mod 2 ^ 32)%Z
  ∧ (req_DownloadPort req mod 2 ^ 32 = DownloadPort rpc mod 2 ^ 32)%Z.
Proof.
  intros req rpc. subst req. cbn [seed_peer_request req_Port req_DownloadPort]. fold rpc.
  split; [intros ?; apply int32_small; lia|].
  split; [intros ?; apply int32_small; lia|].
  split; [apply int32_range|]. split; [apply int32_range|].
  split; apply int32_congruent.
Qed.

Lemma registration_ports_witness :
  req_Port (seed_peer_request (built example_config) quiet_env) = 8003%Z
  ∧ req_DownloadPort (seed_peer_request (built example_config) quiet_env) = 8001%Z.
Proof.
  destruct (registration_ports (built example_config) quiet_env) as (Hp & Hd & _).
  split; [apply Hp | apply Hd]; simpl; lia.
Defined.

(** The server options [New] builds for a Jaeger endpoint. *)
Definition interceptors : list string := ["ChainUnaryInterceptor"; "ChainStreamInterceptor"].

(** Every entry of a log that is written out. *)
Ltac each_entry :=
  let b := fresh "b" in
  let Hb := fresh "Hb" in
  intros b Hb;
  repeat (apply elem_of_cons in Hb as [->|Hb]; [by destruct (nonempty _)|]);
  by apply elem_of_nil in Hb.

(** X8: whichever constructors fail, [New] calls no constructor twice, and
    it passes server options to the gRPC server alone: the two
    OpenTelemetry interceptors when a Jaeger endpoint is configured, and
    none otherwise. *)
Theorem New_builds_once (fails : Failing) (cfg : Config) :
  let log := (run_New fails cfg).1 in
  NoDup (what <$> log)
  ∧ ∀ b, b ∈ log →
      options b = if bool_decide (what b = grpcServer_) && nonempty (Telemetry_Jaeger cfg)
                  then interceptors else [].
Proof.
  unfold_New.
  destruct (fails taskManager); simpl;
    [split; [by apply (bool_decide_unpack _)|each_entry]|].
  destruct (fails progressManager); simpl;
    [split; [by apply (bool_decide_unpack _)|each_entry]|].
  destruct (fails storageManager); simpl;
    [split; [by apply (bool_decide_unpack _)|each_entry]|].
  destruct (fails cdnManager); simpl;
    [split; [by apply (bool_decide_unpack _)|each_entry]|].
  destruct (fails service); simpl;
    [split; [by apply (bool_decide_unpack _)|each_entry]|].
  destruct (fails grpcServer_); simpl;
    [split; [by apply (bool_decide_unpack _)|each_entry]|].
  destruct (fails gcServer_); simpl;
    [split; [by apply (bool_decide_unpack _)|each_entry]|].
  destruct (nonempty (Metrics_Addr cfg)); simpl;
    [destruct (fails metricsServer_); simpl|];
    try (destruct (nonempty (Manager_Addr (Manager cfg))); simpl;
         [destruct (fails configServer_); simpl|]);
    (split; [by apply (bool_decide_unpack _)|each_entry]).
Qed.

End CdnFacts.

(* ====================================================================== *)
(** * Properties of the database bootstrap and of [DestroyScheduler] *)
(* ====================================================================== *)

Module DatabaseFacts.
Import Gorm Database Service.

(** A table has a live row: one that scoped statements see. *)
Definition has_live_row {A} (t : Table A) : Prop :=
  ∃ id r, t !! id = Some r ∧ is_del r = false.

Lemma Count_pos {A} (t : Table A) : has_live_row t → (Count t <=? 0)%Z = false.
Proof.
  intros (id & r & Hl & Hd). apply Z.leb_gt. unfold Count.
  assert (scoped t !! id = Some r) as Hs
    by (unfold scoped; apply map_lookup_filter_Some; done).
  assert (size (scoped t) ≠ 0); [|lia].
  intros Hz. apply map_size_empty_iff in Hz. rewrite Hz in Hs.
  by rewrite lookup_empty in Hs.
Qed.

Lemma Create_live {A} id (a : A) t t' :
  Create id a t = (t', None) → has_live_row t'.
Proof.
  unfold Create. destruct (t !! id); [done|]. intros [= <-].
  exists id, {| is_del := false; columns := a |}. by rewrite lookup_insert_eq.
Qed.

Lemma Create_refused {A} id (a : A) t t' e :
  Create id a t = (t', Some e) → t' = t.
Proof. unfold Create. destruct (t !! id); [|done]. by intros [= <-]. Qed.

Lemma DB_eta db :
  {| scheduler_cluster := scheduler_cluster db;
     seed_peer_cluster := seed_peer_cluster db;
     seed_peer_cluster_scheduler_cluster := seed_peer_cluster_scheduler_cluster db;
     scheduler := scheduler db |} = db.
Proof. by destruct db. Qed.

(** With a live row in each cluster table [seed] changes nothing. *)
Lemma seed_settled db :
  has_live_row (scheduler_cluster db) → has_live_row (seed_peer_cluster db) →
  seed db = (db, inr ()).
Proof.
  intros Hsc Hspc. unfold seed, mbind, Stmt_bind, query, mret, Stmt_ret.
  by rewrite (Count_pos _ Hsc), (Count_pos _ Hspc).
Qed.

(** Reduce the projections of a database that was just written. *)
Ltac read_db :=
  cbn [scheduler_cluster seed_peer_cluster seed_peer_cluster_scheduler_cluster
       scheduler fst snd].

(** Whatever [seed] did, doing it again changes nothing. *)
Lemma seed_twice db : (seed (seed db).1).1 = (seed db).1.
Proof.
  unfold seed at 2 3.
  unfold mbind, Stmt_bind, query, mret, Stmt_ret, on_scheduler_cluster,
    on_seed_peer_cluster, Association_Append.
  destruct (Count (scheduler_cluster db) <=? 0)%Z eqn:Hsc.
  - destruct (Create 1%N default_scheduler_cluster (scheduler_cluster db))
      as [t1 [e1|]] eqn:Hc1; simpl.
    + (* the insert was refused: nothing has changed, and it is refused again *)
      apply Create_refused in Hc1 as Ht. subst t1. rewrite DB_eta.
      unfold seed, mbind, Stmt_bind, query, mret, Stmt_ret, on_scheduler_cluster.
      rewrite Hsc, Hc1. simpl. by rewrite DB_eta.
    + apply Create_live in Hc1 as Hlive1.
      destruct (Count (seed_peer_cluster db) <=? 0)%Z eqn:Hspc; simpl.
      * destruct (Create 1%N default_seed_peer_cluster (seed_peer_cluster db))
          as [t2 [e2|]] eqn:Hc2; simpl.
        -- apply Create_refused in Hc2 as Ht. subst t2.
           unfold seed, mbind, Stmt_bind, query, mret, Stmt_ret, on_seed_peer_cluster.
           read_db. rewrite (Count_pos _ Hlive1). read_db. rewrite Hspc. read_db.
           rewrite Hc2. done.
        -- apply Create_live in Hc2 as Hlive2.
           destruct (First t2) as [e3|spc]; simpl;
             [by rewrite seed_settled|].
           destruct (First t1) as [e4|sc]; simpl;
             by rewrite seed_settled.
      * rewrite seed_settled; [done|done|].
        simpl. apply Z.leb_gt in Hspc. unfold Count in Hspc.
        destruct (map_choose (scoped (seed_peer_cluster db))) as (id & r & Hr).
        { intros Hz. rewrite Hz, map_size_empty in Hspc. lia. }
        apply map_lookup_filter_Some in Hr as [? ?]. by exists id, r.
  - simpl.
    assert (has_live_row (scheduler_cluster db)) as Hlive1.
    { apply Z.leb_gt in Hsc. unfold Count in Hsc.
      destruct (map_choose (scoped (scheduler_cluster db))) as (id & r & Hr).
      { intros Hz. rewrite Hz, map_size_empty in Hsc. lia. }
      apply map_lookup_filter_Some in Hr as [? ?]. by exists id, r. }
    destruct (Count (seed_peer_cluster db) <=? 0)%Z eqn:Hspc; simpl.
    + destruct (Create 1%N default_seed_peer_cluster (seed_peer_cluster db))
        as [t2 [e2|]] eqn:Hc2; simpl.
      * apply Create_refused in Hc2 as Ht. subst t2. rewrite DB_eta.
        unfold seed, mbind, Stmt_bind, query, mret, Stmt_ret, on_seed_peer_cluster.
        rewrite Hsc. simpl. rewrite Hspc, Hc2. simpl. by rewrite DB_eta.
      * apply Create_live in Hc2 as Hlive2.
        destruct (First t2) as [e3|spc]; simpl;
          [by rewrite seed_settled|].
        destruct (First (scheduler_cluster db)) as [e4|sc]; simpl;
          by rewrite seed_settled.
    + rewrite seed_settled; [done|done|].
      apply Z.leb_gt in Hspc. unfold Count in Hspc.
      destruct (map_choose (scoped (seed_peer_cluster db))) as (id & r & Hr).
      { intros Hz. rewrite Hz, map_size_empty in Hspc. lia. }
      apply map_lookup_filter_Some in Hr as [? ?]. by exists id, r.
Qed.

Definition live {A} (a : A) : Row A := {| is_del := false; columns := a |}.

Lemma First_singleton {A} id (a : A) : First ({[ id := live a ]} : Table A) = inr (id, a).
Proof.
  unfold First, scoped.
  rewrite map_filter_singleton_True by done.
  rewrite map_to_list_singleton. simpl.
  by rewrite lookup_singleton_eq.
Qed.

(** On empty cluster tables [seed] writes the two default rows, both with
    ID 1, and the pair (1, 1) into the join table. *)
Lemma seed_empty db :
  scheduler_cluster db = ∅ → seed_peer_cluster db = ∅ →
  seed db =
    ({| scheduler_cluster := {[ 1%N := live default_scheduler_cluster ]};
        seed_peer_cluster := {[ 1%N := live default_seed_peer_cluster ]};
        seed_peer_cluster_scheduler_cluster :=
          {[ (1%N, 1%N) ]} ∪ seed_peer_cluster_scheduler_cluster db;
        scheduler := scheduler db |}, inr ()).
Proof.
  intros Hsc Hspc.
  unfold seed, mbind, Stmt_bind, query, mret, Stmt_ret, on_scheduler_cluster,
    on_seed_peer_cluster, Association_Append.
  assert (∀ A, Count (∅ : Table A) = 0%Z) as Hzero.
  { intros A. unfold Count, scoped. by rewrite map_filter_empty, map_size_empty. }
  rewrite Hsc, Hzero. unfold Create.
  change (0 <=? 0)%Z with true. cbn beta iota.
  rewrite Hsc, lookup_empty, insert_empty. read_db.
  rewrite Hspc, Hzero. change (0 <=? 0)%Z with true. read_db.
  rewrite lookup_empty, insert_empty. read_db.
  fold (live default_seed_peer_cluster). fold (live default_scheduler_cluster).
  by rewrite !First_singleton.
Qed.

Lemma newMyqsl_seeded cfg env db' :
  newMyqsl cfg env = (Some db', inr ()) →
  ∃ dsn db, formatDSN cfg env = inr dsn ∧ Open_result env dsn = inr db
            ∧ seed db = (db', inr ()).
Proof.
  unfold newMyqsl. destruct (formatDSN cfg env) as [e|dsn]; [done|].
  destruct (Open_result env dsn) as [e|db] eqn:Ho; [done|].
  unfold mbind, Stmt_bind, migrate, mret, Stmt_ret.
  destruct (Migrate cfg).
  - destruct (migrate_result env); [done|].
    destruct (seed db) as [db1 [e|[]]] eqn:Hs; intros [= <-]. by exists dsn, db.
  - destruct (seed db) as [db1 [e|[]]] eqn:Hs; intros [= <-]. by exists dsn, db.
Qed.

Lemma newMyqsl_seeds cfg env dsn db :
  formatDSN cfg env = inr dsn →
  Open_result env dsn = inr db →
  (Migrate cfg = true → migrate_result env = None) →
  newMyqsl cfg env = (Some (seed db).1, (seed db).2).
Proof.
  intros Hd Ho Hm. unfold newMyqsl. rewrite Hd, Ho.
  unfold mbind, Stmt_bind, migrate, mret, Stmt_ret.
  destruct (Migrate cfg).
  - rewrite (Hm eq_refl). by destruct (seed db).
  - by destruct (seed db).
Qed.

(** A database with a live row in each cluster table, for the examples. *)
Definition settled_DB : DB :=
  {| scheduler_cluster := {[ 7%N := live default_scheduler_cluster ]};
     seed_peer_cluster := {[ 3%N := live default_seed_peer_cluster ]};
     seed_peer_cluster_scheduler_cluster := ∅;
     scheduler := ∅ |}.

(** A configuration without migration, and surroundings that reach the
    database [db] (a migration, were it run, would fail). *)
Definition example_mysql : MysqlConfig :=
  {| cfg_User := "dragonfly"; cfg_Password := "dragonfly"; cfg_Host := "mysql";
     cfg_Port := 3306; cfg_DBName := "manager"; TLS := None; Migrate := false |}.

Definition example_env (db : DB) : Env :=
  {| TLS_Client := fun _ => inl "no certificate";
     RegisterTLSConfig := fun _ _ => None;
     FormatDSN := fun _ => "dsn";
     Open_result := fun _ => inr db;
     migrate_result := Some "never run" |}.

(** C9: [newMyqsl] runs [seed] on the connection whether or not [Migrate]
    is set (the migration, when it runs, must not have failed), and every
    connection it returns has been seeded; with a
    live row in the scheduler cluster table and one in the seed peer
    cluster table [seed] writes nothing; on empty cluster tables it
    creates one default scheduler cluster with ID 1, one default seed peer
    cluster with ID 1 and the association of the two; and running [seed] a
    second time leaves the database as the first run left it. *)
Theorem seed_is_idempotent :
  (∀ cfg env dsn db,
      formatDSN cfg env = inr dsn → Open_result env dsn = inr db →
      (Migrate cfg = true → migrate_result env = None) →
      newMyqsl cfg env = (Some (seed db).1, (seed db).2))
  ∧ (∀ cfg env db',
      newMyqsl cfg env = (Some db', inr ()) →
      ∃ dsn db, formatDSN cfg env = inr dsn ∧ Open_result env dsn = inr db
                ∧ seed db = (db', inr ()))
  ∧ (∀ db,
      has_live_row (scheduler_cluster db) → has_live_row (seed_peer_cluster db) →
      seed db = (db, inr ()))
  ∧ (∀ db,
      scheduler_cluster db = ∅ → seed_peer_cluster db = ∅ →
      seed db =
        ({| scheduler_cluster := {[ 1%N := live default_scheduler_cluster ]};
            seed_peer_cluster := {[ 1%N := live default_seed_peer_cluster ]};
            seed_peer_cluster_scheduler_cluster :=
              {[ (1%N, 1%N) ]} ∪ seed_peer_cluster_scheduler_cluster db;
            scheduler := scheduler db |}, inr ()))
  ∧ (∀ db, (seed (seed db).1).1 = (seed db).1).
Proof.
  split; [exact newMyqsl_seeds|]. split; [exact newMyqsl_seeded|].
  split; [exact seed_settled|]. split; [exact seed_empty|]. exact seed_twice.
Qed.

Lemma seed_is_idempotent_witness :
  seed settled_DB = (settled_DB, inr ())
  ∧ (seed empty_DB).2 = inr ()
  ∧ newMyqsl example_mysql (example_env empty_DB) = (Some (seed empty_DB).1, inr ()).
Proof.
  destruct seed_is_idempotent as (Hnew & _ & Hsettled & Hempty & _).
  split; [|split].
  - apply Hsettled.
    + exists 7%N, (live default_scheduler_cluster). split; reflexivity.
    + exists 3%N, (live default_seed_peer_cluster). split; reflexivity.
  - rewrite (Hempty empty_DB); reflexivity.
  - rewrite (Hnew example_mysql (example_env empty_DB) "dsn" empty_DB);
      [|reflexivity|reflexivity|done].
    rewrite (Hempty empty_DB); reflexivity.
Defined.

(** *** [DestroyScheduler] *)

Definition with_scheduler (t : Table Scheduler) (db : DB) : DB :=
  {| scheduler_cluster := scheduler_cluster db;
     seed_peer_cluster := seed_peer_cluster db;
     seed_peer_cluster_scheduler_cluster := seed_peer_cluster_scheduler_cluster db;
     scheduler := t |}.

(** C10: without a live scheduler row of the given id, [DestroyScheduler]
    returns the error of the lookup and the database is as before; with
    one, it returns nil and the row has left the scheduler table (not
    merely been marked), every other row and table being as before. *)
Theorem DestroyScheduler_hard_deletes (id : N) (db : DB) :
  ((∀ r, scheduler db !! id = Some r → is_del r = true) →
     DestroyScheduler id db = (db, inl ErrRecordNotFound))
  ∧ (∀ r, scheduler db !! id = Some r → is_del r = false →
     DestroyScheduler id db = (with_scheduler (delete id (scheduler db)) db, inr ())
     ∧ scheduler (DestroyScheduler id db).1 !! id = None
     ∧ ∀ j, j ≠ id → scheduler (DestroyScheduler id db).1 !! j = scheduler db !! j).
Proof.
  unfold DestroyScheduler, mbind, Stmt_bind, query, on_scheduler, Unscoped_Delete, First_id.
  split.
  - intros Hnone. destruct (scheduler db !! id) as [r|] eqn:Hr; [|done].
    by rewrite (Hnone r eq_refl).
  - intros r Hr Hlive. rewrite Hr, Hlive. read_db.
    split; [done|]. split; [apply lookup_delete_eq|].
    intros j Hj. by apply lookup_delete_ne.
Qed.

(** A scheduler table with one live row (id 4) and one marked row (id 9). *)
Definition example_scheduler : Scheduler :=
  {| HostName := "scheduler-1"; IDC := ""; NetTopology := ""; Location := "";
     IP := "10.0.0.9"; Port := 8002; State := "active"; SchedulerClusterID := 1 |}.

Definition example_DB : DB :=
  with_scheduler
    (<[ 4%N := live example_scheduler ]>
       {[ 9%N := {| is_del := true; columns := example_scheduler |} ]})
    empty_DB.

Lemma DestroyScheduler_hard_deletes_witness :
  DestroyScheduler 9 example_DB = (example_DB, inl ErrRecordNotFound)
  ∧ scheduler (DestroyScheduler 4 example_DB).1 !! 4%N = None.
Proof.
  split.
  - apply (proj1 (DestroyScheduler_hard_deletes 9 example_DB)).
    intros r Hr. vm_compute in Hr. by injection Hr as <-.
  - apply (proj2 (DestroyScheduler_hard_deletes 4 example_DB) (live example_scheduler));
      reflexivity.
Defined.

(** A scoped delete only marks the row, which stays in the table; the
    unscoped delete of [DestroyScheduler] takes it out. *)
Example soft_and_hard_delete :
  (Delete (scheduler example_DB) 4).1 !! 4%N
    = Some {| is_del := true; columns := example_scheduler |}
  ∧ (Unscoped_Delete (scheduler example_DB) 4).1 !! 4%N = None.
Proof. split; reflexivity. Qed.

(** [GetScheduler] changes nothing in the database and returns the live
    scheduler row of the given id, or [gorm.ErrRecordNotFound] when there
    is none. *)
Theorem GetScheduler_only_reads (id : N) (db : DB) :
  (GetScheduler id db).1 = db
  ∧ (GetScheduler id db).2
    = match scheduler db !! id with
      | Some r => if is_del r then inl ErrRecordNotFound else inr (columns r)
      | None => inl ErrRecordNotFound
      end.
Proof. split; reflexivity. Qed.

(** *** [seed] on a database that is partly there *)

Lemma least_spec (ks : list N) :
  match least ks with
  | None => ks = []
  | Some m => m ∈ ks ∧ ∀ k, k ∈ ks → (m ≤ k)%N
  end.
Proof.
  induction ks as [|k l IH]; [done|].
  unfold least in *. simpl. destruct (foldr _ None l) as [m'|]; simpl.
  - destruct IH as [Hin Hmin]. split.
    + destruct (N.min_spec k m') as [[_ ->] | [_ ->]]; [left | by right].
    + intros k' [-> | Hk']%elem_of_cons; [lia|].
      specialize (Hmin _ Hk'). lia.
  - subst l. split; [left|].
    intros k' [-> | Hk']%elem_of_cons; [lia|]. by apply elem_of_nil in Hk'.
Qed.

(** With a live row in the table, [First] returns the live row of least
    primary key. *)
Lemma First_live {A} (t : Table A) :
  has_live_row t →
  ∃ m r, First t = inr (m, columns r) ∧ t !! m = Some r ∧ is_del r = false
         ∧ ∀ id r', t !! id = Some r' → is_del r' = false → (m ≤ id)%N.
Proof.
  intros (id0 & r0 & Hl0 & Hd0).
  assert (∀ id r, scoped t !! id = Some r ↔ t !! id = Some r ∧ is_del r = false) as Hsc.
  { intros id r. unfold scoped. by rewrite map_lookup_filter_Some. }
  assert (∀ id, id ∈ (map_to_list (scoped t)).*1 ↔ ∃ r, t !! id = Some r ∧ is_del r = false)
    as Hkeys.
  { intros id. rewrite list_elem_of_fmap. split.
    - intros ([id' r] & -> & Hin). apply elem_of_map_to_list in Hin.
      exists r. by apply Hsc.
    - intros (r & Hr). exists (id, r). split; [done|].
      apply elem_of_map_to_list. by apply Hsc. }
  unfold First. pose proof (least_spec (map_to_list (scoped t)).*1) as Hleast.
  destruct (least _) as [m|].
  - destruct Hleast as [Hin Hmin]. apply Hkeys in Hin as (r & Hr & Hd).
    exists m, r. rewrite Hr. split; [done|]. split; [done|]. split; [done|].
    intros id r' Hr' Hd'. apply Hmin, Hkeys. by exists r'.
  - assert (id0 ∈ (map_to_list (scoped t)).*1) as Hin by (apply Hkeys; by exists r0).
    rewrite Hleast in Hin. by apply elem_of_nil in Hin.
Qed.

Lemma live_of_Count {A} (t : Table A) : (Count t <=? 0)%Z = false → has_live_row t.
Proof.
  intros Hc. apply Z.leb_gt in Hc. unfold Count in Hc.
  destruct (map_choose (scoped t)) as (id & r & Hr).
  { intros Hz. rewrite Hz, map_size_empty in Hc. lia. }
  apply map_lookup_filter_Some in Hr as [? ?]. by exists id, r.
Qed.

Lemma Count_none {A} (t : Table A) : ¬ has_live_row t → (Count t <=? 0)%Z = true.
Proof.
  intros Hn. destruct (Count t <=? 0)%Z eqn:Hc; [done|].
  by apply live_of_Count in Hc.
Qed.

Lemma has_live_row_dec {A} (t : Table A) : has_live_row t ∨ ¬ has_live_row t.
Proof.
  destruct (Count t <=? 0)%Z eqn:Hc.
  - right. intros Hl. apply Count_pos in Hl. congruence.
  - left. by apply live_of_Count.
Qed.

Lemma First_insert_only {A} (t : Table A) id (a : A) :
  ¬ has_live_row t → t !! id = None →
  First (<[id := live a]> t) = inr (id, a).
Proof.
  intros Hn Hid.
  destruct (First_live (<[id := live a]> t)) as (m & r & -> & Hr & Hd & _).
  { exists id, (live a). by rewrite lookup_insert_eq. }
  destruct (decide (m = id)) as [->|Hne].
  - rewrite lookup_insert_eq in Hr. by injection Hr as <-.
  - rewrite lookup_insert_ne in Hr by done. destruct Hn. by exists m, r.
Qed.

(** The database with another scheduler cluster table; and with another
    seed peer cluster table and one more pair in the join table. *)
Definition with_scheduler_cluster (t : Table SchedulerCluster) (db : DB) : DB :=
  {| scheduler_cluster := t;
     seed_peer_cluster := seed_peer_cluster db;
     seed_peer_cluster_scheduler_cluster := seed_peer_cluster_scheduler_cluster db;
     scheduler := scheduler db |}.

Definition with_seed_peer_cluster (t : Table SeedPeerCluster) (pair : N * N) (db : DB) : DB :=
  {| scheduler_cluster := scheduler_cluster db;
     seed_peer_cluster := t;
     seed_peer_cluster_scheduler_cluster :=
       {[ pair ]} ∪ seed_peer_cluster_scheduler_cluster db;
     scheduler := scheduler db |}.

(** The second half of [seed], on a database that has a scheduler cluster. *)
Lemma seed_with_scheduler_cluster db :
  has_live_row (scheduler_cluster db) →
  ∃ m r, First (scheduler_cluster db) = inr (m, columns r)
    ∧ scheduler_cluster db !! m = Some r ∧ is_del r = false
    ∧ (∀ id r', scheduler_cluster db !! id = Some r' → is_del r' = false → (m ≤ id)%N)
    ∧ seed db =
        if (Count (seed_peer_cluster db) <=? 0)%Z then
          match seed_peer_cluster db !! 1%N with
          | Some _ => (db, inl ErrDuplicateEntry)
          | None =>
              (with_seed_peer_cluster
                 (<[1%N := live default_seed_peer_cluster]> (seed_peer_cluster db))
                 (1%N, m) db, inr ())
          end
        else (db, inr ()).
Proof.
  intros Hlive. destruct (First_live _ Hlive) as (m & r & HF & Hr & Hd & Hmin).
  exists m, r. split; [done|]. split; [done|]. split; [done|]. split; [done|].
  unfold seed, mbind, Stmt_bind, query, mret, Stmt_ret, on_seed_peer_cluster,
    Association_Append.
  rewrite (Count_pos _ Hlive).
  destruct (Count (seed_peer_cluster db) <=? 0)%Z eqn:Hc; [|done].
  unfold Create. destruct (seed_peer_cluster db !! 1%N) eqn:H1; read_db.
  - by rewrite DB_eta.
  - fold (live default_seed_peer_cluster).
    rewrite First_insert_only; [| |done].
    + read_db. by rewrite HF.
    + intros Hl. apply Count_pos in Hl. congruence.
Qed.

(** The first half of [seed], on a database without one. *)
Lemma seed_without_scheduler_cluster db :
  ¬ has_live_row (scheduler_cluster db) →
  seed db =
    match scheduler_cluster db !! 1%N with
    | Some _ => (db, inl ErrDuplicateEntry)
    | None =>
        seed (with_scheduler_cluster
                (<[1%N := live default_scheduler_cluster]> (scheduler_cluster db)) db)
    end.
Proof.
  intros Hn.
  destruct (scheduler_cluster db !! 1%N) eqn:H1.
  - unfold seed, mbind, Stmt_bind, query, mret, Stmt_ret, on_scheduler_cluster, Create.
    rewrite (Count_none _ Hn), H1. by rewrite DB_eta.
  - unfold seed at 1.
    unfold mbind, Stmt_bind, query, mret, Stmt_ret, on_scheduler_cluster, Create.
    rewrite (Count_none _ Hn), H1. read_db.
    fold (live default_scheduler_cluster).
    fold (with_scheduler_cluster
            (<[1%N := live default_scheduler_cluster]> (scheduler_cluster db)) db).
    set (db1 := with_scheduler_cluster _ db).
    assert (has_live_row (scheduler_cluster db1)) as Hlive1.
    { exists 1%N, (live default_scheduler_cluster). split; [|done].
      unfold db1. simpl. by rewrite lookup_insert_eq. }
    unfold seed, mbind, Stmt_bind, query, mret, Stmt_ret.
    by rewrite (Count_pos _ Hlive1).
Qed.

Lemma created_scheduler_cluster_live db :
  has_live_row
    (scheduler_cluster
       (with_scheduler_cluster
          (<[1%N := live default_scheduler_cluster]> (scheduler_cluster db)) db)).
Proof.
  exists 1%N, (live default_scheduler_cluster). simpl. by rewrite lookup_insert_eq.
Qed.

(** [db'] holds every row and every association [db] holds, and the same
    schedulers. *)
Definition keeps (db db' : DB) : Prop :=
  scheduler_cluster db ⊆ scheduler_cluster db'
  ∧ seed_peer_cluster db ⊆ seed_peer_cluster db'
  ∧ seed_peer_cluster_scheduler_cluster db ⊆ seed_peer_cluster_scheduler_cluster db'
  ∧ scheduler db' = scheduler db.

Lemma keeps_refl db : keeps db db.
Proof. by split; [|split; [|split]]. Qed.

Lemma keeps_trans db1 db2 db3 : keeps db1 db2 → keeps db2 db3 → keeps db1 db3.
Proof.
  intros (?&?&?&?) (?&?&?&?).
  split; [by etrans|]. split; [by etrans|]. split; [by etrans|]. congruence.
Qed.

Lemma seed_keeps_live db : has_live_row (scheduler_cluster db) → keeps db (seed db).1.
Proof.
  intros Hl. destruct (seed_with_scheduler_cluster db Hl) as (m & r & _ & _ & _ & _ & ->).
  destruct (Count (seed_peer_cluster db) <=? 0)%Z; [|apply keeps_refl].
  destruct (seed_peer_cluster db !! 1%N) eqn:H1; [apply keeps_refl|].
  split; [done|]. split; [by apply insert_subseteq|]. split; [|done].
  apply union_subseteq_r.
Qed.

(** X9: whether it succeeds or fails, [seed] deletes and changes no row
    of the two cluster tables and no association between them (all it does
    is add), and it leaves the scheduler table alone. *)
Theorem seed_only_adds (db : DB) : keeps db (seed db).1.
Proof.
  destruct (has_live_row_dec (scheduler_cluster db)) as [Hl|Hn];
    [by apply seed_keeps_live|].
  rewrite (seed_without_scheduler_cluster db Hn).
  destruct (scheduler_cluster db !! 1%N) eqn:H1; [apply keeps_refl|].
  eapply keeps_trans; [|apply seed_keeps_live, created_scheduler_cluster_live].
  split; [by apply insert_subseteq|]. by split; [|split].
Qed.

(** A live row with this primary key. *)
Definition live_at {A} (t : Table A) (id : N) : Prop :=
  ∃ r, t !! id = Some r ∧ is_del r = false.

Lemma seed_success_live db :
  has_live_row (scheduler_cluster db) →
  (seed db).2 = inr () →
  has_live_row (seed_peer_cluster (seed db).1)
  ∧ scheduler_cluster (seed db).1 = scheduler_cluster db
  ∧ ∀ p, p ∈ seed_peer_cluster_scheduler_cluster (seed db).1 →
      p ∈ seed_peer_cluster_scheduler_cluster db
      ∨ live_at (seed_peer_cluster (seed db).1) p.1 ∧ live_at (scheduler_cluster db) p.2.
Proof.
  intros Hl. destruct (seed_with_scheduler_cluster db Hl) as (m & r & _ & Hr & Hd & _ & ->).
  destruct (Count (seed_peer_cluster db) <=? 0)%Z eqn:Hc.
  - destruct (seed_peer_cluster db !! 1%N) eqn:H1; [done|]. intros _. simpl.
    split; [|split; [done|]].
    + exists 1%N, (live default_seed_peer_cluster). by rewrite lookup_insert_eq.
    + intros p [->%elem_of_singleton | Hp]%elem_of_union; [right|by left].
      split; [|by exists r]. exists (live default_seed_peer_cluster).
      simpl. by rewrite lookup_insert_eq.
  - intros _. split; [by apply live_of_Count|]. split; [done|]. intros p Hp. by left.
Qed.

(** X10: after a [seed] that returned nil, the scheduler cluster table
    and the seed peer cluster table each hold a live row, and every
    association that [seed] added joins a live seed peer cluster to a live
    scheduler cluster. *)
Theorem seed_success (db : DB) :
  (seed db).2 = inr () →
  has_live_row (scheduler_cluster (seed db).1)
  ∧ has_live_row (seed_peer_cluster (seed db).1)
  ∧ ∀ p, p ∈ seed_peer_cluster_scheduler_cluster (seed db).1 →
      p ∈ seed_peer_cluster_scheduler_cluster db
      ∨ live_at (seed_peer_cluster (seed db).1) p.1
        ∧ live_at (scheduler_cluster (seed db).1) p.2.
Proof.
  destruct (has_live_row_dec (scheduler_cluster db)) as [Hl|Hn].
  - intros Hok. destruct (seed_success_live db Hl Hok) as (Hspc & Hsc & Hj).
    rewrite Hsc. split; [done|]. split; [done|]. done.
  - rewrite (seed_without_scheduler_cluster db Hn).
    destruct (scheduler_cluster db !! 1%N) eqn:H1; [done|].
    intros Hok.
    destruct (seed_success_live _ (created_scheduler_cluster_live db) Hok)
      as (Hspc & Hsc & Hj).
    rewrite Hsc. split; [apply created_scheduler_cluster_live|]. split; [done|]. done.
Qed.

Lemma seed_success_witness :
  has_live_row (scheduler_cluster (seed empty_DB).1)
  ∧ has_live_row (seed_peer_cluster (seed empty_DB).1).
Proof.
  destruct (seed_success empty_DB) as (Hsc & Hspc & _); [|by split].
  rewrite seed_empty; reflexivity.
Defined.

(** Databases for the examples: seed peer clusters without a scheduler
    cluster; scheduler clusters (ID 2 soft-deleted, ID 7 live) without a
    seed peer cluster; and a default scheduler cluster that was deleted
    softly, the only row of the cluster tables. *)
Definition deleted {A} (a : A) : Row A := {| is_del := true; columns := a |}.

Definition peers_only_DB : DB :=
  {| scheduler_cluster := ∅;
     seed_peer_cluster := {[ 3%N := live default_seed_peer_cluster ]};
     seed_peer_cluster_scheduler_cluster := ∅;
     scheduler := ∅ |}.

Definition schedulers_only_DB : DB :=
  {| scheduler_cluster :=
       <[ 2%N := deleted default_scheduler_cluster ]>
         {[ 7%N := live default_scheduler_cluster ]};
     seed_peer_cluster := ∅;
     seed_peer_cluster_scheduler_cluster := ∅;
     scheduler := ∅ |}.

Definition retired_DB : DB :=
  {| scheduler_cluster := {[ 1%N := deleted default_scheduler_cluster ]};
     seed_peer_cluster := ∅;
     seed_peer_cluster_scheduler_cluster := ∅;
     scheduler := ∅ |}.

Lemma no_live_row_empty {A} : ¬ has_live_row (∅ : Table A).
Proof. intros (id & r & Hl & _). by rewrite lookup_empty in Hl. Qed.

Lemma no_live_row_deleted {A} id (a : A) : ¬ has_live_row ({[ id := deleted a ]} : Table A).
Proof.
  intros (id' & r & Hl & Hd). apply lookup_singleton_Some in Hl as [_ <-]. done.
Qed.

(** X11: when only the scheduler clusters are missing (no live scheduler
    cluster, ID 1 free, a live seed peer cluster present), [seed] creates
    the default scheduler cluster and nothing else: no association is
    added, so the new cluster is joined to no seed peer cluster. *)
Theorem seed_restores_scheduler_cluster_alone (db : DB) :
  ¬ has_live_row (scheduler_cluster db) →
  scheduler_cluster db !! 1%N = None →
  has_live_row (seed_peer_cluster db) →
  seed db =
    (with_scheduler_cluster
       (<[1%N := live default_scheduler_cluster]> (scheduler_cluster db)) db, inr ())
  ∧ seed_peer_cluster_scheduler_cluster (seed db).1 = seed_peer_cluster_scheduler_cluster db.
Proof.
  intros Hn H1 Hl.
  rewrite (seed_without_scheduler_cluster db Hn), H1.
  rewrite seed_settled; [done| |done]. apply created_scheduler_cluster_live.
Qed.

Lemma seed_restores_scheduler_cluster_alone_witness :
  seed_peer_cluster_scheduler_cluster (seed peers_only_DB).1 = ∅.
Proof.
  apply (proj2 (seed_restores_scheduler_cluster_alone peers_only_DB
                  no_live_row_empty eq_refl
                  (ex_intro _ 3%N (ex_intro _ (live default_seed_peer_cluster)
                                     (conj eq_refl eq_refl))))).
Defined.

(** X12: when only the seed peer clusters are missing (a live scheduler
    cluster present, no live seed peer cluster, ID 1 free), [seed] creates
    the default seed peer cluster with ID 1 and joins it to the live
    scheduler cluster of least ID, which need not be the default one. *)
Theorem seed_associates_first_scheduler_cluster (db : DB) :
  has_live_row (scheduler_cluster db) →
  ¬ has_live_row (seed_peer_cluster db) →
  seed_peer_cluster db !! 1%N = None →
  ∃ m,
    live_at (scheduler_cluster db) m
    ∧ (∀ id, live_at (scheduler_cluster db) id → (m ≤ id)%N)
    ∧ seed db =
        (with_seed_peer_cluster
           (<[1%N := live default_seed_peer_cluster]> (seed_peer_cluster db)) (1%N, m) db,
         inr ()).
Proof.
  intros Hl Hn H1.
  destruct (seed_with_scheduler_cluster db Hl) as (m & r & _ & Hr & Hd & Hmin & ->).
  exists m. split; [by exists r|]. split.
  - intros id (r' & Hr' & Hd'). by eapply Hmin.
  - by rewrite (Count_none _ Hn), H1.
Qed.

Lemma seed_associates_first_scheduler_cluster_witness :
  ∃ m, live_at (scheduler_cluster schedulers_only_DB) m
       ∧ (seed schedulers_only_DB).2 = inr ()
       ∧ (1%N, m) ∈ seed_peer_cluster_scheduler_cluster (seed schedulers_only_DB).1.
Proof.
  destruct (seed_associates_first_scheduler_cluster schedulers_only_DB)
    as (m & Hm & _ & Hseed).
  - exists 7%N, (live default_scheduler_cluster). split; reflexivity.
  - apply no_live_row_empty.
  - reflexivity.
  - exists m. rewrite Hseed. split; [done|]. split; [done|].
    simpl. apply elem_of_union_l, elem_of_singleton. reflexivity.
Defined.

(** X13: [seed] returns an error exactly when a cluster table has no live
    row while a row with ID 1 is still in it (a soft-deleted one), and the
    error is the duplicate key of the INSERT; and it is not atomic: when
    the scheduler cluster could be created and the seed peer cluster could
    not, the error comes back with the new scheduler cluster in place. *)
Theorem seed_fails_on_taken_ID (db : DB) :
  (∀ e, (seed db).2 = inl e ↔
        e = ErrDuplicateEntry
        ∧ (¬ has_live_row (scheduler_cluster db) ∧ is_Some (scheduler_cluster db !! 1%N)
           ∨ ¬ has_live_row (seed_peer_cluster db) ∧ is_Some (seed_peer_cluster db !! 1%N)))
  ∧ (¬ has_live_row (scheduler_cluster db) → scheduler_cluster db !! 1%N = None →
     ¬ has_live_row (seed_peer_cluster db) → is_Some (seed_peer_cluster db !! 1%N) →
     seed db =
       (with_scheduler_cluster
          (<[1%N := live default_scheduler_cluster]> (scheduler_cluster db)) db,
        inl ErrDuplicateEntry)).
Proof.
  assert (∀ db1, has_live_row (scheduler_cluster db1) →
    ∀ e, (seed db1).2 = inl e ↔
         e = ErrDuplicateEntry
         ∧ ¬ has_live_row (seed_peer_cluster db1) ∧ is_Some (seed_peer_cluster db1 !! 1%N))
    as Hsecond.
  { intros db1 Hl e.
    destruct (seed_with_scheduler_cluster db1 Hl) as (m & r & _ & _ & _ & _ & ->).
    destruct (Count (seed_peer_cluster db1) <=? 0)%Z eqn:Hc.
    - assert (¬ has_live_row (seed_peer_cluster db1)) as Hn
        by (intros Hx; apply Count_pos in Hx; congruence).
      destruct (seed_peer_cluster db1 !! 1%N) eqn:H1; simpl.
      + split; [by intros [= <-]|]. by intros [-> _].
      + split; [done|]. intros (_ & _ & [? ?]). done.
    - simpl. split; [done|]. intros (_ & Hn & _). by apply live_of_Count in Hc. }
  split.
  - intros e. destruct (has_live_row_dec (scheduler_cluster db)) as [Hl|Hn].
    + rewrite (Hsecond db Hl). split; [intros (-> & ?); split; [done|by right]|].
      intros (-> & [[Hn _] | ?]); [done|]. by split.
    + rewrite (seed_without_scheduler_cluster db Hn).
      destruct (scheduler_cluster db !! 1%N) eqn:H1; simpl.
      * split; [intros [= <-]; split; [done|left; by split]|]. by intros [-> _].
      * rewrite (Hsecond _ (created_scheduler_cluster_live db)).
        simpl. split; [intros (-> & ?); split; [done|by right]|].
        intros (-> & [[_ [? ?]] | ?]); [done|]. by split.
  - intros Hn H1 Hn2 [r2 H2].
    rewrite (seed_without_scheduler_cluster db Hn), H1.
    destruct (seed_with_scheduler_cluster _ (created_scheduler_cluster_live db))
      as (m & r & _ & _ & _ & _ & ->).
    simpl. by rewrite (Count_none _ Hn2), H2.
Qed.

Lemma seed_fails_on_taken_ID_witness : (seed retired_DB).2 = inl ErrDuplicateEntry.
Proof.
  apply (proj1 (seed_fails_on_taken_ID retired_DB)).
  split; [reflexivity|]. left.
  split; [apply no_live_row_deleted | by eexists].
Defined.

(** *** [newMyqsl] and [formatDSN] *)

(** X14: [newMyqsl] gives up at the first step that fails, with that
    step's error: no connection is opened when the DSN cannot be built
    (which happens exactly when TLS is configured and the client
    configuration cannot be made or registered under the name "custom"),
    and a failed migration returns before [seed], the rows as they were
    found. *)
Theorem newMyqsl_stops_at_first_error (cfg : MysqlConfig) (env : Env) :
  (∀ e, formatDSN cfg env = inl e → newMyqsl cfg env = (None, inl e))
  ∧ (∀ dsn e, formatDSN cfg env = inr dsn → Open_result env dsn = inl e →
       newMyqsl cfg env = (None, inl e))
  ∧ (∀ dsn db e, formatDSN cfg env = inr dsn → Open_result env dsn = inr db →
       Migrate cfg = true → migrate_result env = Some e →
       newMyqsl cfg env = (Some db, inl e))
  ∧ (∀ e, formatDSN cfg env = inl e ↔
       ∃ settings, TLS cfg = Some settings
         ∧ (TLS_Client env settings = inl e
            ∨ ∃ tls, TLS_Client env settings = inr tls
                     ∧ RegisterTLSConfig env "custom" tls = Some e)).
Proof.
  split; [|split; [|split]].
  - intros e He. unfold newMyqsl. by rewrite He.
  - intros dsn e Hd Ho. unfold newMyqsl. by rewrite Hd, Ho.
  - intros dsn db e Hd Ho Hm Hr. unfold newMyqsl. rewrite Hd, Ho, Hm.
    unfold mbind, Stmt_bind, migrate. by rewrite Hr.
  - intros e. unfold formatDSN. destruct (TLS cfg) as [settings|].
    + destruct (TLS_Client env settings) as [e1|tls] eqn:Hc.
      * split; [intros [= <-]; exists settings; split; [done|by left]|].
        intros (s' & [= <-] & [Hx | (tls & Hx & _)]); congruence.
      * destruct (RegisterTLSConfig env "custom" tls) as [e2|] eqn:Hr.
        -- split; [intros [= <-]; exists settings; split; [done|right; by exists tls]|].
           intros (s' & [= <-] & [Hx | (tls' & Hx & Hy)]); congruence.
        -- split; [done|].
           intros (s' & [= <-] & [Hx | (tls' & Hx & Hy)]); congruence.
    + split; [done|]. by intros (s' & Hx & _).
Qed.

(** A configuration that asks for the migration and for TLS. *)
Definition example_mysql_migrating : MysqlConfig :=
  {| cfg_User := "dragonfly"; cfg_Password := "dragonfly"; cfg_Host := "mysql";
     cfg_Port := 3306; cfg_DBName := "manager"; TLS := None; Migrate := true |}.

Definition example_mysql_tls : MysqlConfig :=
  {| cfg_User := "dragonfly"; cfg_Password := "dragonfly"; cfg_Host := "mysql";
     cfg_Port := 3306; cfg_DBName := "manager"; TLS := Some "ca.pem"; Migrate := false |}.

Lemma newMyqsl_stops_at_first_error_witness :
  newMyqsl example_mysql_migrating (example_env empty_DB) = (Some empty_DB, inl "never run")
  ∧ newMyqsl example_mysql_tls (example_env empty_DB) = (None, inl "no certificate").
Proof.
  split.
  - apply (proj1 (proj2 (proj2 (newMyqsl_stops_at_first_error example_mysql_migrating
                                  (example_env empty_DB)))) "dsn" empty_DB "never run");
      reflexivity.
  - apply (proj1 (newMyqsl_stops_at_first_error example_mysql_tls (example_env empty_DB))).
    reflexivity.
Defined.

End DatabaseFacts.

(* ====================================================================== *)
(** * Properties of [manager/service/scheduler.go] *)
(* ====================================================================== *)

Module ServiceFacts.
Import Gorm Database Service DatabaseFacts.

(** *** [CreateScheduler] *)

(** The row [CreateScheduler] writes for a request: the request's seven
    fields and the default state. *)
Definition created (eng : Engine) (json : CreateSchedulerRequest) : Scheduler :=
  {| HostName := create_HostName json;
     IDC := create_IDC json;
     NetTopology := create_NetTopology json;
     Location := create_Location json;
     IP := create_IP json;
     Port := create_Port json;
     State := State_default eng;
     SchedulerClusterID := create_SchedulerClusterID json |}.

Lemma CreateScheduler_accepted eng json db :
  refuses eng (created eng json) = None →
  scheduler db !! AUTO_INCREMENT eng = None →
  CreateScheduler eng json db
  = (with_scheduler (<[AUTO_INCREMENT eng := live (created eng json)]> (scheduler db)) db,
     inr (AUTO_INCREMENT eng, created eng json)).
Proof.
  intros Hok Hfresh. unfold CreateScheduler, Create_auto, with_defaults. simpl.
  fold (created eng json). by rewrite Hok, Hfresh.
Qed.

(** An engine that numbers the next row 10, defaults the state to
    "inactive" and refuses a row without host name; and two requests. *)
Definition example_engine : Engine :=
  {| AUTO_INCREMENT := 10;
     State_default := "inactive";
     refuses := fun s => if String.eqb (HostName s) ""
                         then Some "Error 1048: Column 'host_name' cannot be null"
                         else None |}.

Definition example_create : CreateSchedulerRequest :=
  {| create_HostName := "scheduler-2"; create_IDC := "idc-a"; create_NetTopology := "";
     create_Location := ""; create_IP := "10.0.0.10"; create_Port := 8002;
     create_SchedulerClusterID := 1 |}.

Definition nameless_create : CreateSchedulerRequest :=
  {| create_HostName := ""; create_IDC := ""; create_NetTopology := "";
     create_Location := ""; create_IP := "10.0.0.10"; create_Port := 8002;
     create_SchedulerClusterID := 1 |}.

(** X15: when the engine accepts the row and its AUTO_INCREMENT value is
    free, [CreateScheduler] returns the request's fields with the default
    state under that ID; [GetScheduler] of the ID then returns the same
    row; and every other scheduler and every cluster table is as before. *)
Theorem CreateScheduler_then_GetScheduler
    (eng : Engine) (json : CreateSchedulerRequest) (db : DB) :
  refuses eng (created eng json) = None →
  scheduler db !! AUTO_INCREMENT eng = None →
  let id := AUTO_INCREMENT eng in
  let db' := (CreateScheduler eng json db).1 in
  (CreateScheduler eng json db).2 = inr (id, created eng json)
  ∧ GetScheduler id db' = (db', inr (created eng json))
  ∧ (∀ j, j ≠ id → (GetScheduler j db').2 = (GetScheduler j db).2)
  ∧ scheduler_cluster db' = scheduler_cluster db
  ∧ seed_peer_cluster db' = seed_peer_cluster db
  ∧ seed_peer_cluster_scheduler_cluster db' = seed_peer_cluster_scheduler_cluster db.
Proof.
  intros Hok Hfresh id db'. subst id db'.
  rewrite (CreateScheduler_accepted eng json db Hok Hfresh). simpl.
  split; [done|]. unfold GetScheduler, query, First_id. simpl.
  split; [by rewrite lookup_insert_eq|]. split; [|done].
  intros j Hj. by rewrite lookup_insert_ne.
Qed.

Lemma CreateScheduler_then_GetScheduler_witness :
  (GetScheduler 10 (CreateScheduler example_engine example_create example_DB).1).2
  = inr (created example_engine example_create).
Proof.
  destruct (CreateScheduler_then_GetScheduler example_engine example_create example_DB)
    as (_ & Hget & _); [reflexivity|reflexivity|].
  exact (f_equal snd Hget).
Defined.

(** X16: a [CreateScheduler] that returns an error has written nothing,
    and the error is the engine's refusal of the row or, for a row it
    accepts, the duplicate key of an ID that is taken. *)
Theorem CreateScheduler_error_changes_nothing
    (eng : Engine) (json : CreateSchedulerRequest) (db : DB) (e : error) :
  (CreateScheduler eng json db).2 = inl e →
  (CreateScheduler eng json db).1 = db
  ∧ (refuses eng (created eng json) = Some e
     ∨ refuses eng (created eng json) = None
       ∧ is_Some (scheduler db !! AUTO_INCREMENT eng) ∧ e = ErrDuplicateEntry).
Proof.
  unfold CreateScheduler, Create_auto, with_defaults. simpl. fold (created eng json).
  destruct (refuses eng (created eng json)) as [e'|]; simpl.
  - intros [= <-]. rewrite DB_eta. split; [done|by left].
  - destruct (scheduler db !! AUTO_INCREMENT eng) as [r|]; simpl; [|done].
    intros [= <-]. rewrite DB_eta. split; [done|]. right. by split; [|split; [eexists|]].
Qed.

Lemma CreateScheduler_error_changes_nothing_witness :
  (CreateScheduler example_engine nameless_create example_DB).1 = example_DB.
Proof.
  apply (CreateScheduler_error_changes_nothing example_engine nameless_create example_DB
           "Error 1048: Column 'host_name' cannot be null").
  reflexivity.
Defined.

(** X17: [DestroyScheduler] of a scheduler that [CreateScheduler] has just
    created succeeds and gives back the database as it was before the
    two calls. *)
Theorem CreateScheduler_then_DestroyScheduler
    (eng : Engine) (json : CreateSchedulerRequest) (db : DB) :
  refuses eng (created eng json) = None →
  scheduler db !! AUTO_INCREMENT eng = None →
  DestroyScheduler (AUTO_INCREMENT eng) (CreateScheduler eng json db).1 = (db, inr ()).
Proof.
  intros Hok Hfresh.
  rewrite (CreateScheduler_accepted eng json db Hok Hfresh). simpl.
  unfold DestroyScheduler, mbind, Stmt_bind, query, on_scheduler, Unscoped_Delete, First_id.
  simpl. rewrite lookup_insert_eq. simpl.
  rewrite delete_insert_id by done. by rewrite DB_eta.
Qed.

Lemma CreateScheduler_then_DestroyScheduler_witness :
  DestroyScheduler 10 (CreateScheduler example_engine example_create example_DB).1
  = (example_DB, inr ()).
Proof.
  apply (CreateScheduler_then_DestroyScheduler example_engine example_create example_DB);
    reflexivity.
Defined.

(** *** [UpdateScheduler] *)

Lemma UpdateScheduler_missing eng id json db :
  (∀ r, scheduler db !! id = Some r → is_del r = true) →
  UpdateScheduler eng id json db = (db, inl ErrRecordNotFound).
Proof.
  intros Hnone. unfold UpdateScheduler, mbind, Stmt_bind, query, First_id.
  destruct (scheduler db !! id) as [r|] eqn:Hr; [|done].
  by rewrite (Hnone r eq_refl).
Qed.

Lemma UpdateScheduler_found eng id json db row :
  scheduler db !! id = Some (live row) →
  UpdateScheduler eng id json db
  = match refuses eng (assign (update_values json) row) with
    | Some e => (db, inl e)
    | None =>
        (with_scheduler (<[id := live (assign (update_values json) row)]> (scheduler db)) db,
         inr (assign (update_values json) row))
    end.
Proof.
  intros Hr. unfold UpdateScheduler, mbind, Stmt_bind, query, First_id, on_scheduler, Updates.
  rewrite Hr. simpl.
  destruct (refuses eng _); [by rewrite DB_eta|done].
Qed.

Definition example_update : UpdateSchedulerRequest :=
  {| update_IDC := "idc-b"; update_NetTopology := ""; update_Location := "";
     update_IP := ""; update_Port := 0; update_SchedulerClusterID := 2 |}.

(** X18: on a live scheduler, and when the engine accepts the result,
    [UpdateScheduler] overwrites exactly the columns whose request field is
    not the zero value (an empty string, port 0 and cluster 0 leave the
    stored value, so no column can be cleared), never the host name or the
    state; it returns the row as stored; and no other row changes. *)
Theorem UpdateScheduler_writes_nonzero_fields
    (eng : Engine) (id : N) (json : UpdateSchedulerRequest) (db : DB) (row : Scheduler) :
  scheduler db !! id = Some (live row) →
  refuses eng (assign (update_values json) row) = None →
  ∃ row',
    (UpdateScheduler eng id json db).2 = inr row'
    ∧ scheduler (UpdateScheduler eng id json db).1 !! id = Some (live row')
    ∧ (∀ j, j ≠ id →
         scheduler (UpdateScheduler eng id json db).1 !! j = scheduler db !! j)
    ∧ HostName row' = HostName row
    ∧ State row' = State row
    ∧ IDC row' = (if String.eqb (update_IDC json) "" then IDC row else update_IDC json)
    ∧ NetTopology row'
      = (if String.eqb (update_NetTopology json) "" then NetTopology row
         else update_NetTopology json)
    ∧ Location row'
      = (if String.eqb (update_Location json) "" then Location row else update_Location json)
    ∧ IP row' = (if String.eqb (update_IP json) "" then IP row else update_IP json)
    ∧ Port row' = (if (update_Port json =? 0)%Z then Port row else update_Port json)
    ∧ SchedulerClusterID row'
      = (if (update_SchedulerClusterID json =? 0)%N then SchedulerClusterID row
         else update_SchedulerClusterID json).
Proof.
  intros Hr Hok. rewrite (UpdateScheduler_found eng id json db row Hr), Hok.
  exists (assign (update_values json) row). simpl.
  split; [done|]. split; [by rewrite lookup_insert_eq|].
  split; [intros j Hj; by rewrite lookup_insert_ne|]. done.
Qed.

Lemma UpdateScheduler_writes_nonzero_fields_witness :
  ∃ row', (UpdateScheduler example_engine 4 example_update example_DB).2 = inr row'
          ∧ IDC row' = "idc-b" ∧ IP row' = "10.0.0.9" ∧ Port row' = 8002%Z
          ∧ SchedulerClusterID row' = 2%N.
Proof.
  destruct (UpdateScheduler_writes_nonzero_fields example_engine 4 example_update example_DB
              example_scheduler)
    as (row' & Hrow & _ & _ & _ & _ & Hidc & _ & _ & Hip & Hport & Hcluster);
    [reflexivity|reflexivity|].
  exists row'. by rewrite Hidc, Hip, Hport, Hcluster.
Defined.






(** X20: an [UpdateScheduler] that returns an error has written nothing;
    without a live scheduler of the given ID the error is
    [gorm.ErrRecordNotFound], and otherwise it is the engine's refusal. *)
Theorem UpdateScheduler_error_changes_nothing
    (eng : Engine) (id : N) (json : UpdateSchedulerRequest) (db : DB) (e : error) :
  (UpdateScheduler eng id json db).2 = inl e →
  (UpdateScheduler eng id json db).1 = db
  ∧ ((∀ r, scheduler db !! id = Some r → is_del r = true) → e = ErrRecordNotFound)
  ∧ (∀ row, scheduler db !! id = Some (live row) →
       refuses eng (assign (update_values json) row) = Some e).
Proof.
  destruct (scheduler db !! id) as [[[] row]|] eqn:Hr.
  - rewrite UpdateScheduler_missing; [|intros r; rewrite Hr; by intros [= <-]].
    simpl. intros [= <-]. done.
  - rewrite (UpdateScheduler_found eng id json db row Hr).
    destruct (refuses eng _) eqn:Href; simpl; [|done].
    intros [= <-]. split; [done|]. split.
    + intros Hnone. by specialize (Hnone _ eq_refl).
    + by intros row' [= <-].
  - rewrite UpdateScheduler_missing; [|intros r; by rewrite Hr].
    simpl. intros [= <-]. done.
Qed.

Lemma UpdateScheduler_error_changes_nothing_witness :
  (UpdateScheduler example_engine 9 example_update example_DB).1 = example_DB.
Proof.
  apply (UpdateScheduler_error_changes_nothing example_engine 9 example_update example_DB
           ErrRecordNotFound).
  reflexivity.
Defined.

(** *** [DestroyScheduler] and [GetScheduler] together *)

(** X4: a [DestroyScheduler] that returned nil destroyed a scheduler that
    [GetScheduler] could read; afterwards [GetScheduler] and a second
    [DestroyScheduler] of the same ID both return
    [gorm.ErrRecordNotFound] and change nothing, and [GetScheduler]
    answers for every other ID as it did before. *)
Theorem DestroyScheduler_then_GetScheduler (id : N) (db : DB) :
  (DestroyScheduler id db).2 = inr () →
  let db' := (DestroyScheduler id db).1 in
  GetScheduler id db' = (db', inl ErrRecordNotFound)
  ∧ DestroyScheduler id db' = (db', inl ErrRecordNotFound)
  ∧ (∀ j, j ≠ id → (GetScheduler j db').2 = (GetScheduler j db).2)
  ∧ ∃ row, GetScheduler id db = (db, inr row).
Proof.
  unfold GetScheduler, DestroyScheduler, mbind, Stmt_bind, query, on_scheduler,
    Unscoped_Delete, First_id.
  destruct (scheduler db !! id) as [[[] row]|] eqn:Hr; simpl; try done.
  intros _. rewrite lookup_delete_eq.
  split; [done|]. split; [done|]. split; [|by exists row].
  intros j Hj. by rewrite lookup_delete_ne.
Qed.

Lemma DestroyScheduler_then_GetScheduler_witness :
  (GetScheduler 4 (DestroyScheduler 4 example_DB).1).2 = inl ErrRecordNotFound.
Proof.
  destruct (DestroyScheduler_then_GetScheduler 4 example_DB) as (Hget & _);
    [reflexivity|].
  exact (f_equal snd Hget).
Defined.

End ServiceFacts.

(* ====================================================================== *)
(** * Properties of the application handlers *)
(* ====================================================================== *)

Module HandlersFacts.
Import Handlers.

(** An action that a written-out trace does not hold. *)
Ltac listed_nowhere :=
  match goal with
  | H : _ ∈ _ |- _ =>
      repeat (apply elem_of_cons in H as [H|H]; [discriminate H|]);
      by apply elem_of_nil in H
  end.

Section Facts.
Context {CreateApplicationRequest UpdateApplicationRequest Filter Application : Type}.

#[local] Abbreviation Action :=
  (@Handlers.Action CreateApplicationRequest UpdateApplicationRequest Filter Application).
#[local] Abbreviation Call :=
  (@Handlers.Call CreateApplicationRequest UpdateApplicationRequest Filter).
#[local] Abbreviation Handlers :=
  (@Handlers.Handlers CreateApplicationRequest UpdateApplicationRequest Filter Application).

(** The status codes a handler wrote, the service calls it made and the
    errors it left on the context, each in order. *)
Definition answers (tr : list Action) : list Z :=
  omap (fun a => match a with JSON code _ | Status code => Some code | _ => None end) tr.

Definition invocations (tr : list Action) : list (Call * option error) :=
  omap (fun a => match a with Invoke c e => Some (c, e) | _ => None end) tr.

Definition recorded (tr : list Action) : list error :=
  omap (fun a => match a with Error e => Some e | _ => None end) tr.

(** A request ends in one of three ways: refused with 422 before the
    service is reached; one service call that failed, its error left on
    the context and no response written; or one service call that
    succeeded, answered with 200. *)
Definition disciplined (tr : list Action) : Prop :=
  (answers tr = [StatusUnprocessableEntity] ∧ invocations tr = [] ∧ recorded tr = [])
  ∨ (∃ c e, invocations tr = [(c, Some e)] ∧ recorded tr = [e] ∧ answers tr = [])
  ∨ (∃ c, invocations tr = [(c, None)] ∧ recorded tr = [] ∧ answers tr = [StatusOK]).

Lemma status_only_disciplined (pre : list Action) c r :
  answers pre = [] → invocations pre = [] → recorded pre = [] →
  disciplined (pre ++ status_only c r).
Proof.
  intros Ha Hi He. unfold disciplined, answers, invocations, recorded in *.
  rewrite !omap_app, Ha, Hi, He. unfold status_only.
  destruct r as [e|]; simpl; [right; left; by exists c, e | right; right; by exists c].
Qed.

Lemma with_application_disciplined (pre : list Action) c r :
  answers pre = [] → invocations pre = [] → recorded pre = [] →
  disciplined (pre ++ with_application c r).
Proof.
  intros Ha Hi He. unfold disciplined, answers, invocations, recorded in *.
  rewrite !omap_app, Ha, Hi, He. unfold with_application.
  destruct r as [e|a]; simpl; [right; left; by exists c, e | right; right; by exists c].
Qed.

Lemma unprocessable_disciplined (pre : list Action) err :
  answers pre = [] → invocations pre = [] → recorded pre = [] →
  disciplined (pre ++ [unprocessable err]).
Proof.
  intros Ha Hi He. left. unfold answers, invocations, recorded in *.
  by rewrite !omap_app, Ha, Hi, He.
Qed.

(** X21: each of the nine application handlers, on every request and
    whatever the service answers, ends in exactly one of three ways: a 422
    response without any service call (a binding failed); one service
    call that failed, its error recorded on the context and no response
    written; or one service call that succeeded, answered with 200. *)
Theorem handlers_answer_once (h : Handlers) :
  (∀ U Q (ctx : Request U CreateApplicationRequest Q), disciplined (CreateApplication h ctx))
  ∧ (∀ J Q (ctx : Request ApplicationParams J Q), disciplined (DestroyApplication h ctx))
  ∧ (∀ Q (ctx : Request ApplicationParams UpdateApplicationRequest Q),
       disciplined (UpdateApplication h ctx))
  ∧ (∀ J Q (ctx : Request ApplicationParams J Q), disciplined (GetApplication h ctx))
  ∧ (∀ U J (ctx : Request U J GetApplicationsQuery), disciplined (GetApplications h ctx))
  ∧ (∀ J Q (ctx : Request AddSchedulerClusterToApplicationParams J Q),
       disciplined (AddSchedulerClusterToApplication h ctx))
  ∧ (∀ J Q (ctx : Request DeleteSchedulerClusterToApplicationParams J Q),
       disciplined (DeleteSchedulerClusterToApplication h ctx))
  ∧ (∀ J Q (ctx : Request AddSeedPeerClusterToApplicationParams J Q),
       disciplined (AddSeedPeerClusterToApplication h ctx))
  ∧ (∀ J Q (ctx : Request DeleteSeedPeerClusterToApplicationParams J Q),
       disciplined (DeleteSeedPeerClusterToApplication h ctx)).
Proof.
  repeat split; intros.
  - unfold CreateApplication. destruct (ShouldBindJSON ctx).
    + by apply (unprocessable_disciplined [BindJSON]).
    + by apply (with_application_disciplined [BindJSON]).
  - unfold DestroyApplication. destruct (ShouldBindUri ctx).
    + by apply (unprocessable_disciplined [BindUri]).
    + by apply (status_only_disciplined [BindUri]).
  - unfold UpdateApplication. destruct (ShouldBindUri ctx).
    + by apply (unprocessable_disciplined [BindUri]).
    + destruct (ShouldBindJSON ctx).
      * by apply (unprocessable_disciplined [BindUri; BindJSON]).
      * by apply (with_application_disciplined [BindUri; BindJSON]).
  - unfold GetApplication. destruct (ShouldBindUri ctx).
    + by apply (unprocessable_disciplined [BindUri]).
    + by apply (with_application_disciplined [BindUri]).
  - unfold GetApplications. destruct (ShouldBindQuery ctx) as [err|query].
    + by apply (unprocessable_disciplined [BindQuery]).
    + destruct (setPaginationDefault h _) as [page perPage].
      destruct (svc_GetApplications _ _) as [e|[applications count]]; simpl.
      * right; left. by eexists _, e.
      * right; right. by eexists.
  - unfold AddSchedulerClusterToApplication. destruct (ShouldBindUri ctx).
    + by apply (unprocessable_disciplined [BindUri]).
    + by apply (status_only_disciplined [BindUri]).
  - unfold DeleteSchedulerClusterToApplication. destruct (ShouldBindUri ctx).
    + by apply (unprocessable_disciplined [BindUri]).
    + by apply (status_only_disciplined [BindUri]).
  - unfold AddSeedPeerClusterToApplication. destruct (ShouldBindUri ctx).
    + by apply (unprocessable_disciplined [BindUri]).
    + by apply (status_only_disciplined [BindUri]).
  - unfold DeleteSeedPeerClusterToApplication. destruct (ShouldBindUri ctx).
    + by apply (unprocessable_disciplined [BindUri]).
    + by apply (status_only_disciplined [BindUri]).
Qed.

(** X22: [GetApplications] sets the pagination Link header only on a
    successful listing, before the body is written, and from the very
    page and page size it asked the service with (the bound values after
    [setPaginationDefault]) and the count the service returned; the other
    fields of the query reach the service as they were bound. *)
Theorem GetApplications_link_header {U J} (h : Handlers)
    (ctx : Request U J GetApplicationsQuery) (page perPage count : Z) :
  setPaginationLinkHeader page perPage count ∈ GetApplications h ctx →
  ∃ query applications,
    ShouldBindQuery ctx = inr query
    ∧ (page, perPage) = setPaginationDefault h (Page query, PerPage query)
    ∧ let asked := {| Page := page; PerPage := perPage; filter_ := filter_ query |} in
      svc_GetApplications (service h) asked = inr (applications, count)
      ∧ GetApplications h ctx
        = [BindQuery; Invoke (GetApplications_ asked) None;
           setPaginationLinkHeader page perPage count;
           JSON StatusOK (applications_ applications)].
Proof.
  unfold GetApplications. intros Hin.
  destruct (ShouldBindQuery ctx) as [err|query].
  { repeat (apply elem_of_cons in Hin as [?|Hin]; [done|]). by apply elem_of_nil in Hin. }
  destruct (setPaginationDefault h _) as [page' perPage'] eqn:Hp.
  destruct (svc_GetApplications _ _) as [e|[applications count']] eqn:Hs.
  { repeat (apply elem_of_cons in Hin as [?|Hin]; [done|]). by apply elem_of_nil in Hin. }
  apply elem_of_cons in Hin as [?|Hin]; [done|].
  apply elem_of_cons in Hin as [?|Hin]; [done|].
  apply elem_of_cons in Hin as [Heq|Hin].
  - injection Heq as -> -> ->. exists query, applications. simpl in *.
    split; [done|]. split; [done|]. by rewrite Hs.
  - apply elem_of_cons in Hin as [?|Hin]; [done|]. by apply elem_of_nil in Hin.
Qed.

(** X23: [UpdateApplication] reads the body only once the URI parameters
    are bound, calls the service only when both are bound, with the bound
    ID and body, and the application of a 200 response is the one the
    service returned for them. *)
Theorem UpdateApplication_validates_first {Q} (h : Handlers)
    (ctx : Request ApplicationParams UpdateApplicationRequest Q) :
  (BindJSON ∈ UpdateApplication h ctx → ∃ params, ShouldBindUri ctx = inr params)
  ∧ (∀ c e, Invoke c e ∈ UpdateApplication h ctx →
       ∃ params json,
         ShouldBindUri ctx = inr params ∧ ShouldBindJSON ctx = inr json
         ∧ c = UpdateApplication_ (app_ID params) json
         ∧ e = failure (svc_UpdateApplication (service h) (app_ID params) json))
  ∧ (∀ a, JSON StatusOK (application_ a) ∈ UpdateApplication h ctx →
       ∃ params json,
         ShouldBindUri ctx = inr params ∧ ShouldBindJSON ctx = inr json
         ∧ svc_UpdateApplication (service h) (app_ID params) json = inr a).
Proof.
  unfold UpdateApplication, with_application, unprocessable.
  destruct (ShouldBindUri ctx) as [err|params].
  { split; [|split]; intros; listed_nowhere. }
  destruct (ShouldBindJSON ctx) as [err|json].
  { split; [by eexists|]. split; intros; listed_nowhere. }
  split; [by eexists|]. split.
  - intros c e Hin.
    destruct (svc_UpdateApplication (service h) (app_ID params) json) as [err|a] eqn:Hs;
      (apply elem_of_cons in Hin as [Hin|Hin]; [discriminate Hin|]);
      (apply elem_of_cons in Hin as [Hin|Hin]; [discriminate Hin|]);
      (apply elem_of_cons in Hin as [Hin|Hin]; [|listed_nowhere]);
      injection Hin as -> ->; exists params, json; by rewrite Hs.
  - intros a Hin.
    destruct (svc_UpdateApplication (service h) (app_ID params) json) as [err|a'] eqn:Hs.
    + listed_nowhere.
    + do 3 (apply elem_of_cons in Hin as [Hin|Hin]; [discriminate Hin|]).
      apply elem_of_cons in Hin as [Hin|Hin]; [|listed_nowhere].
      injection Hin as ->. by exists params, json.
Qed.

End Facts.

(** Handlers over string bodies whose pagination defaults are page 1 and
    ten items, with a service that lists two applications out of seven;
    and a list request that names neither page nor page size. *)
Definition example_handlers : @Handlers.Handlers string string string string :=
  {| service :=
       {| svc_CreateApplication := fun json => inr json;
          svc_DestroyApplication := fun _ => None;
          svc_UpdateApplication := fun _ json => inr json;
          svc_GetApplication := fun _ => inl "record not found";
          svc_GetApplications := fun _ => inr (["app-1"; "app-2"], 7%Z);
          svc_AddSchedulerClusterToApplication := fun _ _ => None;
          svc_DeleteSchedulerClusterToApplication := fun _ _ => None;
          svc_AddSeedPeerClusterToApplication := fun _ _ => None;
          svc_DeleteSeedPeerClusterToApplication := fun _ _ => None |};
     setPaginationDefault := fun p =>
       (if (p.1 =? 0)%Z then 1%Z else p.1, if (p.2 =? 0)%Z then 10%Z else p.2) |}.

Definition example_list_request : Request unit unit (@GetApplicationsQuery string) :=
  {| ShouldBindUri := inl "no uri parameters";
     ShouldBindJSON := inl "no body";
     ShouldBindQuery := inr {| Page := 0; PerPage := 0; filter_ := "" |} |}.

Lemma GetApplications_link_header_witness :
  GetApplications example_handlers example_list_request
  = [BindQuery;
     Invoke (GetApplications_ {| Page := 1; PerPage := 10; filter_ := "" |}) None;
     setPaginationLinkHeader 1 10 7;
     JSON StatusOK (applications_ ["app-1"; "app-2"])].
Proof.
  destruct (GetApplications_link_header example_handlers example_list_request 1 10 7)
    as (query & applications & Hq & _ & Hs & Htrace).
  - apply list_elem_of_further, list_elem_of_further, list_elem_of_here.
  - injection Hq as <-. by injection Hs as <-.
Defined.

Definition example_update_request : Request ApplicationParams string unit :=
  {| ShouldBindUri := inr {| app_ID := 5 |};
     ShouldBindJSON := inr "renamed";
     ShouldBindQuery := inl "no query" |}.

Lemma UpdateApplication_validates_first_witness :
  ∃ params json,
    ShouldBindUri example_update_request = inr params
    ∧ ShouldBindJSON example_update_request = inr json
    ∧ svc_UpdateApplication (service example_handlers) (app_ID params) json = inr "renamed".
Proof.
  apply (proj2 (proj2 (UpdateApplication_validates_first example_handlers
                         example_update_request)) "renamed").
  apply list_elem_of_further, list_elem_of_further, list_elem_of_further,
    list_elem_of_here.
Defined.

End HandlersFacts.


(* ====================================================================== *)
(** * Properties of the seed cache core *)
(* ====================================================================== *)

Module CoreFacts.
Import Core.

(** A hasher for the examples: the digest of a byte string is its length. *)
#[local] Instance length_hasher : Hasher := {| Digest := nat; digest := length |}.

(** ** Single flight *)

Section SingleFlight.
Context `{Hasher}.
Variables (k : string) (src : SourceDescriptor) (pieceLen : nat).

(** Callers that hold [created = true] and have not yet started the fetch. *)
Definition pending (cs : list Caller) : nat :=
  length (filter (fun c => c = Observed true) cs).

Definition is_creator (c : Caller) : nat :=
  if decide (c = Observed true) then 1 else 0.

Lemma pending_insert cs i x y :
  cs !! i = Some x →
  pending (<[i := y]> cs) + is_creator x = pending cs + is_creator y.
Proof.
  unfold pending, is_creator. revert i.
  induction cs as [|c cs IH]; intros i Hi; [done|].
  destruct i as [|i]; simpl in *.
  - injection Hi as ->. rewrite !filter_cons.
    repeat case_decide; simpl; lia.
  - specialize (IH i Hi). rewrite !filter_cons.
    repeat case_decide; simpl in *; lia.
Qed.

(** The invariant of a first touch in which no fetch fails: before the
    first lookup nothing has happened; after it there has been exactly one
    creation, and the one fetch is either started or about to be. *)
Definition single_flight (w : World) : Prop :=
  match tasks w !! k with
  | None => creations w = 0 ∧ fetches w = 0 ∧ Forall (fun c => c = Arrived) (callers w)
  | Some t => state t ≠ Fail ∧ creations w = 1 ∧ fetches w + pending (callers w) = 1
  end.

Lemma pending_all_arrived cs : Forall (fun c => c = Arrived) cs → pending cs = 0.
Proof.
  unfold pending. induction 1 as [|c cs -> _ IH]; [done|].
  rewrite filter_cons. case_decide; [done|exact IH].
Qed.

Lemma pending_all_waiting cs : Forall (fun c => c = Waiting) cs → pending cs = 0.
Proof.
  unfold pending. induction 1 as [|c cs -> _ IH]; [done|].
  rewrite filter_cons. case_decide; [done|exact IH].
Qed.

Lemma move_single_flight m w w' :
  m ≠ FetchEnds false →
  single_flight w → move k src pieceLen m w = Some w' → single_flight w'.
Proof.
  intros Hm Hinv. unfold single_flight in *. destruct m as [i now|i|ok]; simpl.
  - destruct (callers w !! i) as [[| |]|] eqn:Hi; try done.
    unfold CreateOrGet.
    pose proof (pending_insert (callers w) i Arrived) as Hp.
    destruct (tasks w !! k) as [t|] eqn:Ht.
    + destruct Hinv as (Hst & Hc & Hf).
      destruct (state t) eqn:Hs; [| |done]; intros [= <-]; simpl; rewrite Ht, Hs;
        (split; [done|]; split; [done|]);
        specialize (Hp (Observed false) Hi); unfold is_creator in Hp;
        repeat case_decide; try done; lia.
    + destruct Hinv as (Hc & Hf & Hall).
      intros [= <-]; simpl. rewrite lookup_insert_eq. simpl.
      split; [done|]. split; [lia|].
      specialize (Hp (Observed true) Hi). unfold is_creator in Hp.
      rewrite (pending_all_arrived _ Hall) in Hp.
      repeat case_decide; try done; lia.
  - destruct (callers w !! i) as [[|c|]|] eqn:Hi; try done.
    intros [= <-]; simpl.
    destruct (tasks w !! k) as [t|] eqn:Ht.
    + destruct Hinv as (Hst & Hc & Hf).
      split; [done|]. split; [done|].
      pose proof (pending_insert (callers w) i (Observed c) Waiting Hi) as Hp.
      unfold is_creator in Hp.
      destruct c; repeat case_decide; try done; lia.
    + destruct Hinv as (_ & _ & Hall).
      rewrite Forall_lookup in Hall. by specialize (Hall i _ Hi).
  - destruct ok; [|done]. unfold Transition.
    destruct (tasks w !! k) as [t|] eqn:Ht; [|done].
    destruct (decide (state t = Fetching)); [|done]. simpl.
    intros [= <-]; simpl. rewrite lookup_insert_eq. simpl.
    destruct Hinv as (Hst & Hc & Hf). done.
Qed.

Lemma move_callers_length m w w' :
  move k src pieceLen m w = Some w' → length (callers w') = length (callers w).
Proof.
  destruct m as [i now|i|ok]; simpl.
  - destruct (callers w !! i) as [[| |]|]; try done.
    destruct (CreateOrGet _ _ _ _ _) as [reg [t c]].
    intros [= <-]. simpl. by rewrite length_insert.
  - destruct (callers w !! i) as [[| |]|]; try done.
    intros [= <-]. simpl. by rewrite length_insert.
  - destruct (Transition _ _ _ _) as [reg [e|]]; [done|]. by intros [= <-].
Qed.

Definition is_lookup (m : Move) : Prop :=
  match m with
  | Lookup _ _ => True
  | _ => False
  end.

(** No caller reaches [CreateOrGet] after the fetch has failed. *)
Fixpoint no_lookup_after_failure (ms : list Move) : Prop :=
  match ms with
  | [] => True
  | FetchEnds false :: rest => Forall (fun m => ¬ is_lookup m) rest
  | _ :: rest => no_lookup_after_failure rest
  end.

(** Once no caller looks up any more, the count of creations stays, and so
    does the sum of fetches started and fetches about to be started. *)
Lemma play_without_lookup ms w w' :
  Forall (fun m => ¬ is_lookup m) ms →
  play k src pieceLen ms w = Some w' →
  creations w' = creations w
  ∧ fetches w' + pending (callers w') = fetches w + pending (callers w)
  ∧ length (callers w') = length (callers w).
Proof.
  revert w. induction ms as [|m ms IH]; intros w Hno; simpl.
  - by intros [= <-].
  - apply Forall_cons in Hno as [Hm Hno].
    destruct (move k src pieceLen m w) as [w1|] eqn:Hmove; [|done].
    intros Hplay. destruct (IH w1 Hno Hplay) as (-> & -> & ->).
    destruct m as [i now|i|ok]; simpl in Hmove.
    + by destruct Hm.
    + destruct (callers w !! i) as [[|c|]|] eqn:Hi; try done.
      injection Hmove as <-. simpl.
      pose proof (pending_insert (callers w) i (Observed c) Waiting Hi) as Hp.
      unfold is_creator in Hp. rewrite length_insert.
      destruct c; repeat case_decide; try done; (split; [done|split; [lia|done]]).
    + destruct (Transition _ _ _ _) as [reg [e|]]; [done|].
      by injection Hmove as <-.
Qed.

Lemma play_single_flight ms w w' :
  no_lookup_after_failure ms →
  single_flight w → play k src pieceLen ms w = Some w' →
  (single_flight w' ∨ (creations w' = 1 ∧ fetches w' + pending (callers w') = 1))
  ∧ length (callers w') = length (callers w).
Proof.
  revert w. induction ms as [|m ms IH]; intros w Hno Hinv; simpl.
  - intros [= <-]. split; [by left|done].
  - destruct (move k src pieceLen m w) as [w1|] eqn:Hm; [|done].
    intros Hplay. destruct (decide (m = FetchEnds false)) as [-> | Hne].
    + simpl in Hno. simpl in Hm. unfold Transition in Hm.
      unfold single_flight in Hinv.
      destruct (tasks w !! k) as [t|]; [|done].
      destruct Hinv as (_ & Hc & Hf).
      assert (creations w1 = creations w ∧ fetches w1 = fetches w
              ∧ callers w1 = callers w) as (Hc1 & Hf1 & Hcs1).
      { destruct (decide (state t = Fetching)); [|done]. simpl in Hm.
        by injection Hm as <-. }
      destruct (play_without_lookup ms w1 w' Hno Hplay) as (Hc' & Hf' & Hlen).
      split; [right; split; congruence|congruence].
    + assert (no_lookup_after_failure ms) as Hno'
        by (destruct m as [| |[|]]; done).
      destruct (IH w1 Hno') as [? Hlen]; [|done|].
      * by eapply move_single_flight.
      * split; [done|]. rewrite Hlen. by eapply move_callers_length.
Qed.

(** C1, as the model has it: let any number of callers, one at least, ask
    for a key the registry has not seen, their [CreateOrGet]s, their going
    on and the end of the fetch interleaved in any order; if no caller
    reaches [CreateOrGet] after the fetch has failed, then once all callers
    are waiting exactly one caller has observed [created = true] and
    exactly one fetch activity has been started. *)
Theorem first_touch_fetches_once (reg : gmap string Task) (n : nat) (ms : list Move)
    (w : World) :
  reg !! k = None →
  0 < n →
  no_lookup_after_failure ms →
  play k src pieceLen ms (first_touch reg n) = Some w →
  all_waiting w →
  creations w = 1 ∧ fetches w = 1.
Proof.
  intros Hnew Hn Hno Hplay Hall.
  destruct (play_single_flight ms (first_touch reg n) w Hno) as [Hinv Hlen]; [|done|].
  { unfold single_flight. simpl. rewrite Hnew.
    split; [done|]. split; [done|]. apply Forall_replicate. done. }
  simpl in Hlen. rewrite length_replicate in Hlen.
  unfold all_waiting in Hall.
  destruct Hinv as [Hinv | [Hc Hf]].
  - unfold single_flight in Hinv. destruct (tasks w !! k) as [t|].
    + destruct Hinv as (_ & Hc & Hf).
      rewrite (pending_all_waiting _ Hall) in Hf. lia.
    + destruct Hinv as (_ & _ & Harr).
      destruct (callers w) as [|c cs]; [simpl in Hlen; lia|].
      apply Forall_cons in Hall as [-> _]. by apply Forall_cons in Harr as [? _].
  - rewrite (pending_all_waiting _ Hall) in Hf. lia.
Qed.

End SingleFlight.

(** Two callers, and a fetch that fails once both have been through
    [CreateOrGet]. *)
Lemma first_touch_fetches_once_witness :
  ∃ w, play "task" {| url := "http://origin/blob"; expectedDigest := None |} 1024
         [Lookup 0 1; Proceed 0; Lookup 1 2; FetchEnds false; Proceed 1]
         (first_touch ∅ 2) = Some w
       ∧ creations w = 1 ∧ fetches w = 1.
Proof.
  eexists. split; [reflexivity|].
  eapply (first_touch_fetches_once "task" _ 1024 ∅ 2
            [Lookup 0 1; Proceed 0; Lookup 1 2; FetchEnds false; Proceed 1]).
  - reflexivity.
  - lia.
  - simpl. repeat constructor. intros [].
  - reflexivity.
  - repeat constructor.
Defined.

(** C1 as stated fails: of two callers for an unseen key, the first creates
    the task and starts the fetch; the fetch fails; the second caller then
    finds a failed entry, which [CreateOrGet] replaces, observes
    [created = true] as well and starts a second fetch. *)
Lemma first_touch_after_failure_fetches_twice :
  ∃ w, play "task" {| url := "http://origin/blob"; expectedDigest := None |} 1024
         [Lookup 0 1; Proceed 0; FetchEnds false; Lookup 1 2; Proceed 1]
         (first_touch ∅ 2) = Some w
       ∧ all_waiting w ∧ creations w = 2 ∧ fetches w = 2.
Proof.
  eexists. split; [reflexivity|]. split; [repeat constructor|]. split; reflexivity.
Qed.

(** ** The store and the free-capacity counter *)

Section Accounting.
Context `{Hasher}.

(** The bytes held by the store, over all tasks. *)
Definition used (ps : gmap string (gmap nat Piece)) : Z :=
  map_fold (fun _ pm acc => (task_bytes pm + acc)%Z) 0%Z ps.

Lemma task_bytes_empty : task_bytes ∅ = 0%Z.
Proof. unfold task_bytes. by rewrite map_fold_empty. Qed.

Lemma task_bytes_insert pm n p :
  pm !! n = None →
  task_bytes (<[n := p]> pm) = (Z.of_nat (length (data p)) + task_bytes pm)%Z.
Proof.
  intros Hn. unfold task_bytes.
  rewrite map_fold_insert_L; [done| |done]. intros. lia.
Qed.

Lemma task_bytes_nonneg pm : (0 ≤ task_bytes pm)%Z.
Proof.
  induction pm as [|n p pm Hn IH] using map_ind.
  - by rewrite task_bytes_empty.
  - rewrite task_bytes_insert by done. lia.
Qed.

Lemma used_empty : used ∅ = 0%Z.
Proof. unfold used. by rewrite map_fold_empty. Qed.

Lemma used_insert ps k pm :
  ps !! k = None → used (<[k := pm]> ps) = (task_bytes pm + used ps)%Z.
Proof.
  intros Hk. unfold used.
  rewrite map_fold_insert_L; [done| |done]. intros. lia.
Qed.

Lemma used_delete ps k pm :
  ps !! k = Some pm → used ps = (task_bytes pm + used (delete k ps))%Z.
Proof.
  intros Hk. rewrite <- (insert_delete_id ps k pm Hk) at 1.
  apply used_insert, lookup_delete_eq.
Qed.

Lemma used_replace ps k pm pm' :
  ps !! k = Some pm →
  used (<[k := pm']> ps) = (task_bytes pm' - task_bytes pm + used ps)%Z.
Proof.
  intros Hk. rewrite <- insert_delete_eq.
  rewrite used_insert by apply lookup_delete_eq.
  rewrite (used_delete ps k pm Hk). lia.
Qed.

Lemma used_nonneg ps : (0 ≤ used ps)%Z.
Proof.
  induction ps as [|k pm ps Hk IH] using map_ind.
  - by rewrite used_empty.
  - rewrite used_insert by done. pose proof (task_bytes_nonneg pm). lia.
Qed.

(** Every stored byte is off the counter, and the counter is not negative. *)
Definition accounted (s : PieceStore) : Prop :=
  (free s + used (pieces s) = total s)%Z ∧ (0 ≤ free s)%Z.

Lemma accounted_bounds s : accounted s → (0 ≤ free s ≤ total s)%Z.
Proof. intros [Hsum Hpos]. pose proof (used_nonneg (pieces s)). lia. Qed.

Lemma Put_accounted r bs s s' :
  accounted s → (Z.of_nat (length bs) ≤ free s)%Z →
  Put r bs s = (s', None) → accounted s' ∧ total s' = total s.
Proof.
  intros [Hsum Hpos] Hroom. unfold Put.
  destruct (pieces s !! taskKey r) as [pm|] eqn:Hk; simpl.
  - destruct (pm !! seq r) eqn:Hn; [done|]. intros [= <-].
    unfold accounted. simpl.
    split; [|done]. split; [|lia].
    rewrite (used_replace _ _ pm) by done.
    rewrite task_bytes_insert by done. simpl. lia.
  - rewrite lookup_empty. intros [= <-].
    unfold accounted. simpl.
    split; [|done]. split; [|lia].
    rewrite used_insert by done.
    rewrite task_bytes_insert by apply lookup_empty.
    rewrite task_bytes_empty. simpl. lia.
Qed.

Lemma DeleteTask_accounted k s :
  accounted s →
  accounted (DeleteTask k s).1 ∧ total (DeleteTask k s).1 = total s
  ∧ (free s ≤ free (DeleteTask k s).1)%Z.
Proof.
  intros [Hsum Hpos]. unfold DeleteTask.
  destruct (pieces s !! k) as [pm|] eqn:Hk; simpl; [|done].
  pose proof (task_bytes_nonneg pm).
  unfold accounted. simpl.
  split; [|split; [done|lia]]. split; [|lia].
  rewrite (used_delete _ _ _ Hk) in Hsum. lia.
Qed.

Lemma evict_accounted required vs sys :
  accounted (store sys) →
  accounted (store (evict required vs sys).1)
  ∧ total (store (evict required vs sys).1) = total (store sys)
  ∧ (free (store sys) ≤ free (store (evict required vs sys).1))%Z.
Proof.
  revert sys. induction vs as [|v vs IH]; intros sys Hacc; simpl.
  - destruct (required <=? FreeCapacity (store sys))%Z; simpl; (split; [done|split; [done|lia]]).
  - destruct (required <=? FreeCapacity (store sys))%Z; simpl; [split; [done|split; [done|lia]]|].
    destruct (DeleteTask_accounted v (store sys) Hacc) as (Hacc1 & Htot1 & Hfree1).
    specialize (IH (delete_victim v sys)). simpl in IH.
    destruct (IH Hacc1) as (Hacc2 & Htot2 & Hfree2).
    destruct (evict required vs (delete_victim v sys)) as [sys' gone]. simpl in *.
    split; [done|]. split; [congruence|lia].
Qed.

Lemma EnsureCapacity_accounted required sys :
  accounted (store sys) →
  let r := EnsureCapacity required sys in
  accounted (store r.1) ∧ total (store r.1) = total (store sys)
  ∧ (r.2.2 = None → (required ≤ free (store r.1))%Z).
Proof.
  intros Hacc. unfold EnsureCapacity. simpl.
  destruct (evict_accounted required (fst <$> candidates sys) sys Hacc) as (? & ? & ?).
  split; [done|]. split; [done|].
  unfold FreeCapacity. destruct (required <=? _)%Z eqn:Hle; [|done].
  intros _. by apply Z.leb_le.
Qed.

Lemma write_piece_accounted k pieceLen n bs sys :
  accounted (store sys) →
  accounted (store (write_piece k pieceLen n bs sys).1)
  ∧ total (store (write_piece k pieceLen n bs sys).1) = total (store sys).
Proof.
  intros Hacc. unfold write_piece.
  pose proof (EnsureCapacity_accounted (Z.of_nat (length bs)) sys Hacc) as Hens.
  destruct (EnsureCapacity (Z.of_nat (length bs)) sys) as [sys1 [freed e1]].
  simpl in Hens. destruct Hens as (Hacc1 & Htot1 & Hroom).
  destruct e1 as [err|]; simpl; [done|].
  destruct (Put _ bs (store sys1)) as [st [err|]] eqn:HPut; simpl; [done|].
  destruct (Put_accounted _ _ _ _ Hacc1 (Hroom eq_refl) HPut). split; [done|congruence].
Qed.

Lemma write_pieces_accounted k pieceLen n chunks sys :
  accounted (store sys) →
  accounted (store (write_pieces k pieceLen n chunks sys).1)
  ∧ total (store (write_pieces k pieceLen n chunks sys).1) = total (store sys).
Proof.
  revert n sys. induction chunks as [|c cs IH]; intros n sys Hacc; simpl; [done|].
  destruct (write_piece_accounted k pieceLen n c sys Hacc) as [Hacc1 Htot1].
  destruct (write_piece k pieceLen n c sys) as [sys1 [err|]]; simpl in *; [done|].
  destruct (IH (S n) sys1 Hacc1) as [? ?]. split; [done|congruence].
Qed.

Lemma finish_store k n sys : store (finish k n sys).1 = store sys.
Proof.
  unfold finish. destruct (registry sys !! k) as [t|]; [|done].
  destruct (expectedDigest (source t)) as [want|].
  - case_decide; [|done].
    by destruct (Transition k Fetching Success (registry sys)) as [reg [e|]].
  - by destruct (Transition k Fetching Success (registry sys)) as [reg [e|]].
Qed.

Lemma attempts_accounted retries fs up k pieceLen n sys :
  accounted (store sys) →
  accounted (store (attempts retries fs up k pieceLen n sys).1)
  ∧ total (store (attempts retries fs up k pieceLen n sys).1) = total (store sys).
Proof.
  revert fs n sys. induction retries as [|r IH]; intros fs n sys Hacc; simpl;
    destruct (deliver fs (drop (n * pieceLen) (content up))) as [delivered clean];
    pose proof (write_pieces_accounted k pieceLen n
                  (attempt_pieces pieceLen delivered clean) sys Hacc) as [Hacc1 Htot1];
    destruct (write_pieces k pieceLen n _ sys) as [sys1 [n1 [err|]]]; simpl in *;
    try done;
    (destruct clean; [by rewrite finish_store|]); try done.
  destruct (supportsRange up); [|done].
  destruct (IH (tail fs) n1 sys1 Hacc1) as [? ?]. split; [done|congruence].
Qed.

Lemma Fetch_accounted up maxRetries k sys :
  accounted (store sys) →
  accounted (store (Fetch up maxRetries k sys).1)
  ∧ total (store (Fetch up maxRetries k sys).1) = total (store sys).
Proof.
  intros Hacc. unfold Fetch. destruct (registry sys !! k) as [t|]; [|done].
  case_decide; [|done]. by apply attempts_accounted.
Qed.

Lemma exec_accounted o sys :
  accounted (store sys) →
  accounted (store (exec o sys)) ∧ total (store (exec o sys)) = total (store sys).
Proof.
  intros Hacc. destruct o; simpl; try done.
  - destruct (fetching k sys); [|done]. by apply write_piece_accounted.
  - by apply Fetch_accounted.
  - by destruct ok.
  - destruct (EnsureCapacity_accounted required sys Hacc) as (? & ? & _). done.
  - destruct (DeleteTask_accounted k (store sys) Hacc) as (? & ? & _). done.
Qed.

Lemma run_accounted ops sys :
  accounted (store sys) →
  accounted (store (run ops sys)) ∧ total (store (run ops sys)) = total (store sys).
Proof.
  revert sys. induction ops as [|o ops IH]; intros sys Hacc; simpl; [done|].
  destruct (exec_accounted o sys Hacc) as [Hacc1 Htot1].
  destruct (IH (exec o sys) Hacc1) as [? ?]. split; [done|congruence].
Qed.

(** C6: start from an empty store with the configured capacity and let the
    operations of the system (piece writes and whole fetches of the source
    fetcher, calls of the eviction controller, invalidations, and the
    registry and notifier operations in between) follow one another in any
    order and number: after every one of them the free-capacity counter is
    at least 0 and at most the configured total.  A piece write is the
    fetcher's step for one piece as a whole (EnsureCapacity, Put, Publish);
    the steps of different tasks interleave freely. *)
Theorem free_capacity_within_bounds (capacity : Z) (ops : list Op) :
  (0 ≤ capacity)%Z →
  let s := store (run ops (initial capacity)) in
  (0 ≤ free s ≤ capacity)%Z ∧ total s = capacity.
Proof.
  intros Hcap.
  destruct (run_accounted ops (initial capacity)) as [Hacc Htot].
  { split; [|done]. simpl. rewrite used_empty. lia. }
  simpl in Htot. simpl. split; [|done].
  pose proof (accounted_bounds _ Hacc) as Hb. rewrite Htot in Hb. exact Hb.
Qed.

End Accounting.

(** ** Eviction order *)

Section Eviction.
Context `{Hasher}.

#[local] Instance lru_le_total : Total lru_le.
Proof. intros a b. unfold lru_le. lia. Qed.

(** The victims [vs] deleted from [sys], one after the other. *)
Definition delete_all (vs : list string) (sys : System) : System :=
  foldl (fun s v => delete_victim v s) sys vs.

Lemma evict_spec required vs sys :
  let r := evict required vs sys in
  r.2 `prefix_of` vs
  ∧ r.1 = delete_all r.2 sys
  ∧ (∀ i, i < length r.2 →
       (FreeCapacity (store (delete_all (take i r.2) sys)) < required)%Z)
  ∧ ((required ≤ FreeCapacity (store r.1))%Z ∨ r.2 = vs).
Proof.
  revert sys. induction vs as [|v vs IH]; intros sys; simpl.
  - destruct (required <=? FreeCapacity (store sys))%Z; simpl;
      (split; [done|]; split; [done|]; split; [intros; lia|by right]).
  - destruct (required <=? FreeCapacity (store sys))%Z eqn:Hle; simpl.
    + split; [apply prefix_nil|]. split; [done|]. split; [intros; lia|].
      left. by apply Z.leb_le.
    + specialize (IH (delete_victim v sys)). simpl in IH.
      destruct (evict required vs (delete_victim v sys)) as [sys' gone].
      simpl in *. destruct IH as (Hpre & Heq & Hlt & Hend).
      split; [by apply prefix_cons|]. split; [done|]. split.
      * intros [|i] Hi; simpl; [by apply Z.leb_gt|]. apply Hlt. lia.
      * destruct Hend as [?| ->]; [by left|by right].
Qed.

Lemma evict_enough required vs sys :
  (required ≤ FreeCapacity (store sys))%Z → evict required vs sys = (sys, []).
Proof.
  intros Hle. apply Z.leb_le in Hle. destruct vs; simpl; by rewrite Hle.
Qed.

Lemma evict_short required v vs sys :
  (FreeCapacity (store sys) < required)%Z →
  evict required (v :: vs) sys
  = ((evict required vs (delete_victim v sys)).1,
     v :: (evict required vs (delete_victim v sys)).2).
Proof.
  intros Hlt. apply Z.leb_gt in Hlt. simpl. rewrite Hlt.
  by destruct (evict required vs (delete_victim v sys)).
Qed.

Lemma sorted_pair {A} (R : relation A) (l : list A) x y :
  Sorted R l → l ≡ₚ [x; y] → ¬ R y x → l = [x; y].
Proof.
  intros Hs Hp Hn. symmetry in Hp.
  apply Permutation.Permutation_length_2_inv in Hp as [-> | ->]; [done|].
  apply Sorted_inv in Hs as [_ Hh]. apply HdRel_inv in Hh. done.
Qed.

(** The scenario's system: two completed tasks [ka] and [kb] holding
    [pa] and [pb], the task [kc] being fetched, a store of 2048 bytes
    that is full. *)
Definition two_cached (ka kb kc : string) (ta tb tc : Task)
    (pa pb : gmap nat Piece) (nt : gmap string Channel) : System :=
  {| store := {| pieces := <[ka := pa]> {[ kb := pb ]}; free := 0; total := 2048 |};
     registry := <[ka := ta]> (<[kb := tb]> {[ kc := tc ]});
     notifier := nt |}.

Lemma two_cached_candidates ka kb kc ta tb tc pa pb nt :
  ka ≠ kb → ka ≠ kc → kb ≠ kc →
  state ta = Success → state tb = Success → state tc = Fetching →
  has_subscribers nt ka = false → has_subscribers nt kb = false →
  lastAccessed ta < lastAccessed tb →
  candidates (two_cached ka kb kc ta tb tc pa pb nt) = [(ka, ta); (kb, tb)].
Proof.
  intros Hab Hac Hbc Hsa Hsb Hsc Hna Hnb Hlt.
  unfold candidates. apply (sorted_pair lru_le).
  - apply Sorted_merge_sort. apply _.
  - rewrite merge_sort_Permutation. unfold List, two_cached. simpl.
    rewrite map_to_list_insert by (by simplify_map_eq).
    rewrite map_to_list_insert by (by simplify_map_eq).
    rewrite map_to_list_singleton.
    rewrite !filter_cons, filter_nil. unfold candidate. simpl.
    rewrite Hsa, Hsb, Hsc, Hna, Hnb. simpl.
    repeat case_decide; done.
  - unfold lru_le. simpl. lia.
Qed.

(** C5: the eviction controller takes its candidates least recently
    accessed first, ties by creation time; it deletes them in this order,
    one at a time, each only when the free capacity, looked at again, is
    still short, and stops when the requirement is met or the candidates
    are used up.  Hence, with a full store of 2048 bytes holding two
    completed tasks of 1024 bytes each, a call for 1024 bytes deletes the
    less recently accessed task and nothing else. *)
Theorem EnsureCapacity_evicts_least_recently_used :
  (∀ (required : Z) (sys : System),
      let order := candidates sys in
      let gone := victims_of required sys in
      Sorted lru_le order
      ∧ order ≡ₚ List (candidate sys) (registry sys)
      ∧ gone `prefix_of` (fst <$> order)
      ∧ (EnsureCapacity required sys).1 = delete_all gone sys
      ∧ (∀ i, i < length gone →
           (FreeCapacity (store (delete_all (take i gone) sys)) < required)%Z)
      ∧ ((required ≤ FreeCapacity (store (EnsureCapacity required sys).1))%Z
         ∨ gone = fst <$> order))
  ∧ (∀ ka kb kc ta tb tc pa pb nt,
      ka ≠ kb → ka ≠ kc → kb ≠ kc →
      state ta = Success → state tb = Success → state tc = Fetching →
      has_subscribers nt ka = false → has_subscribers nt kb = false →
      task_bytes pa = 1024%Z → task_bytes pb = 1024%Z →
      lastAccessed ta < lastAccessed tb →
      let sys := two_cached ka kb kc ta tb tc pa pb nt in
      let sys' := (EnsureCapacity 1024 sys).1 in
      victims_of 1024 sys = [ka]
      ∧ (EnsureCapacity 1024 sys).2 = (1024%Z, None)
      ∧ registry sys' !! ka = None ∧ pieces (store sys') !! ka = None
      ∧ registry sys' !! kb = Some tb ∧ pieces (store sys') !! kb = Some pb
      ∧ registry sys' !! kc = Some tc).
Proof.
  split.
  - intros required sys. simpl.
    split; [apply Sorted_merge_sort; apply _|].
    split; [apply merge_sort_Permutation|].
    unfold victims_of, EnsureCapacity. simpl.
    apply (evict_spec required (fst <$> candidates sys) sys).
  - intros ka kb kc ta tb tc pa pb nt Hab Hac Hbc Hsa Hsb Hsc Hna Hnb Hba Hbb Hlt.
    simpl. unfold victims_of, EnsureCapacity.
    rewrite (two_cached_candidates ka kb kc ta tb tc pa pb nt) by done.
    set (sys := two_cached ka kb kc ta tb tc pa pb nt).
    assert (delete_victim ka sys
            = {| store := {| pieces := delete ka (<[ka := pa]> {[ kb := pb ]});
                             free := 1024; total := 2048 |};
                 registry := delete ka (<[ka := ta]> (<[kb := tb]> {[ kc := tc ]}));
                 notifier := delete ka nt |}) as Hdel.
    { unfold delete_victim, DeleteTask, sys, two_cached. simpl.
      rewrite lookup_insert_eq. simpl. by rewrite Hba. }
    assert (evict 1024 [ka; kb] sys = (delete_victim ka sys, [ka])) as Hev.
    { rewrite evict_short by (unfold sys, two_cached; simpl; lia).
      rewrite evict_enough; [done|]. rewrite Hdel. simpl. lia. }
    change (fst <$> [(ka, ta); (kb, tb)]) with [ka; kb].
    rewrite Hev. cbn [fst snd]. rewrite Hdel.
    cbn [store registry notifier FreeCapacity free pieces].
    unfold sys, two_cached. cbn [store registry notifier FreeCapacity free pieces].
    split; [done|]. split; [done|].
    by simplify_map_eq.
Qed.

End Eviction.

(** ** Splitting a source into pieces *)

Section Splitting.
Implicit Types (bs : list Byte.byte) (P : nat).

Lemma split_fuel_lookup fuel P bs i :
  0 < P → length bs ≤ fuel →
  split_fuel fuel P bs !! i
  = if decide (i * P < length bs) then Some (take P (drop (i * P) bs)) else None.
Proof.
  intros HP. revert bs i. induction fuel as [|fuel IH]; intros bs i Hlen.
  - destruct bs; [|simpl in Hlen; lia]. cbn [split_fuel length].
    rewrite lookup_nil. by rewrite decide_False by lia.
  - destruct bs as [|b bs'].
    { cbn [split_fuel length]. rewrite lookup_nil. by rewrite decide_False by lia. }
    change (split_fuel (S fuel) P (b :: bs'))
      with (take P (b :: bs') :: split_fuel fuel P (drop P (b :: bs'))).
    destruct i as [|j].
    + cbn [lookup list_lookup length]. rewrite decide_True by (simpl; lia). done.
    + change ((take P (b :: bs') :: split_fuel fuel P (drop P (b :: bs'))) !! S j)
        with (split_fuel fuel P (drop P (b :: bs')) !! j).
      rewrite IH by (rewrite length_drop; simpl in *; lia).
      rewrite length_drop, drop_drop.
      replace (P + j * P) with (S j * P) by lia.
      repeat case_decide; try done; simpl in *; lia.
Qed.

Lemma split_pieces_lookup P bs i :
  0 < P →
  split_pieces P bs !! i
  = if decide (i * P < length bs) then Some (take P (drop (i * P) bs)) else None.
Proof. intros HP. unfold split_pieces. by apply split_fuel_lookup. Qed.

Lemma split_pieces_cons P bs :
  0 < P → bs ≠ [] →
  split_pieces P bs = take P bs :: split_pieces P (drop P bs).
Proof.
  intros HP Hne. apply list_eq. intros [|j].
  - rewrite split_pieces_lookup by done. simpl.
    destruct bs; [done|]. case_decide; [done|simpl in *; lia].
  - simpl. rewrite !split_pieces_lookup by done.
    rewrite length_drop, drop_drop.
    replace (P + j * P) with (S j * P) by lia.
    repeat case_decide; try done; lia.
Qed.

(** The number of pieces is the length divided by the piece length,
    rounded up. *)
Lemma split_pieces_length P bs :
  0 < P → length (split_pieces P bs) = (length bs + P - 1) / P.
Proof.
  intros HP. set (n := length (split_pieces P bs)).
  assert (¬ n * P < length bs) as Hupper.
  { intros Hlt.
    assert (is_Some (split_pieces P bs !! n)) as Hs
      by (rewrite split_pieces_lookup by done; case_decide; [by eexists|lia]).
    apply lookup_lt_is_Some in Hs. unfold n in Hs. lia. }
  assert (n = 0 ∨ (n - 1) * P < length bs) as Hlower.
  { destruct n as [|m] eqn:Hn; [by left|right].
    assert (is_Some (split_pieces P bs !! m)) as Hs
      by (apply lookup_lt_is_Some; fold n; lia).
    rewrite split_pieces_lookup in Hs by done.
    case_decide; [|by destruct Hs]. replace (S m - 1) with m by lia. done. }
  apply (Nat.div_unique _ _ _ (length bs + P - 1 - n * P));
    destruct Hlower as [Hz | Hlower]; nia.
Qed.

(** Every piece but the last has the piece length; the last has what is
    left. *)
Lemma split_pieces_lengths P bs i c :
  0 < P → split_pieces P bs !! i = Some c →
  length c = if decide (S i = length (split_pieces P bs))
             then length bs - P * i else P.
Proof.
  intros HP Hc.
  assert (i < length (split_pieces P bs)) as Hi by (by eapply lookup_lt_Some).
  rewrite split_pieces_lookup in Hc by done.
  case_decide as Hlt; [|done]. injection Hc as <-.
  rewrite length_take, length_drop.
  case_decide as Hlast.
  - assert (split_pieces P bs !! S i = None) as Hnone
      by (apply lookup_ge_None; lia).
    rewrite split_pieces_lookup in Hnone by done.
    case_decide; [done|]. lia.
  - assert (is_Some (split_pieces P bs !! S i)) as Hs
      by (apply lookup_lt_is_Some; lia).
    rewrite split_pieces_lookup in Hs by done.
    case_decide; [|by destruct Hs]. lia.
Qed.

Lemma split_pieces_concat P bs : 0 < P → concat (split_pieces P bs) = bs.
Proof.
  intros HP. remember (length bs) as n eqn:Hn. revert bs Hn.
  induction n as [n IH] using lt_wf_ind. intros bs Hn.
  destruct bs as [|b bs']; [done|].
  rewrite split_pieces_cons by done. simpl concat.
  rewrite (IH (length (drop P (b :: bs')))); [apply take_drop| |done].
  rewrite length_drop. simpl in *. lia.
Qed.

(** On a broken stream the full pieces are the pieces of the longest
    prefix that is a whole number of pieces. *)
Lemma full_pieces_prefix P bs :
  0 < P →
  filter (fun c => length c = P) (split_pieces P bs)
  = split_pieces P (take (length bs / P * P) bs).
Proof.
  intros HP. remember (length bs) as n eqn:Hn. revert bs Hn.
  induction n as [n IH] using lt_wf_ind. intros bs Hn.
  destruct bs as [|b bs']; [by rewrite take_nil|].
  rewrite split_pieces_cons by done. rewrite filter_cons.
  destruct (decide (P ≤ n)) as [Hfull|Hshort].
  - assert (n / P * P = P + (n - P) / P * P) as Hdiv.
    { assert (n / P = S ((n - P) / P)) as ->; [|lia].
      replace n with ((n - P) + 1 * P) at 1 by lia.
      rewrite Nat.div_add by lia. lia. }
    rewrite decide_True by (rewrite length_take; lia).
    rewrite (IH (n - P)); [|lia|rewrite length_drop; lia].
    rewrite Hdiv.
    rewrite (split_pieces_cons P (take _ (b :: bs'))); [|done|].
    + f_equal.
      * rewrite take_take. f_equal. lia.
      * f_equal. rewrite <- take_drop_commute. done.
    + intros Hnil. apply (f_equal length) in Hnil.
      rewrite length_take in Hnil. simpl in *. lia.
  - rewrite decide_False by (rewrite length_take; lia).
    rewrite Nat.div_small by lia. simpl.
    destruct (decide (drop P (b :: bs') = [])) as [-> | Hne]; [done|].
    exfalso. apply Hne. apply drop_ge. lia.
Qed.

End Splitting.

(** ** What a fetch does to the store *)

Section Fetching.
Context `{Hasher}.

(** The pieces stored under a key (none for a key the store has not seen). *)
Definition pieces_at (k : string) (s : PieceStore) : gmap nat Piece :=
  default ∅ (pieces s !! k).

(** The piece the fetcher stores for chunk [c] at sequence number [i]. *)
Definition piece_of (k : string) (pieceLen i : nat) (c : list Byte.byte) : Piece :=
  {| meta := {| taskKey := k; seq := i; offset := i * pieceLen;
                len := length c; checksum := digest c |};
     data := c |}.

(** The task [k] is registered as [t] and is being fetched. *)
Definition in_flight (k : string) (t : Task) (sys : System) : Prop :=
  registry sys !! k = Some t ∧ state t = Fetching.

(** Between two stores, every task other than [k] is as it was or gone. *)
Definition others_kept (k : string) (s s' : PieceStore) : Prop :=
  ∀ κ, κ ≠ k → pieces s' !! κ = pieces s !! κ ∨ pieces s' !! κ = None.

(** Between two stores, the pieces of [k] are all still there, unchanged,
    and every other task is as it was or gone. *)
Definition grows (k : string) (s s' : PieceStore) : Prop :=
  (∀ i p, pieces_at k s !! i = Some p → pieces_at k s' !! i = Some p)
  ∧ others_kept k s s'.

Lemma others_kept_refl k s : others_kept k s s.
Proof. intros κ _. by left. Qed.

Lemma others_kept_trans k s1 s2 s3 :
  others_kept k s1 s2 → others_kept k s2 s3 → others_kept k s1 s3.
Proof.
  intros H12 H23 κ Hκ.
  destruct (H23 κ Hκ) as [-> | ->]; [by apply H12|by right].
Qed.

Lemma grows_refl k s : grows k s s.
Proof. split; [done|apply others_kept_refl]. Qed.

Lemma grows_trans k s1 s2 s3 : grows k s1 s2 → grows k s2 s3 → grows k s1 s3.
Proof.
  intros [Ha1 Hb1] [Ha2 Hb2]. split; [by auto|by eapply others_kept_trans].
Qed.

(** Between two stores, whatever is under [k] was there already or is a
    piece the fetcher built for that very sequence number. *)
Definition fresh_only (k : string) (pieceLen : nat) (s s' : PieceStore) : Prop :=
  ∀ i p, pieces_at k s' !! i = Some p →
    pieces_at k s !! i = Some p ∨ ∃ c, p = piece_of k pieceLen i c.

Definition extends (k : string) (pieceLen : nat) (s s' : PieceStore) : Prop :=
  grows k s s' ∧ fresh_only k pieceLen s s'.

Lemma extends_refl k pieceLen s : extends k pieceLen s s.
Proof. split; [apply grows_refl|]. intros i p Hp. by left. Qed.

Lemma extends_trans k pieceLen s1 s2 s3 :
  extends k pieceLen s1 s2 → extends k pieceLen s2 s3 → extends k pieceLen s1 s3.
Proof.
  intros [Hg1 Hf1] [Hg2 Hf2]. split; [by eapply grows_trans|].
  intros i p Hp. destruct (Hf2 i p Hp) as [Hold | Hnew]; [by apply Hf1|by right].
Qed.

Lemma candidates_success sys v :
  v ∈ fst <$> candidates sys → ∃ t, registry sys !! v = Some t ∧ state t = Success.
Proof.
  intros Hin. apply list_elem_of_fmap in Hin as ([v' t] & -> & Hin).
  unfold candidates in Hin. rewrite merge_sort_Permutation in Hin.
  unfold List in Hin. apply list_elem_of_filter in Hin as [Hc Hin].
  apply elem_of_map_to_list in Hin. exists t. split; [done|].
  unfold candidate in Hc. apply andb_true_iff in Hc as [Hc _].
  by apply bool_decide_eq_true in Hc.
Qed.

Lemma delete_victim_lookup v κ sys :
  pieces (store (delete_victim v sys)) !! κ
  = if decide (v = κ) then None else pieces (store sys) !! κ.
Proof.
  unfold delete_victim, DeleteTask. simpl.
  destruct (pieces (store sys) !! v) eqn:Hv; simpl.
  - by rewrite lookup_delete.
  - case_decide; [by subst|done].
Qed.

Lemma evict_lookup required vs sys κ :
  (κ ∉ vs →
     registry (evict required vs sys).1 !! κ = registry sys !! κ
     ∧ pieces (store (evict required vs sys).1) !! κ = pieces (store sys) !! κ)
  ∧ (pieces (store (evict required vs sys).1) !! κ = pieces (store sys) !! κ
     ∨ pieces (store (evict required vs sys).1) !! κ = None).
Proof.
  revert sys. induction vs as [|v vs IH]; intros sys; simpl.
  - destruct (required <=? FreeCapacity (store sys))%Z; simpl; (split; [done|by left]).
  - destruct (required <=? FreeCapacity (store sys))%Z; simpl; [split; [done|by left]|].
    specialize (IH (delete_victim v sys)).
    destruct (evict required vs (delete_victim v sys)) as [sys' gone].
    cbn [fst snd] in *. destruct IH as [IHa IHb].
    pose proof (delete_victim_lookup v κ sys) as Hd. split.
    + intros Hnot. apply not_elem_of_cons in Hnot as [Hne Hnot].
      destruct (IHa Hnot) as [-> ->]. rewrite Hd.
      rewrite decide_False by done. split; [|done].
      unfold delete_victim. simpl. by apply lookup_delete_ne.
    + destruct IHb as [-> | ->]; [|by right].
      rewrite Hd. case_decide; [by right|by left].
Qed.

Lemma EnsureCapacity_frame required k t sys :
  in_flight k t sys →
  in_flight k t (EnsureCapacity required sys).1
  ∧ pieces (store (EnsureCapacity required sys).1) !! k = pieces (store sys) !! k
  ∧ others_kept k (store sys) (store (EnsureCapacity required sys).1).
Proof.
  intros [Hreg Hst]. unfold EnsureCapacity. simpl.
  assert (k ∉ fst <$> candidates sys) as Hnot.
  { intros Hin. apply candidates_success in Hin as (t' & Ht' & Hs).
    rewrite Hreg in Ht'. injection Ht' as <-. congruence. }
  destruct (evict_lookup required (fst <$> candidates sys) sys k) as [Hk _].
  destruct (Hk Hnot) as [Hr Hp].
  split; [split; [by rewrite Hr|done]|]. split; [done|].
  intros κ _. apply (evict_lookup required (fst <$> candidates sys) sys κ).
Qed.

Lemma write_piece_spec k pieceLen n c t sys :
  in_flight k t sys →
  let r := write_piece k pieceLen n c sys in
  in_flight k t r.1
  ∧ others_kept k (store sys) (store r.1)
  ∧ match r.2 with
    | None =>
        pieces_at k (store sys) !! n = None
        ∧ pieces_at k (store r.1) = <[n := piece_of k pieceLen n c]> (pieces_at k (store sys))
    | Some _ => pieces_at k (store r.1) = pieces_at k (store sys)
    end.
Proof.
  intros Hfl. unfold write_piece.
  pose proof (EnsureCapacity_frame (Z.of_nat (length c)) k t sys Hfl) as Hens.
  destruct (EnsureCapacity (Z.of_nat (length c)) sys) as [sys1 [freed e1]].
  simpl in Hens. destruct Hens as (Hfl1 & Hk1 & Hothers).
  destruct e1 as [err|]; simpl.
  { split; [done|]. split; [done|]. unfold pieces_at. by rewrite Hk1. }
  unfold Put. simpl. fold (pieces_at k (store sys1)).
  assert (pieces_at k (store sys1) = pieces_at k (store sys)) as Hat
    by (unfold pieces_at; by rewrite Hk1).
  destruct (pieces_at k (store sys1) !! n) as [p|] eqn:Hn; simpl.
  { split; [done|]. split; [done|]. done. }
  split; [done|]. split.
  - intros κ Hκ. cbn [pieces]. rewrite lookup_insert_ne by done. by apply Hothers.
  - rewrite <- Hat. split; [done|].
    unfold pieces_at at 1. cbn [pieces]. by rewrite lookup_insert_eq.
Qed.


Lemma write_pieces_spec k pieceLen t chunks n sys :
  in_flight k t sys →
  let r := write_pieces k pieceLen n chunks sys in
  in_flight k t r.1
  ∧ others_kept k (store sys) (store r.1)
  ∧ ∃ w, r.2.1 = n + w ∧ w ≤ length chunks ∧ (r.2.2 = None → w = length chunks)
      ∧ (∀ i, n ≤ i < n + w → pieces_at k (store sys) !! i = None)
      ∧ (∀ i, pieces_at k (store r.1) !! i
              = if decide (n ≤ i < n + w)
                then piece_of k pieceLen i <$> chunks !! (i - n)
                else pieces_at k (store sys) !! i).
Proof.
  revert n sys. induction chunks as [|c cs IH]; intros n sys Hfl; simpl.
  - split; [done|]. split; [apply others_kept_refl|].
    exists 0. split; [lia|]. split; [done|]. split; [done|]. split; [intros; lia|].
    intros i. by rewrite decide_False by lia.
  - pose proof (write_piece_spec k pieceLen n c t sys Hfl) as Hw.
    destruct (write_piece k pieceLen n c sys) as [sys1 [err|]]; simpl in Hw |- *.
    + destruct Hw as (Hfl1 & Hoth & Hsame).
      split; [done|]. split; [done|].
      exists 0. split; [lia|]. split; [lia|]. split; [done|]. split; [intros; lia|].
      intros i. rewrite decide_False by lia. by rewrite Hsame.
    + destruct Hw as (Hfl1 & Hoth & Hfree & Hins).
      specialize (IH (S n) sys1 Hfl1). simpl in IH.
      destruct (write_pieces k pieceLen (S n) cs sys1) as [sys2 [n2 e2]].
      simpl in *. destruct IH as (Hfl2 & Hoth2 & w & -> & Hle & Hall & Hnone & Hlook).
      split; [done|]. split; [by eapply others_kept_trans|].
      exists (S w). split; [lia|]. split; [lia|].
      split; [intros He; rewrite (Hall He); done|]. split.
      * intros i Hi. destruct (decide (i = n)) as [-> | Hne]; [done|].
        specialize (Hnone i). rewrite Hins, lookup_insert_ne in Hnone by done.
        apply Hnone. lia.
      * intros i. rewrite Hlook, Hins.
        destruct (decide (i = n)) as [-> | Hne].
        -- rewrite lookup_insert_eq. repeat case_decide; try lia.
           rewrite Nat.sub_diag. reflexivity.
        -- rewrite lookup_insert_ne by done. repeat case_decide; try lia; [|done].
           replace (i - n) with (S (i - S n)) by lia. reflexivity.
Qed.

Lemma finish_spec k n t sys sys' :
  in_flight k t sys → finish k n sys = (sys', None) →
  let consumed := read_back (pieces_at k (store sys)) n in
  store sys' = store sys
  ∧ registry sys' !! k
    = Some (record_result (digest consumed) (length consumed) (with_state Success t)).
Proof.
  intros [Hreg Hst]. unfold finish. fold (pieces_at k (store sys)).
  rewrite Hreg. unfold Transition. rewrite Hreg.
  rewrite decide_True by done. simpl.
  destruct (expectedDigest (source t)) as [want|].
  - case_decide; [|done]. intros [= <-]. simpl. split; [done|].
    rewrite lookup_alter_eq, lookup_insert_eq. done.
  - intros [= <-]. simpl. split; [done|].
    rewrite lookup_alter_eq, lookup_insert_eq. done.
Qed.

(** The pieces of [k] are the sequence numbers below [n], without gaps. *)
Definition contiguous (k : string) (n : nat) (s : PieceStore) : Prop :=
  ∀ i, is_Some (pieces_at k s !! i) ↔ i < n.

Lemma contiguous_dom k n s :
  contiguous k n s ↔ dom (pieces_at k s) = (set_seq 0 n : gset nat).
Proof.
  unfold contiguous. split.
  - intros Hc. apply set_eq. intros i.
    rewrite elem_of_dom, elem_of_set_seq, Hc. lia.
  - intros Hd i. rewrite <- elem_of_dom, Hd, elem_of_set_seq. lia.
Qed.

Lemma contiguous_size k n s : contiguous k n s → size (pieces_at k s) = n.
Proof.
  intros Hc. apply contiguous_dom in Hc.
  rewrite <- size_dom, Hc. apply size_set_seq.
Qed.

Lemma attempts_spec retries up k pieceLen t fs n sys :
  in_flight k t sys →
  let r := attempts retries fs up k pieceLen n sys in
  extends k pieceLen (store sys) (store r.1)
  ∧ (contiguous k n (store sys) →
     ∃ N, contiguous k N (store r.1)
          ∧ (r.2 = None → ∃ t', registry r.1 !! k = Some t' ∧ state t' = Success)).
Proof.
  revert fs n sys. induction retries as [|retries IH]; intros fs n sys Hfl; simpl;
    destruct (deliver fs (drop (n * pieceLen) (content up))) as [delivered clean];
    pose proof (write_pieces_spec k pieceLen t
                  (attempt_pieces pieceLen delivered clean) n sys Hfl) as Hw;
    destruct (write_pieces k pieceLen n _ sys) as [sys1 [n1 e1]];
    simpl in Hw; destruct Hw as (Hfl1 & Hoth & w & -> & Hle & Hall & Hnone & Hlook);
    assert (extends k pieceLen (store sys) (store sys1)) as Hgrow
      by (split; [split; [|done]|]; intros i p Hp;
          [ rewrite Hlook; destruct (decide (n ≤ i < n + w)) as [Hin|]; [|done];
            rewrite (Hnone i Hin) in Hp; done
          | rewrite Hlook in Hp; destruct (decide (n ≤ i < n + w)); [|by left];
            apply fmap_Some in Hp as (c & _ & ->); right; by exists c ]);
    assert (contiguous k n (store sys) → contiguous k (n + w) (store sys1)) as Hcont
      by (intros Hc i; rewrite Hlook;
          destruct (decide (n ≤ i < n + w)) as [Hin|Hout];
          [ split; [intros _; lia|intros _];
            destruct (lookup_lt_is_Some_2 (attempt_pieces pieceLen delivered clean) (i - n))
              as [c Hc']; [lia|]; rewrite Hc'; by eexists
          | rewrite (Hc i); lia ]);
    destruct e1 as [err|]; simpl;
    try (split; [done|]; intros Hc; exists (n + w); split; [by apply Hcont|done]).
  - destruct clean; simpl;
      [|split; [done|]; intros Hc; exists (n + w); split; [by apply Hcont|done]].
    destruct (finish k (n + w) sys1) as [sys2 e2] eqn:Hfin. simpl.
    assert (store sys2 = store sys1) as Hst
      by (pose proof (finish_store k (n + w) sys1) as Hs; by rewrite Hfin in Hs).
    rewrite Hst. split; [done|]. intros Hc. exists (n + w).
    split; [by apply Hcont|]. intros ->.
    destruct (finish_spec k (n + w) t sys1 sys2 Hfl1 Hfin) as [_ Hreg].
    by eexists.
  - destruct clean; simpl.
    + destruct (finish k (n + w) sys1) as [sys2 e2] eqn:Hfin. simpl.
      assert (store sys2 = store sys1) as Hst
        by (pose proof (finish_store k (n + w) sys1) as Hs; by rewrite Hfin in Hs).
      rewrite Hst. split; [done|]. intros Hc. exists (n + w).
      split; [by apply Hcont|]. intros ->.
      destruct (finish_spec k (n + w) t sys1 sys2 Hfl1 Hfin) as [_ Hreg].
      by eexists.
    + destruct (supportsRange up); simpl;
        [|split; [done|]; intros Hc; exists (n + w); split; [by apply Hcont|done]].
      destruct (IH (tail fs) (n + w) sys1 Hfl1) as [Hg Hc2].
      split; [by eapply extends_trans|].
      intros Hc. apply Hc2. by apply Hcont.
Qed.

(** The pieces of [k] are exactly the first [n] pieces of [bs]. *)
Definition holds (k : string) (P : nat) (bs : list Byte.byte) (n : nat)
    (s : PieceStore) : Prop :=
  ∀ i, pieces_at k s !! i
       = if decide (i < n) then Some (piece_of k P i (take P (drop (i * P) bs)))
         else None.

Lemma holds_contiguous k P bs n s : holds k P bs n s → contiguous k n s.
Proof.
  intros Hh i. rewrite Hh. case_decide; [|split; [by intros [? ?]|lia]].
  split; [done|by eexists].
Qed.

Lemma read_back_holds k P bs n s m :
  holds k P bs n s → m ≤ n → read_back (pieces_at k s) m = take (m * P) bs.
Proof.
  intros Hh. induction m as [|m IH]; intros Hm; [done|].
  simpl. rewrite IH by lia. rewrite Hh, decide_True by lia. simpl.
  rewrite take_take_drop. f_equal. lia.
Qed.

Lemma deliver_spec fs rest d clean :
  deliver fs rest = (d, clean) →
  if clean then d = rest else ∃ f, d = take f rest ∧ f < length rest.
Proof.
  unfold deliver. destruct fs as [|f fs]; [by intros [= <- <-]|].
  destruct (f <? length rest) eqn:Hf; intros [= <- <-]; [|done].
  exists f. split; [done|]. by apply Nat.ltb_lt.
Qed.

Lemma attempt_pieces_spec P bs n fs d clean :
  0 < P →
  deliver fs (drop (n * P) bs) = (d, clean) →
  let chunks := attempt_pieces P d clean in
  (∀ j c, chunks !! j = Some c → c = take P (drop ((n + j) * P) bs))
  ∧ if clean then n * P ≤ length bs → n + length chunks = (length bs + P - 1) / P
    else (n + length chunks) * P ≤ length bs.
Proof.
  intros HP Hd. apply deliver_spec in Hd. unfold attempt_pieces.
  destruct clean.
  - subst d. split.
    + intros j c Hc. rewrite split_pieces_lookup in Hc by done.
      case_decide; [|done]. injection Hc as <-.
      rewrite drop_drop. f_equal. f_equal. lia.
    + intros Hn. rewrite split_pieces_length, length_drop by done.
      replace (length bs + P - 1) with (n * P + (length bs - n * P + P - 1)) by lia.
      by rewrite Nat.div_add_l by lia.
  - destruct Hd as (f & -> & Hf). rewrite full_pieces_prefix by done.
    rewrite length_take, length_drop in *.
    rewrite Nat.min_l by lia. rewrite take_take.
    set (q := f / P).
    assert (q * P ≤ f) as Hq by (pose proof (Nat.Div0.mul_div_le f P); unfold q; nia).
    rewrite Nat.min_l by lia. split.
    + intros j c Hc. rewrite split_pieces_lookup in Hc by done.
      rewrite length_take, length_drop in Hc.
      case_decide as Hj; [|done]. injection Hc as <-.
      assert (j < q) as Hjq by nia.
      replace (q * P) with (j * P + (q * P - j * P)) by nia.
      rewrite <- take_drop_commute, take_take, drop_drop.
      rewrite Nat.min_l by nia. f_equal. f_equal. lia.
    + rewrite split_pieces_length, length_take, length_drop by done.
      rewrite Nat.min_l by lia.
      replace (q * P + P - 1) with (q * P + (P - 1)) by lia.
      rewrite Nat.div_add_l by lia. rewrite Nat.div_small by lia. nia.
Qed.

Lemma attempts_content retries up k P t fs n sys sys' :
  0 < P →
  in_flight k t sys →
  holds k P (content up) n (store sys) →
  n * P ≤ length (content up) →
  attempts retries fs up k P n sys = (sys', None) →
  holds k P (content up) ((length (content up) + P - 1) / P) (store sys')
  ∧ registry sys' !! k
    = Some (record_result (digest (content up)) (length (content up))
              (with_state Success t)).
Proof.
  intros HP. revert fs n sys.
  induction retries as [|retries IH]; intros fs n sys Hfl Hh Hn; simpl;
    destruct (deliver fs (drop (n * P) (content up))) as [delivered clean] eqn:Hd;
    pose proof (attempt_pieces_spec P (content up) n fs delivered clean HP Hd)
      as [Hchunk Hcount];
    pose proof (write_pieces_spec k P t (attempt_pieces P delivered clean) n sys Hfl) as Hw;
    destruct (write_pieces k P n _ sys) as [sys1 [n1 e1]];
    simpl in Hw; destruct Hw as (Hfl1 & _ & w & -> & _ & Hall & _ & Hlook);
    (destruct e1 as [err|]; [done|]); specialize (Hall eq_refl); subst w;
    assert (holds k P (content up)
              (n + length (attempt_pieces P delivered clean)) (store sys1)) as Hh1
      by (intros i; rewrite Hlook, Hh;
          destruct (decide (n ≤ i < n + length (attempt_pieces P delivered clean)))
            as [Hin|Hout];
          [ destruct (lookup_lt_is_Some_2 (attempt_pieces P delivered clean) (i - n))
              as [c Hc]; [lia|];
            rewrite Hc; simpl; rewrite (Hchunk _ _ Hc);
            replace (n + (i - n)) with i by lia; by rewrite decide_True by lia
          | repeat case_decide; try done; lia ]).
  - destruct clean; [|done]. intros Hfin.
    destruct (finish_spec k _ t sys1 sys' Hfl1 Hfin) as [Hst Hreg].
    rewrite Hcount in * by done. rewrite Hst. split; [done|].
    rewrite Hreg. rewrite (read_back_holds k P (content up) _ (store sys1) _ Hh1) by done.
    rewrite take_ge; [done|].
    pose proof (Nat.div_mod_eq (length (content up) + P - 1) P) as Hdm.
    pose proof (Nat.mod_upper_bound (length (content up) + P - 1) P). nia.
  - destruct clean.
    + intros Hfin.
      destruct (finish_spec k _ t sys1 sys' Hfl1 Hfin) as [Hst Hreg].
      rewrite Hcount in * by done. rewrite Hst. split; [done|].
      rewrite Hreg. rewrite (read_back_holds k P (content up) _ (store sys1) _ Hh1) by done.
      rewrite take_ge; [done|].
      pose proof (Nat.div_mod_eq (length (content up) + P - 1) P) as Hdm.
      pose proof (Nat.mod_upper_bound (length (content up) + P - 1) P). nia.
    + destruct (supportsRange up); [|done].
      intros Hrec. by eapply (IH (tail fs) _ sys1).
Qed.


Lemma Get_inr κ i s p : Get κ i s = inr p ↔ pieces_at κ s !! i = Some p.
Proof.
  unfold Get, pieces_at. destruct (pieces s !! κ) as [pm|]; simpl.
  - destruct (pm !! i); split; intros [= ->]; done.
  - rewrite lookup_empty. split; intros [=].
Qed.

Lemma Stat_size k s : (Stat k s).2 = size (pieces_at k s).
Proof.
  unfold Stat, pieces_at. destruct (pieces s !! k); simpl; [done|].
  by rewrite map_size_empty.
Qed.

(** A stored record is still there, unchanged, unless its whole task was
    deleted. *)
Definition records_kept (s s' : PieceStore) : Prop :=
  ∀ κ i p, Get κ i s = inr p → Get κ i s' = inr p ∨ pieces s' !! κ = None.

Lemma grows_records_kept k s s' : grows k s s' → records_kept s s'.
Proof.
  intros [Hk Hothers] κ i p Hget. destruct (decide (κ = k)) as [-> | Hne].
  - left. apply Get_inr. apply Hk. by apply Get_inr.
  - destruct (Hothers κ Hne) as [Heq | Hgone]; [|by right].
    left. unfold Get in *. by rewrite Heq.
Qed.

Lemma shrinks_records_kept s s' :
  (∀ κ, pieces s' !! κ = pieces s !! κ ∨ pieces s' !! κ = None) → records_kept s s'.
Proof.
  intros Hs κ i p Hget. destruct (Hs κ) as [Heq | Hgone]; [|by right].
  left. unfold Get in *. by rewrite Heq.
Qed.

Lemma records_kept_refl s : records_kept s s.
Proof. intros κ i p Hget. by left. Qed.

Lemma exec_records_kept o sys : records_kept (store sys) (store (exec o sys)).
Proof.
  destruct o; cbn [exec]; try apply records_kept_refl.
  - unfold fetching. destruct (registry sys !! k) as [t|] eqn:Hreg;
      [|apply records_kept_refl].
    case_decide as Hst; [|apply records_kept_refl].
    pose proof (write_piece_spec k (pieceLength t) (Stat k (store sys)).2 bs t sys
                  (conj Hreg Hst)) as Hw.
    simpl in Hw. destruct Hw as (_ & Hothers & Hk).
    apply (grows_records_kept k). split; [|done].
    intros i p Hp. destruct (write_piece k (pieceLength t) _ bs sys).2.
    + by rewrite Hk.
    + destruct Hk as [Hfree ->].
      destruct (decide (i = (Stat k (store sys)).2)) as [-> | Hne].
      * by rewrite Hfree in Hp.
      * by rewrite lookup_insert_ne.
  - unfold Fetch. destruct (registry sys !! k) as [t|] eqn:Hreg;
      [|apply records_kept_refl].
    case_decide as Hst; [|apply records_kept_refl].
    apply (grows_records_kept k).
    apply (attempts_spec maxRetries up k (pieceLength t) t (faults up) _ sys).
    by split.
  - destruct ok; apply records_kept_refl.
  - apply shrinks_records_kept. intros κ.
    apply (evict_lookup required (fst <$> candidates sys) sys κ).
  - apply shrinks_records_kept. intros κ. rewrite delete_victim_lookup.
    case_decide; [by right|by left].
Qed.

(** Under every key the stored sequence numbers are [0 .. n-1], [n] being
    their number. *)
Definition gapless (s : PieceStore) : Prop :=
  ∀ k, contiguous k (size (pieces_at k s)) s.

Lemma contiguous_empty k s : pieces s !! k = None → contiguous k 0 s.
Proof.
  intros Hk i. unfold pieces_at. rewrite Hk. simpl. rewrite lookup_empty.
  split; [by intros [? ?]|lia].
Qed.

Lemma gapless_step k N s s' :
  gapless s → others_kept k s s' → contiguous k N s' → gapless s'.
Proof.
  intros Hg Hothers Hk κ. destruct (decide (κ = k)) as [-> | Hne].
  - by rewrite (contiguous_size _ _ _ Hk).
  - destruct (Hothers κ Hne) as [Heq | Hgone].
    + specialize (Hg κ). unfold contiguous, pieces_at in *. by rewrite Heq.
    + pose proof (contiguous_empty κ s' Hgone) as Hc.
      by rewrite (contiguous_size _ _ _ Hc).
Qed.

Lemma gapless_shrink s s' :
  gapless s → (∀ κ, pieces s' !! κ = pieces s !! κ ∨ pieces s' !! κ = None) → gapless s'.
Proof.
  intros Hg Hs κ. destruct (Hs κ) as [Heq | Hgone].
  - specialize (Hg κ). unfold contiguous, pieces_at in *. by rewrite Heq.
  - pose proof (contiguous_empty κ s' Hgone) as Hc.
    by rewrite (contiguous_size _ _ _ Hc).
Qed.

Lemma exec_gapless o sys : gapless (store sys) → gapless (store (exec o sys)).
Proof.
  intros Hg. destruct o; cbn [exec]; try done.
  - unfold fetching. destruct (registry sys !! k) as [t|] eqn:Hreg; [|done].
    case_decide as Hst; [|done].
    pose proof (write_piece_spec k (pieceLength t) (Stat k (store sys)).2 bs t sys
                  (conj Hreg Hst)) as Hw.
    simpl in Hw. destruct Hw as (_ & Hothers & Hk).
    pose proof (Hg k) as Hck. rewrite <- Stat_size in Hck.
    destruct (write_piece k (pieceLength t) _ bs sys).2.
    + apply (gapless_step k (Stat k (store sys)).2 (store sys)); [done..|].
      unfold contiguous. by rewrite Hk.
    + destruct Hk as [Hfree Hins].
      apply (gapless_step k (S (Stat k (store sys)).2) (store sys)); [done..|].
      intros i. rewrite Hins.
      destruct (decide (i = (Stat k (store sys)).2)) as [-> | Hne].
      * rewrite lookup_insert_eq. split; [lia|by eexists].
      * rewrite lookup_insert_ne by done. rewrite (Hck i). lia.
  - unfold Fetch. destruct (registry sys !! k) as [t|] eqn:Hreg; [|done].
    case_decide as Hst; [|done].
    pose proof (attempts_spec maxRetries up k (pieceLength t) t (faults up)
                  (Stat k (store sys)).2 sys (conj Hreg Hst)) as [[[_ Hothers] _] Hc].
    destruct Hc as (N & HN & _); [rewrite Stat_size; apply Hg|].
    by apply (gapless_step k N (store sys)).
  - by destruct ok.
  - apply (gapless_shrink (store sys)); [done|]. intros κ.
    apply (evict_lookup required (fst <$> candidates sys) sys κ).
  - apply (gapless_shrink (store sys)); [done|]. intros κ.
    rewrite delete_victim_lookup. case_decide; [by right|by left].
Qed.

(** Every stored record sits under its own task key and sequence number. *)
Definition keyed (s : PieceStore) : Prop :=
  ∀ k i p, Get k i s = inr p → taskKey (meta p) = k ∧ seq (meta p) = i.

Lemma keyed_step k pieceLen s s' :
  keyed s → others_kept k s s' → fresh_only k pieceLen s s' → keyed s'.
Proof.
  intros Hkeyed Hothers Hfresh κ i p Hget. destruct (decide (κ = k)) as [-> | Hne].
  - apply Get_inr in Hget. destruct (Hfresh i p Hget) as [Hold | [c ->]]; [|done].
    apply Hkeyed. by apply Get_inr.
  - destruct (Hothers κ Hne) as [Heq | Hgone].
    + apply Hkeyed. unfold Get in *. by rewrite <- Heq.
    + unfold Get in Hget. by rewrite Hgone in Hget.
Qed.

Lemma keyed_shrink s s' :
  keyed s → (∀ κ, pieces s' !! κ = pieces s !! κ ∨ pieces s' !! κ = None) → keyed s'.
Proof.
  intros Hkeyed Hs κ i p Hget. destruct (Hs κ) as [Heq | Hgone].
  - apply Hkeyed. unfold Get in *. by rewrite <- Heq.
  - unfold Get in Hget. by rewrite Hgone in Hget.
Qed.

Lemma exec_keyed o sys : keyed (store sys) → keyed (store (exec o sys)).
Proof.
  intros Hk. destruct o; cbn [exec]; try done.
  - unfold fetching. destruct (registry sys !! k) as [t|] eqn:Hreg; [|done].
    case_decide as Hst; [|done].
    pose proof (write_piece_spec k (pieceLength t) (Stat k (store sys)).2 bs t sys
                  (conj Hreg Hst)) as Hw.
    simpl in Hw. destruct Hw as (_ & Hothers & Hat).
    apply (keyed_step k (pieceLength t) (store sys)); [done..|].
    intros i p Hp. destruct (write_piece k (pieceLength t) _ bs sys).2.
    + left. by rewrite <- Hat.
    + destruct Hat as [_ Hins]. rewrite Hins in Hp.
      destruct (decide (i = (Stat k (store sys)).2)) as [-> | Hne].
      * rewrite lookup_insert_eq in Hp. injection Hp as <-. right. by eexists.
      * rewrite lookup_insert_ne in Hp by done. by left.
  - unfold Fetch. destruct (registry sys !! k) as [t|] eqn:Hreg; [|done].
    case_decide as Hst; [|done].
    pose proof (attempts_spec maxRetries up k (pieceLength t) t (faults up)
                  (Stat k (store sys)).2 sys (conj Hreg Hst)) as [[[_ Hothers] Hfresh] _].
    by apply (keyed_step k (pieceLength t) (store sys)).
  - by destruct ok.
  - apply (keyed_shrink (store sys)); [done|]. intros κ.
    apply (evict_lookup required (fst <$> candidates sys) sys κ).
  - apply (keyed_shrink (store sys)); [done|]. intros κ.
    rewrite delete_victim_lookup. case_decide; [by right|by left].
Qed.

Lemma run_keyed ops sys : keyed (store sys) → keyed (store (run ops sys)).
Proof.
  revert sys. induction ops as [|o ops IH]; intros sys Hk; [done|].
  simpl. apply IH. by apply exec_keyed.
Qed.

Lemma run_gapless ops sys : gapless (store sys) → gapless (store (run ops sys)).
Proof.
  revert sys. induction ops as [|o ops IH]; intros sys Hg; [done|].
  simpl. apply IH. by apply exec_gapless.
Qed.

(** C3: in every state the system reaches from an empty store, the
    sequence numbers stored under a key (so under the key of every task
    in [Success]) are exactly [0 .. N-1], [N] being their number, and each
    record carries the task key and sequence number it is stored under; a
    fetch that ends without error has brought its task to [Success]; and
    no operation of the system changes or moves a stored piece record:
    after any operation a record that was there is there unchanged under
    its sequence number, unless its whole task was deleted by the
    operation; [Put] refuses a pair that exists. *)
Theorem success_pieces_contiguous_and_immutable :
  (∀ capacity ops k,
      dom (pieces_at k (store (run ops (initial capacity))))
      = (set_seq 0 (Stat k (store (run ops (initial capacity)))).2 : gset nat))
  ∧ (∀ capacity ops k i p,
      Get k i (store (run ops (initial capacity))) = inr p →
      taskKey (meta p) = k ∧ seq (meta p) = i)
  ∧ (∀ up maxRetries k sys sys',
      dom (pieces_at k (store sys))
        = (set_seq 0 (size (pieces_at k (store sys))) : gset nat) →
      Fetch up maxRetries k sys = (sys', None) →
      (∃ t', registry sys' !! k = Some t' ∧ state t' = Success)
      ∧ dom (pieces_at k (store sys'))
        = (set_seq 0 (Stat k (store sys')).2 : gset nat))
  ∧ (∀ o sys κ i p,
      Get κ i (store sys) = inr p →
      Get κ i (store (exec o sys)) = inr p ∨ pieces (store (exec o sys)) !! κ = None)
  ∧ (∀ r bs s p,
      Get (taskKey r) (seq r) s = inr p → Put r bs s = (s, Some DuplicateWrite)).
Proof.
  split; [|split; [|split; [|split]]].
  - intros capacity ops k. rewrite Stat_size. apply contiguous_dom.
    apply (run_gapless ops (initial capacity)).
    intros κ. assert (pieces_at κ (store (initial capacity)) = ∅) as -> by done.
    rewrite map_size_empty. by apply contiguous_empty.
  - intros capacity ops. apply (run_keyed ops (initial capacity)).
    intros k i p Hget. unfold Get in Hget. simpl in Hget.
    by rewrite lookup_empty in Hget.
  - intros up maxRetries k sys sys' Hdom. unfold Fetch.
    destruct (registry sys !! k) as [t|] eqn:Hreg; [|done].
    case_decide as Hst; [|done]. intros Hfetch.
    pose proof (attempts_spec maxRetries up k (pieceLength t) t (faults up)
                  (Stat k (store sys)).2 sys (conj Hreg Hst)) as [_ Hc].
    rewrite Hfetch in Hc. simpl in Hc.
    destruct Hc as (N & Hcont & Hsucc).
    { rewrite Stat_size. by apply contiguous_dom. }
    split; [by apply Hsucc|].
    rewrite Stat_size, (contiguous_size _ _ _ Hcont). by apply contiguous_dom.
  - intros o sys. apply exec_records_kept.
  - intros r bs s p Hget. apply Get_inr in Hget. unfold Put.
    fold (pieces_at (taskKey r) s). by rewrite Hget.
Qed.

(** With room in the store and a stream that does not break, a fetch of a
    new task succeeds. *)
Lemma write_piece_room k P n c sys :
  (Z.of_nat (length c) ≤ free (store sys))%Z →
  pieces_at k (store sys) !! n = None →
  let r := write_piece k P n c sys in
  r.2 = None
  ∧ registry r.1 = registry sys
  ∧ free (store r.1) = (free (store sys) - Z.of_nat (length c))%Z
  ∧ pieces_at k (store r.1) = <[n := piece_of k P n c]> (pieces_at k (store sys)).
Proof.
  intros Hroom Hfree. unfold write_piece, EnsureCapacity.
  rewrite evict_enough by done. cbn [fst snd]. unfold FreeCapacity.
  assert ((Z.of_nat (length c) <=? free (store sys))%Z = true) as -> by by apply Z.leb_le.
  unfold Put. cbn [taskKey seq]. fold (pieces_at k (store sys)). rewrite Hfree.
  cbn [fst snd store registry free]. split; [done|]. split; [done|]. split; [done|].
  unfold pieces_at at 1. cbn [pieces]. by rewrite lookup_insert_eq.
Qed.

Lemma write_pieces_room k P chunks n sys :
  (Z.of_nat (length (concat chunks)) ≤ free (store sys))%Z →
  (∀ i, n ≤ i → pieces_at k (store sys) !! i = None) →
  let r := write_pieces k P n chunks sys in
  r.2.2 = None ∧ registry r.1 = registry sys.
Proof.
  revert n sys. induction chunks as [|c cs IH]; intros n sys Hroom Hfree; [done|].
  simpl in Hroom. rewrite length_app in Hroom.
  pose proof (write_piece_room k P n c sys) as Hw. simpl in Hw.
  destruct Hw as (He & Hreg & Hf & Hp); [lia|by apply Hfree|].
  simpl. destruct (write_piece k P n c sys) as [sys1 e1]. simpl in *. subst e1.
  destruct (IH (S n) sys1) as [? Hreg2]; [lia| |].
  - intros i Hi. rewrite Hp, lookup_insert_ne by lia. apply Hfree. lia.
  - split; [done|congruence].
Qed.

Lemma Fetch_with_room up maxRetries k t sys :
  registry sys !! k = Some t → state t = Fetching → 0 < pieceLength t →
  pieces (store sys) !! k = None →
  faults up = [] → expectedDigest (source t) = None →
  (Z.of_nat (length (content up)) ≤ free (store sys))%Z →
  (Fetch up maxRetries k sys).2 = None.
Proof.
  intros Hreg Hst HP Hnew Hfaults Hexp Hroom. unfold Fetch. rewrite Hreg.
  rewrite decide_True by done. rewrite Hfaults.
  assert (pieces_at k (store sys) = ∅) as Hempty by (unfold pieces_at; by rewrite Hnew).
  rewrite Stat_size, Hempty, map_size_empty.
  pose proof (write_pieces_room k (pieceLength t)
                (split_pieces (pieceLength t) (content up)) 0 sys) as Hw.
  simpl in Hw. destruct Hw as [He Hr].
  { by rewrite split_pieces_concat. }
  { intros i _. by rewrite Hempty, lookup_empty. }
  assert (∀ retries,
            (attempts retries [] up k (pieceLength t) 0 sys).2 = None) as Hall.
  { intros retries. destruct retries; simpl; unfold attempt_pieces;
      destruct (write_pieces k (pieceLength t) 0 _ sys) as [sys1 [n1 e1]];
      simpl in *; subst e1; unfold finish; rewrite Hr, Hreg, Hexp;
      unfold Transition; rewrite Hreg; rewrite decide_True by done; done. }
  apply Hall.
Qed.

(** C4: a source of length [L] splits into [ceil(L/P)] pieces, each of
    length [P] except the last, which has [L - P * (ceil(L/P) - 1)]
    bytes, and the pieces joined give the source back; a fetch of a new
    task that ends in [Success], whatever the retries on the way, has
    stored exactly these pieces under their sequence numbers and recorded
    the length and the digest of the whole source; such a fetch does
    succeed when the store has room for the source and the stream does not
    break; 2500 bytes in pieces of 1024 give pieces of 1024, 1024 and 452
    bytes. *)
Theorem Fetch_splits_source :
  (∀ P bs, 0 < P →
      length (split_pieces P bs) = (length bs + P - 1) / P
      ∧ (∀ i c, split_pieces P bs !! i = Some c →
           length c = if decide (S i = length (split_pieces P bs))
                      then length bs - P * i else P)
      ∧ concat (split_pieces P bs) = bs)
  ∧ (∀ up maxRetries k t sys sys',
      registry sys !! k = Some t → 0 < pieceLength t →
      pieces (store sys) !! k = None →
      Fetch up maxRetries k sys = (sys', None) →
      (∀ i, pieces_at k (store sys') !! i
            = piece_of k (pieceLength t) i <$> split_pieces (pieceLength t) (content up) !! i)
      ∧ (Stat k (store sys')).2
        = (length (content up) + pieceLength t - 1) / pieceLength t
      ∧ registry sys' !! k
        = Some (record_result (digest (content up)) (length (content up))
                  (with_state Success t)))
  ∧ (∀ up maxRetries k t sys,
      registry sys !! k = Some t → state t = Fetching → 0 < pieceLength t →
      pieces (store sys) !! k = None →
      faults up = [] → expectedDigest (source t) = None →
      (Z.of_nat (length (content up)) ≤ free (store sys))%Z →
      (Fetch up maxRetries k sys).2 = None)
  ∧ (∀ bs, length bs = 2500 → length <$> split_pieces 1024 bs = [1024; 1024; 452]).
Proof.
  split; [|split; [|split; [exact Fetch_with_room|]]].
  - intros P bs HP. split; [by apply split_pieces_length|].
    split; [intros i c; by apply split_pieces_lengths|by apply split_pieces_concat].
  - intros up maxRetries k t sys sys' Hreg HP Hnew. unfold Fetch. rewrite Hreg.
    case_decide as Hst; [|done]. intros Hfetch.
    assert (pieces_at k (store sys) = ∅) as Hempty
      by (unfold pieces_at; by rewrite Hnew).
    rewrite Stat_size, Hempty, map_size_empty in Hfetch.
    destruct (attempts_content maxRetries up k (pieceLength t) t (faults up) 0 sys sys')
      as [Hh Hreg']; [done|done| |lia|done|].
    { intros i. rewrite Hempty, lookup_empty. by rewrite decide_False by lia. }
    split; [|split; [|done]].
    + intros i. rewrite Hh, split_pieces_lookup by done.
      pose proof (split_pieces_length (pieceLength t) (content up) HP) as Hlen.
      destruct (decide (i * pieceLength t < length (content up))) as [Hlt|Hge].
      * rewrite decide_True; [done|]. rewrite <- Hlen.
        apply lookup_lt_is_Some. rewrite split_pieces_lookup by done.
        rewrite decide_True by done. by eexists.
      * rewrite decide_False; [done|]. rewrite <- Hlen. intros Hi.
        apply lookup_lt_is_Some in Hi. rewrite split_pieces_lookup in Hi by done.
        rewrite decide_False in Hi by done. by destruct Hi.
    + rewrite Stat_size. apply contiguous_size. by eapply holds_contiguous.
  - intros bs Hlen. apply list_eq. intros i.
    rewrite list_lookup_fmap, split_pieces_lookup by lia. rewrite Hlen.
    destruct i as [|[|[|i]]].
    + rewrite decide_True by lia. cbn [fmap option_fmap option_map lookup list_lookup].
      f_equal. rewrite length_take, length_drop. lia.
    + rewrite decide_True by lia. cbn [fmap option_fmap option_map lookup list_lookup].
      f_equal. rewrite length_take, length_drop. lia.
    + rewrite decide_True by lia. cbn [fmap option_fmap option_map lookup list_lookup].
      f_equal. rewrite length_take, length_drop. lia.
    + rewrite decide_False by lia. done.
Qed.

End Fetching.

(** ** Worked examples *)

Definition example_source : SourceDescriptor :=
  {| url := "http://origin/blob"; expectedDigest := None |}.

(** A source of 2500 bytes whose stream breaks after 1500 bytes on the
    first attempt and after 100 bytes on the second. *)
Definition example_upstream : Upstream :=
  {| content := replicate 2500 Byte.x2a; supportsRange := true; faults := [1500; 100] |}.

(** A store of 4096 bytes and the task "blob" just requested, with pieces
    of 1024 bytes. *)
Definition requested : System :=
  exec (OpRequest "blob" example_source 1024 7) (initial 4096).

Definition fetched : System := (Fetch example_upstream 3 "blob" requested).1.

Lemma Fetch_example : Fetch example_upstream 3 "blob" requested = (fetched, None).
Proof. vm_compute. reflexivity. Qed.

Lemma success_pieces_contiguous_and_immutable_witness :
  (∃ t', registry fetched !! "blob" = Some t' ∧ state t' = Success)
  ∧ dom (pieces_at "blob" (store fetched)) = (set_seq 0 (Stat "blob" (store fetched)).2 : gset nat).
Proof.
  apply (proj1 (proj2 (proj2 success_pieces_contiguous_and_immutable))
           example_upstream 3 "blob" requested).
  - reflexivity.
  - exact Fetch_example.
Defined.

Lemma Fetch_splits_source_witness :
  (Stat "blob" (store fetched)).2 = (2500 + 1024 - 1) / 1024
  ∧ registry fetched !! "blob"
    = Some (record_result 2500 2500
              (with_state Success (new_task "blob" example_source 1024 7))).
Proof.
  destruct (proj1 (proj2 Fetch_splits_source) example_upstream 3 "blob"
              (new_task "blob" example_source 1024 7) requested fetched)
    as (_ & Hcount & Hreg).
  - reflexivity.
  - simpl. lia.
  - reflexivity.
  - exact Fetch_example.
  - split; [exact Hcount|exact Hreg].
Defined.

(** The eviction scenario, run from an empty store of 2048 bytes: "a" and
    "b" are fetched (1024 bytes each), "a" is read again, "c" is
    requested. *)
Definition kilobyte (b : Byte.byte) : Upstream :=
  {| content := replicate 1024 b; supportsRange := true; faults := [] |}.

Definition scenario_ops : list Op :=
  [OpRequest "a" example_source 1024 10; OpFetch (kilobyte Byte.x61) 0 "a";
   OpRequest "b" example_source 1024 20; OpFetch (kilobyte Byte.x62) 0 "b";
   OpTouch "a" 30;
   OpRequest "c" example_source 1024 40].

Definition scenario : System := run scenario_ops (initial 2048).

Example scenario_full : free (store scenario) = 0%Z.
Proof. vm_compute. reflexivity. Qed.

Example scenario_evicts_b :
  victims_of 1024 scenario = ["b"]
  ∧ (Fetch (kilobyte Byte.x63) 0 "c" scenario).2 = None
  ∧ dom (registry (Fetch (kilobyte Byte.x63) 0 "c" scenario).1) = ({["a"; "c"]} : gset string).
Proof. vm_compute. done. Qed.

Lemma free_capacity_within_bounds_witness :
  let s := store (run (scenario_ops ++ [OpFetch (kilobyte Byte.x63) 0 "c"]) (initial 2048)) in
  (0 ≤ free s ≤ 2048)%Z ∧ total s = 2048%Z.
Proof.
  apply (free_capacity_within_bounds 2048 (scenario_ops ++ [OpFetch (kilobyte Byte.x63) 0 "c"])).
  lia.
Defined.

Definition cached (k : string) (b : Byte.byte) (accessed : nat) : Task * gmap nat Piece :=
  ({| key := k; state := Success; totalLength := Some 1024; pieceLength := 1024;
      finalDigest := Some 1024; created := 5; lastAccessed := accessed;
      source := example_source |},
   {[ 0 := piece_of k 1024 0 (replicate 1024 b) ]}).

Lemma EnsureCapacity_evicts_least_recently_used_witness :
  victims_of 1024
    (two_cached "a" "b" "c" (cached "a" Byte.x61 10).1 (cached "b" Byte.x62 20).1
       (new_task "c" example_source 1024 40)
       (cached "a" Byte.x61 10).2 (cached "b" Byte.x62 20).2 ∅)
  = ["a"].
Proof.
  apply (proj2 EnsureCapacity_evicts_least_recently_used "a" "b" "c");
    try done; try (simpl; lia); vm_compute; reflexivity.
Defined.

End CoreFacts.
